(** * Triton: the AST garbage collector and the Triton-to-Z3 translator

    A shallow embedding of
    - [src/libtriton/ast/astGarbageCollector.cpp] (module [AstGarbageCollector]),
    - [src/libtriton/ast/z3/tritonToZ3Ast.New.cpp] (module [New]),
    - [src/libtriton/ast/z3/tritonToZ3Ast.cpp]     (module [Old]),
    and the properties of these functions.

    Conventions.  A C++ pointer is an address in [N], [nullptr] is [0].  The
    free store is a finite map from addresses to nodes; [delete] removes an
    address from it.  A C++ call either returns, throws, has undefined
    behaviour, or (loops and recursion being run on fuel) is cut short.
    What the code prints ([printf], the Z3 log file) is left out, and so are
    the errors Z3 itself may raise on ill-sorted arguments: a solver
    expression is the term the constructor calls built. *)

From stdpp Require Import base option list gmap sets strings numbers sorting.

Open Scope N_scope.

(** ** Outcomes of a call *)

Inductive exception :=
  | Ast (what : string)              (* triton::exceptions::Ast *)
  | AstTranslations (what : string)  (* triton::exceptions::AstTranslations *)
  | Exception (what : string)        (* triton::exceptions::Exception *)
  | out_of_range.                    (* std::out_of_range, from unordered_map::at *)

Inductive result (A : Type) :=
  | Ok (a : A)
  | Throw (e : exception)
  | Undefined      (* null or dangling dereference, bad cast, vector[] out of range *)
  | OutOfFuel.
Arguments Ok {A} a.
Arguments Throw {A} e.
Arguments Undefined {A}.
Arguments OutOfFuel {A}.

#[global] Instance result_ret : MRet result := λ A, Ok.
#[global] Instance result_bind : MBind result := λ A B f m,
  match m with
  | Ok a => f a
  | Throw e => Throw e
  | Undefined => Undefined
  | OutOfFuel => OutOfFuel
  end.

(** A [for] loop over a sequence whose body may fail: the accumulator is the
    state the body mutates. *)
Fixpoint for_each {A S} (body : A → S → result S) (l : list A) (s : S) : result S :=
  match l with
  | [] => Ok s
  | x :: l' => s' ← body x s; for_each body l' s'
  end.

(** ** Nodes *)

Inductive kind_e :=
  | UNDEFINED_NODE
  | BVADD_NODE | BVAND_NODE | BVASHR_NODE | BVLSHR_NODE | BVMUL_NODE
  | BVNAND_NODE | BVNEG_NODE | BVNOR_NODE | BVNOT_NODE | BVOR_NODE
  | BVROL_NODE | BVROR_NODE | BVSDIV_NODE | BVSGE_NODE | BVSGT_NODE
  | BVSHL_NODE | BVSLE_NODE | BVSLT_NODE | BVSMOD_NODE | BVSREM_NODE
  | BVSUB_NODE | BVUDIV_NODE | BVUGE_NODE | BVUGT_NODE | BVULE_NODE
  | BVULT_NODE | BVUREM_NODE | BVXNOR_NODE | BVXOR_NODE | BV_NODE
  | CONCAT_NODE | DECIMAL_NODE | DISTINCT_NODE | EQUAL_NODE | EXTRACT_NODE
  | ITE_NODE | LAND_NODE | LET_NODE | LNOT_NODE | LOR_NODE
  | REFERENCE_NODE | STRING_NODE | SX_NODE | VARIABLE_NODE | ZX_NODE.

#[global] Instance kind_e_eq_dec : EqDecision kind_e.
Proof. solve_decision. Defined.

(** The class hierarchy below [AbstractNode], as a tagged union.  The leaf
    classes carry the data their accessors return; every other kind is a
    node with a kind tag and a vector of children. *)
Inductive AbstractNode :=
  | DecimalNode (value : N)                                (* getValue() *)
  | StringNode (value : string)                            (* getValue() *)
  | VariableNode (varName : string) (varId : N) (eval : N) (* getVarName(), getVar().getId(), evaluate() *)
  | ReferenceNode (expr : N)                               (* getSymbolicExpression(), by id *)
  | OperatorNode (kind : kind_e) (children : list N).

Definition getKind (n : AbstractNode) : kind_e :=
  match n with
  | DecimalNode _ => DECIMAL_NODE
  | StringNode _ => STRING_NODE
  | VariableNode _ _ _ => VARIABLE_NODE
  | ReferenceNode _ => REFERENCE_NODE
  | OperatorNode k _ => k
  end.

Definition getChildren (n : AbstractNode) : list N :=
  match n with
  | OperatorNode _ cs => cs
  | _ => []
  end.

Definition nullptr : N := 0.

(** [p->...]: reading through a pointer. *)
Definition deref (heap : gmap N AbstractNode) (p : N) : result AbstractNode :=
  if decide (p = nullptr) then Undefined
  else match heap !! p with
       | Some n => Ok n
       | None => Undefined
       end.

(** [delete p]. *)
Definition cpp_delete (p : N) (heap : gmap N AbstractNode) : result (gmap N AbstractNode) :=
  if decide (p = nullptr) then Ok heap
  else match heap !! p with
       | Some _ => Ok (delete p heap)
       | None => Undefined
       end.

(** Iteration over a [std::set<AbstractNode*>]: ascending addresses. *)
Definition set_iter (s : gset N) : list N := merge_sort N.le (elements s).

(** [std::map::emplace]: inserts unless the key is present; the flag is the
    [.second] of the returned pair. *)
Definition map_emplace {V} (k : string) (v : V) (m : gmap string V) : gmap string V * bool :=
  match m !! k with
  | Some _ => (m, false)
  | None => (<[k := v]> m, true)
  end.

(** ** The garbage collector *)

Module AstGarbageCollector.

Record t := mk {
  allocatedNodes : gset N;
  variableNodes : gmap string N;
  backupFlag : bool
}.

(** [AstGarbageCollector(bool isBackup)] *)
Definition ctor (isBackup : bool) : t :=
  {| allocatedNodes := ∅; variableNodes := ∅; backupFlag := isBackup |}.

(** [copy(other)] *)
Definition copy (this other : t) (heap : gmap N AbstractNode)
    : result (t * gmap N AbstractNode) :=
  heap' ← for_each (λ it heap,
               if decide (it ∈ allocatedNodes other) then Ok heap
               else cpp_delete it heap)
             (set_iter (allocatedNodes this)) heap;
  Ok ({| allocatedNodes := allocatedNodes other;
         backupFlag := true;
         variableNodes := variableNodes other |}, heap').

(** [operator=(other)] *)
Definition assign := copy.

(** the copy constructor: [copy] on a freshly constructed object *)
Definition copy_ctor (other : t) (heap : gmap N AbstractNode)
    : result (t * gmap N AbstractNode) :=
  copy {| allocatedNodes := ∅; variableNodes := ∅; backupFlag := false |} other heap.

(** [freeAllAstNodes()] *)
Definition freeAllAstNodes (this : t) (heap : gmap N AbstractNode)
    : result (t * gmap N AbstractNode) :=
  heap' ← for_each cpp_delete (set_iter (allocatedNodes this)) heap;
  Ok ({| allocatedNodes := ∅; variableNodes := ∅; backupFlag := backupFlag this |}, heap').

(** [~AstGarbageCollector()] *)
Definition dtor (this : t) (heap : gmap N AbstractNode)
    : result (gmap N AbstractNode) :=
  if bool_decide (backupFlag this = false)
  then '(_, heap') ← freeAllAstNodes this heap; Ok heap'
  else Ok heap.

(** One iteration of the loop of [freeAstNodes]. *)
Definition freeAstNodes_body (it : N) (s : t * gmap N AbstractNode)
    : result (t * gmap N AbstractNode) :=
  let '(this, heap) := s in
  let allocated := allocatedNodes this ∖ {[it]} in
  n ← deref heap it;
  variables ←
    (if decide (getKind n = VARIABLE_NODE)
     then match n with
          | VariableNode name _ _ => Ok (delete name (variableNodes this))
          | _ => Undefined
          end
     else Ok (variableNodes this));
  heap' ← cpp_delete it heap;
  Ok ({| allocatedNodes := allocated; variableNodes := variables;
         backupFlag := backupFlag this |}, heap').

(** [freeAstNodes(nodes)]: [nodes] is passed by reference, its value after
    the call is the first component of the result. *)
Definition freeAstNodes (nodes : gset N) (this : t) (heap : gmap N AbstractNode)
    : result (gset N * t * gmap N AbstractNode) :=
  '(this', heap') ← for_each freeAstNodes_body (set_iter nodes) (this, heap);
  Ok (∅, this', heap').

(** [extractUniqueAstNodes(uniqueNodes, root)]; [fuel] bounds the depth of
    the recursion. *)
Fixpoint extractUniqueAstNodes (fuel : nat) (heap : gmap N AbstractNode)
    (uniqueNodes : gset N) (root : N) : result (gset N) :=
  if decide (root = nullptr) then Ok uniqueNodes
  else match fuel with
       | O => OutOfFuel
       | S fuel' =>
           let uniqueNodes := {[root]} ∪ uniqueNodes in
           n ← deref heap root;
           for_each (λ it acc, extractUniqueAstNodes fuel' heap acc it)
                    (getChildren n) uniqueNodes
       end.

(** [recordAstNode(node)] *)
Definition recordAstNode (node : N) (this : t) : t * N :=
  ({| allocatedNodes := {[node]} ∪ allocatedNodes this;
      variableNodes := variableNodes this;
      backupFlag := backupFlag this |}, node).

(** [recordVariableAstNode(name, node)]: the object as the call leaves it,
    and how the call ended. *)
Definition recordVariableAstNode (name : string) (node : N) (this : t)
    : t * result unit :=
  let '(variables, inserted) := map_emplace name node (variableNodes this) in
  let this' := {| allocatedNodes := allocatedNodes this;
                  variableNodes := variables;
                  backupFlag := backupFlag this |} in
  if negb inserted
  then (this', Throw (Ast "Can't register this variable as it already exists"))
  else (this', Ok ()).

(** [getAstVariableNode(name)] *)
Definition getAstVariableNode (name : string) (this : t) : N :=
  match variableNodes this !! name with
  | Some node => node
  | None => nullptr
  end.

(** [setAllocatedAstNodes(nodes)] *)
Definition setAllocatedAstNodes (nodes : gset N) (this : t) (heap : gmap N AbstractNode)
    : result (t * gmap N AbstractNode) :=
  heap' ← for_each (λ it heap,
               if decide (it ∈ nodes) then Ok heap else cpp_delete it heap)
             (set_iter (allocatedNodes this)) heap;
  Ok ({| allocatedNodes := nodes; variableNodes := variableNodes this;
         backupFlag := backupFlag this |}, heap').

(** [setAstVariableNodes(nodes)] *)
Definition setAstVariableNodes (nodes : gmap string N) (this : t) : t :=
  {| allocatedNodes := allocatedNodes this; variableNodes := nodes;
     backupFlag := backupFlag this |}.

End AstGarbageCollector.

(** ** The solver side *)

(** The table of [getBinaryZ3Function]. *)
Inductive BinaryZ3Function :=
  | Z3_mk_bvadd | Z3_mk_bvand | Z3_mk_bvashr | Z3_mk_bvlshr | Z3_mk_bvmul
  | Z3_mk_bvnand | Z3_mk_bvnor | Z3_mk_bvor | Z3_mk_bvsdiv | Z3_mk_bvsge
  | Z3_mk_bvsgt | Z3_mk_bvshl | Z3_mk_bvsle | Z3_mk_bvslt | Z3_mk_bvsmod
  | Z3_mk_bvsrem | Z3_mk_bvsub | Z3_mk_bvudiv | Z3_mk_bvuge | Z3_mk_bvugt
  | Z3_mk_bvule | Z3_mk_bvult | Z3_mk_bvurem | Z3_mk_bvxnor | Z3_mk_bvxor
  | Z3_mk_eq.

(** The table of [getUnaryZ3Function]. *)
Inductive UnaryZ3Function := Z3_mk_bvneg | Z3_mk_bvnot.

(** A [Z3_ast] is the term the constructor calls built.  A numeral is made
    from the decimal string of a number, kept here as the number. *)
Inductive Z3_ast :=
  | Z3_binary (f : BinaryZ3Function) (a b : Z3_ast)
  | Z3_unary (f : UnaryZ3Function) (a : Z3_ast)
  | Z3_mk_rotate_left (i : N) (a : Z3_ast)
  | Z3_mk_rotate_right (i : N) (a : Z3_ast)
  | Z3_bv_val (value : N) (size : N)       (* Z3_mk_numeral with Z3_mk_bv_sort, context.bv_val *)
  | Z3_int_val (value : N)                 (* Z3_mk_numeral with Z3_mk_int_sort, context.int_val *)
  | Z3_bv_const (name : string) (size : N) (* Z3_mk_const with Z3_mk_bv_sort, context.bv_const *)
  | Z3_mk_concat (a b : Z3_ast)
  | Z3_mk_distinct (a b : Z3_ast)          (* always called with two operands *)
  | Z3_mk_extract (hi lo : N) (a : Z3_ast)
  | Z3_mk_ite (c a b : Z3_ast)
  | Z3_mk_and (a b : Z3_ast)               (* always called with two operands *)
  | Z3_mk_or (a b : Z3_ast)
  | Z3_mk_not (a : Z3_ast)
  | Z3_mk_sign_ext (i : N) (a : Z3_ast)
  | Z3_mk_zero_ext (i : N) (a : Z3_ast).

#[global] Instance BinaryZ3Function_eq_dec : EqDecision BinaryZ3Function.
Proof. solve_decision. Defined.
#[global] Instance UnaryZ3Function_eq_dec : EqDecision UnaryZ3Function.
Proof. solve_decision. Defined.
#[global] Instance Z3_ast_eq_dec : EqDecision Z3_ast.
Proof. solve_decision. Defined.

(** The two source files differ in a few places of the lowering; [Old] is
    tritonToZ3Ast.cpp, [New] is tritonToZ3Ast.New.cpp. *)
Inductive revision := Old | New.

Definition getBinaryZ3Function (rev : revision) (kind : kind_e) : option BinaryZ3Function :=
  match kind with
  | BVADD_NODE => Some Z3_mk_bvadd
  | BVAND_NODE => Some Z3_mk_bvand
  | BVASHR_NODE => Some Z3_mk_bvashr
  | BVLSHR_NODE => Some Z3_mk_bvlshr
  | BVMUL_NODE => Some Z3_mk_bvmul
  | BVNAND_NODE => Some Z3_mk_bvnand
  | BVNOR_NODE => Some Z3_mk_bvnor
  | BVOR_NODE => Some Z3_mk_bvor
  | BVSDIV_NODE => Some Z3_mk_bvsdiv
  | BVSGE_NODE => Some Z3_mk_bvsge
  | BVSGT_NODE => Some Z3_mk_bvsgt
  | BVSHL_NODE => Some Z3_mk_bvshl
  | BVSLE_NODE => Some Z3_mk_bvsle
  | BVSLT_NODE => Some Z3_mk_bvslt
  | BVSMOD_NODE => Some Z3_mk_bvsmod
  | BVSREM_NODE => Some Z3_mk_bvsrem
  | BVSUB_NODE => Some Z3_mk_bvsub
  | BVUDIV_NODE => Some Z3_mk_bvudiv
  | BVUGE_NODE => Some Z3_mk_bvuge
  | BVUGT_NODE => match rev with New => Some Z3_mk_bvugt | Old => None end
  | BVULE_NODE => Some Z3_mk_bvule
  | BVULT_NODE => Some Z3_mk_bvult
  | BVUREM_NODE => Some Z3_mk_bvurem
  | BVXNOR_NODE => Some Z3_mk_bvxnor
  | BVXOR_NODE => Some Z3_mk_bvxor
  | EQUAL_NODE => Some Z3_mk_eq
  | _ => None
  end.

Definition getUnaryZ3Function (kind : kind_e) : option UnaryZ3Function :=
  match kind with
  | BVNEG_NODE => Some Z3_mk_bvneg
  | BVNOT_NODE => Some Z3_mk_bvnot
  | _ => None
  end.

(** Calling through a function pointer that may be null. *)
Definition call_ptr {A} (f : option A) : result A :=
  match f with
  | Some f => Ok f
  | None => Undefined
  end.

(** The sort of a term is boolean ([isBool], [get_sort().is_bool()]). *)
Fixpoint isBool (e : Z3_ast) : bool :=
  match e with
  | Z3_binary f _ _ =>
      match f with
      | Z3_mk_bvsge | Z3_mk_bvsgt | Z3_mk_bvsle | Z3_mk_bvslt
      | Z3_mk_bvuge | Z3_mk_bvugt | Z3_mk_bvule | Z3_mk_bvult | Z3_mk_eq => true
      | _ => false
      end
  | Z3_mk_distinct _ _ | Z3_mk_and _ _ | Z3_mk_or _ _ | Z3_mk_not _ => true
  | Z3_mk_ite _ a _ => isBool a
  | _ => false
  end.

(** [expr.is_int()] *)
Definition is_int (e : Z3_ast) : bool :=
  match e with
  | Z3_int_val _ => true
  | _ => false
  end.

(** [Z3_get_numeral_uint64]: succeeds on a numeral that fits. *)
Definition Z3_get_numeral_uint64 (e : Z3_ast) : option N :=
  match e with
  | Z3_int_val v => if decide (v < 2 ^ 64) then Some v else None
  | Z3_bv_val v size => if decide (v `mod` 2 ^ size < 2 ^ 64) then Some (v `mod` 2 ^ size) else None
  | _ => None
  end.

(** [getUintValue]: [result] starts at 0 and is left there when the read
    fails.  The [z3::expr] overload, the one the old file has, first
    throws on a term that is not of integer sort. *)
Definition getUintValue (rev : revision) (e : Z3_ast) : result N :=
  match rev with
  | New => Ok (default 0 (Z3_get_numeral_uint64 e))
  | Old =>
      if negb (is_int e)
      then Throw (Exception "TritonToZ3Ast::getUintValue(): The ast is not a numerical value.")
      else Ok (default 0 (Z3_get_numeral_uint64 e))
  end.

(** [getStringValue]: the decimal string of a numeral, as a number.  Asking
    for the string of a term that is not a numeral is left undefined. *)
Definition getStringValue (e : Z3_ast) : result N :=
  match e with
  | Z3_int_val v => Ok v
  | Z3_bv_val v size => Ok (v `mod` 2 ^ size)
  | _ => Undefined
  end.

(** [static_cast<triton::uint32>], [convert_to<triton::uint32>()] *)
Definition uint32 (v : N) : N := v `mod` 2 ^ 32.

(** ** The symbolic engine, as far as the translator reads it *)

Record SymbolicVariable := {
  getName : string;
  getSize : N
}.

Record SymbolicEngine := {
  symbolicExpressions : gmap N N;              (* expression id ↦ getAst() *)
  symbolicVariables : gmap N SymbolicVariable  (* getSymbolicVariableFromId *)
}.

(** [reinterpret_cast<ReferenceNode*>(node)->getSymbolicExpression().getAst()] *)
Definition getAst (engine : SymbolicEngine) (n : AbstractNode) : result N :=
  match n with
  | ReferenceNode expr =>
      match symbolicExpressions engine !! expr with
      | Some ast => Ok ast
      | None => Undefined
      end
  | _ => Undefined
  end.

(** [reinterpret_cast<DecimalNode*>(p)->getValue()] *)
Definition DecimalNode_getValue (heap : gmap N AbstractNode) (p : N) : result N :=
  n ← deref heap p;
  match n with
  | DecimalNode v => Ok v
  | _ => Undefined
  end.

(** [reinterpret_cast<StringNode*>(p)->getValue()] *)
Definition StringNode_getValue (heap : gmap N AbstractNode) (p : N) : result string :=
  n ← deref heap p;
  match n with
  | StringNode s => Ok s
  | _ => Undefined
  end.

(** [children[i]] *)
Definition vector_at (children : list N) (i : nat) : result N :=
  match children !! i with
  | Some c => Ok c
  | None => Undefined
  end.

(** ** The translator *)

Module TritonToZ3Ast.

(** The members of the class.  [context] is the Z3 context, of which the
    model keeps the constructor calls made on it, oldest first, each with
    the node whose case of the switch made it. *)
Record t := mk {
  symbolicEngine : SymbolicEngine;
  isEval : bool;
  symbols : gmap string N;
  context : list (N * Z3_ast)
}.

(** [TritonToZ3Ast(symbolicEngine, eval)], on an engine pointer that is
    not null (the constructor throws on a null one). *)
Definition ctor (symbolicEngine : SymbolicEngine) (eval : bool) : t :=
  {| symbolicEngine := symbolicEngine; isEval := eval; symbols := ∅; context := [] |}.

(** One constructor call on the context, made while lowering [node]. *)
Definition Z3_call (node : N) (e : Z3_ast) (this : t) : Z3_ast * t :=
  (e, {| symbolicEngine := symbolicEngine this; isEval := isEval this;
         symbols := symbols this; context := context this ++ [(node, e)] |}).

(** [this->symbols[symbol] = target] *)
Definition set_symbol (symbol : string) (target : N) (this : t) : t :=
  {| symbolicEngine := symbolicEngine this; isEval := isEval this;
     symbols := <[symbol := target]> (symbols this); context := context this |}.

Section unordered_map.

(** [std::unordered_map<AbstractNode*, Z3_ast>], as the list of its
    entries in iteration order.  Where a new entry goes in that order is
    the business of the hash table and not fixed by the language:
    [umap_place] is that choice. *)
Variable umap_place : N → Z3_ast → list (N * Z3_ast) → list (N * Z3_ast).

Fixpoint umap_find (k : N) (m : list (N * Z3_ast)) : option Z3_ast :=
  match m with
  | [] => None
  | (k', v) :: m' => if decide (k' = k) then Some v else umap_find k m'
  end.

(** [m.at(k)] *)
Definition umap_at (m : list (N * Z3_ast)) (k : N) : result Z3_ast :=
  match umap_find k m with
  | Some v => Ok v
  | None => Throw out_of_range
  end.

(** [m.emplace(std::make_pair(k, v))], [m.insert({k, v})]: no effect
    when the key is there. *)
Definition umap_emplace (k : N) (v : Z3_ast) (m : list (N * Z3_ast)) : list (N * Z3_ast) :=
  match umap_find k m with
  | Some _ => m
  | None => umap_place k v m
  end.

(** [m.begin()->second] *)
Definition umap_begin_second (m : list (N * Z3_ast)) : result Z3_ast :=
  match m with
  | [] => Undefined
  | (_, v) :: _ => Ok v
  end.

(** The loop shared by the [LAND_NODE] and [LOR_NODE] cases. *)
Definition fold_bool (mk : Z3_ast → Z3_ast → Z3_ast) (what : string)
    (node : N) (z3expressions : list (N * Z3_ast)) (children : list N) (this : t)
    : result (Z3_ast * t) :=
  c0 ← vector_at children 0;
  currentValue ← umap_at z3expressions c0;
  if negb (isBool currentValue) then Throw (AstTranslations what)
  else
    for_each (λ c '(currentValue, this),
                nextValue ← umap_at z3expressions c;
                if negb (isBool nextValue) then Throw (AstTranslations what)
                else Ok (Z3_call node (mk currentValue nextValue) this))
             (drop 1 children) (currentValue, this).

(** The body of the switch for one node: the expression the case
    computes, which the [emplace] that ends every case then stores. *)
Definition lower_case (rev : revision) (heap : gmap N AbstractNode) (node : N)
    (n : AbstractNode) (z3expressions : list (N * Z3_ast)) (this : t)
    : result (Z3_ast * t) :=
  let children := getChildren n in
  let z3FunctionBinary := getBinaryZ3Function rev (getKind n) in
  let z3FunctionUnary := getUnaryZ3Function (getKind n) in
  let binary :=
    c0 ← vector_at children 0;
    c1 ← vector_at children 1;
    a ← umap_at z3expressions c0;
    b ← umap_at z3expressions c1;
    f ← call_ptr z3FunctionBinary;
    Ok (Z3_call node (Z3_binary f a b) this) in
  let rotate (mk : N → Z3_ast → Z3_ast) :=
    c0 ← vector_at children 0;
    op1 ← DecimalNode_getValue heap c0;
    c1 ← vector_at children 1;
    a ← umap_at z3expressions c1;
    Ok (Z3_call node (mk (uint32 op1) a) this) in
  let extend (mk : N → Z3_ast → Z3_ast) :=
    c0 ← vector_at children 0;
    c1 ← vector_at children 1;
    ext ← umap_at z3expressions c0;
    value ← umap_at z3expressions c1;
    extv ← getUintValue rev ext;
    Ok (Z3_call node (mk (uint32 extv) value) this) in
  let invalid_kind : result (Z3_ast * t) :=
    Throw (AstTranslations "TritonToZ3Ast::convert(): Invalid kind of node.") in
  match getKind n with
  | BVADD_NODE | BVAND_NODE | BVASHR_NODE | BVLSHR_NODE | BVMUL_NODE
  | BVNAND_NODE | BVNOR_NODE | BVOR_NODE | BVSDIV_NODE | BVSGE_NODE
  | BVSGT_NODE | BVSHL_NODE | BVSLE_NODE | BVSLT_NODE | BVSMOD_NODE
  | BVSREM_NODE | BVSUB_NODE | BVUDIV_NODE | BVUGE_NODE | BVULE_NODE
  | BVULT_NODE | BVUREM_NODE | BVXNOR_NODE | BVXOR_NODE | EQUAL_NODE =>
      binary
  | BVUGT_NODE =>
      (* a case of the switch in the new file only *)
      match rev with New => binary | Old => invalid_kind end
  | BVNEG_NODE | BVNOT_NODE =>
      c0 ← vector_at children 0;
      a ← umap_at z3expressions c0;
      f ← call_ptr z3FunctionUnary;
      Ok (Z3_call node (Z3_unary f a) this)
  | BVROL_NODE => rotate Z3_mk_rotate_left
  | BVROR_NODE => rotate Z3_mk_rotate_right
  | BV_NODE =>
      c0 ← vector_at children 0;
      value ← umap_at z3expressions c0;
      c1 ← vector_at children 1;
      size ← umap_at z3expressions c1;
      bvsize ← getUintValue rev size;
      v ← getStringValue value;
      Ok (Z3_call node (Z3_bv_val v (uint32 bvsize)) this)
  | CONCAT_NODE =>
      c0 ← vector_at children 0;
      currentValue ← umap_at z3expressions c0;
      for_each (λ c '(currentValue, this),
                  nextValue ← umap_at z3expressions c;
                  Ok (Z3_call node (Z3_mk_concat currentValue nextValue) this))
               (drop 1 children) (currentValue, this)
  | DECIMAL_NODE =>
      match n with
      | DecimalNode value => Ok (Z3_call node (Z3_int_val value) this)
      | _ => Undefined
      end
  | DISTINCT_NODE =>
      c0 ← vector_at children 0;
      op1 ← umap_at z3expressions c0;
      c1 ← vector_at children 1;
      op2 ← umap_at z3expressions c1;
      Ok (Z3_call node (Z3_mk_distinct op1 op2) this)
  | EXTRACT_NODE =>
      c0 ← vector_at children 0;
      high ← umap_at z3expressions c0;
      c1 ← vector_at children 1;
      low ← umap_at z3expressions c1;
      c2 ← vector_at children 2;
      value ← umap_at z3expressions c2;
      hv ← getUintValue rev high;
      lv ← getUintValue rev low;
      Ok (Z3_call node (Z3_mk_extract (uint32 hv) (uint32 lv) value) this)
  | ITE_NODE =>
      c0 ← vector_at children 0;
      op1 ← umap_at z3expressions c0;
      c1 ← vector_at children 1;
      op2 ← umap_at z3expressions c1;
      c2 ← vector_at children 2;
      op3 ← umap_at z3expressions c2;
      Ok (Z3_call node (Z3_mk_ite op1 op2 op3) this)
  | LAND_NODE =>
      fold_bool Z3_mk_and
        "TritonToZ3Ast::LandNode(): Land can be apply only on bool value."
        node z3expressions children this
  | LET_NODE =>
      c0 ← vector_at children 0;
      symbol ← StringNode_getValue heap c0;
      c1 ← vector_at children 1;
      let this := set_symbol symbol c1 this in
      c2 ← vector_at children 2;
      e ← umap_at z3expressions c2;
      Ok (e, this)
  | LNOT_NODE =>
      c0 ← vector_at children 0;
      value ← umap_at z3expressions c0;
      if negb (isBool value)
      then Throw (AstTranslations
             "TritonToZ3Ast::LnotNode(): Lnot can be apply only on bool value.")
      else Ok (Z3_call node (Z3_mk_not value) this)
  | LOR_NODE =>
      fold_bool Z3_mk_or
        "TritonToZ3Ast::LnotNode(): Lnot can be apply only on bool value."
        node z3expressions children this
  | REFERENCE_NODE =>
      ast ← getAst (symbolicEngine this) n;
      referenced ← umap_at z3expressions ast;
      Ok (referenced, this)
  | STRING_NODE =>
      match n with
      | StringNode value =>
          match symbols this !! value with
          | None => Throw (AstTranslations
                      "TritonToZ3Ast::convert(): [STRING_NODE] Symbols not found.")
          | Some target =>
              e ← umap_at z3expressions target;
              Ok (e, this)
          end
      | _ => Undefined
      end
  | SX_NODE => extend Z3_mk_sign_ext
  | VARIABLE_NODE =>
      match n with
      | VariableNode _ varId eval =>
          match symbolicVariables (symbolicEngine this) !! varId with
          | None => Throw (AstTranslations
              "TritonToZ3Ast::convert(): [VARIABLE_NODE] Can't get the symbolic variable (nullptr).")
          | Some symVar =>
              if isEval this
              then Ok (Z3_call node (Z3_bv_val eval (getSize symVar)) this)
              else Ok (Z3_call node (Z3_bv_const (getName symVar) (getSize symVar)) this)
          end
      | _ => Undefined
      end
  | ZX_NODE => extend Z3_mk_zero_ext
  | UNDEFINED_NODE => invalid_kind
  end.

(** "Processes the current node": the switch, then the store. *)
Definition lower (rev : revision) (heap : gmap N AbstractNode) (node : N)
    (s : list (N * Z3_ast) * t) : result (list (N * Z3_ast) * t) :=
  let '(z3expressions, this) := s in
  n ← deref heap node;
  '(e, this') ← lower_case rev heap node n z3expressions this;
  Ok (umap_emplace node e z3expressions, this').

End unordered_map.

End TritonToZ3Ast.

(** ** tritonToZ3Ast.New.cpp *)

Module New.
Import TritonToZ3Ast.

(** [child_index + 1] on a [uint32_t] *)
Definition uint32_succ (i : N) : N := (i + 1) `mod` 2 ^ 32.

(** The [while (!workstack.empty())] loop of [fillWorkStack]; the head of
    the list is the top of the stack, [result_] is the vector [result];
    [fuel] bounds the iterations. *)
Fixpoint fillWorkStack_loop (fuel : nat) (heap : gmap N AbstractNode)
    (engine : SymbolicEngine) (workstack : list (N * N)) (result_ : list N)
    : result (list N) :=
  match workstack with
  | [] => Ok result_
  | (current_node, child_index) :: rest =>
      match fuel with
      | O => OutOfFuel
      | S fuel' =>
          n ← deref heap current_node;
          let children := getChildren n in
          if decide (child_index < N.of_nat (length children)) then
            child ← vector_at children (N.to_nat child_index);
            fillWorkStack_loop fuel' heap engine
              ((child, 0) :: (current_node, uint32_succ child_index) :: rest) result_
          else if decide (getKind n = REFERENCE_NODE ∧ child_index = 0) then
            ast ← getAst engine n;
            fillWorkStack_loop fuel' heap engine
              ((ast, 0) :: (current_node, uint32_succ child_index) :: rest) result_
          else
            fillWorkStack_loop fuel' heap engine rest (result_ ++ [current_node])
      end
  end.

(** [fillWorkStack(node, result)], called on an empty [result] *)
Definition fillWorkStack (fuel : nat) (heap : gmap N AbstractNode)
    (engine : SymbolicEngine) (node : N) : result (list N) :=
  fillWorkStack_loop fuel heap engine [(node, 0)] [].

Section convert.
Variable umap_place : N → Z3_ast → list (N * Z3_ast) → list (N * Z3_ast).

(** The [for (node : visitVector)] loop of [convert]. *)
Definition lower_all (heap : gmap N AbstractNode) (visitVector : list N)
    (s : list (N * Z3_ast) * t) : result (list (N * Z3_ast) * t) :=
  for_each (lower umap_place New heap) visitVector s.

(** [TritonToZ3Ast::convert(node)]: the expression returned and the
    translator as the call leaves it. *)
Definition convert (fuel : nat) (heap : gmap N AbstractNode) (this : t) (node : N)
    : result (Z3_ast * t) :=
  if decide (node = nullptr)
  then Throw (AstTranslations
         "TritonToZ3Ast::convert_iterative(): node cannot be null.")
  else
    visitVector ← fillWorkStack fuel heap (symbolicEngine this) node;
    '(z3expressions, this') ← lower_all heap visitVector ([], this);
    e ← umap_begin_second z3expressions;
    Ok (e, this').

(** The memo as [convert] has it when it reaches its [return]. *)
Definition convert_memo (fuel : nat) (heap : gmap N AbstractNode) (this : t) (node : N)
    : result (list (N * Z3_ast)) :=
  if decide (node = nullptr)
  then Throw (AstTranslations
         "TritonToZ3Ast::convert_iterative(): node cannot be null.")
  else
    visitVector ← fillWorkStack fuel heap (symbolicEngine this) node;
    '(z3expressions, _) ← lower_all heap visitVector ([], this);
    Ok z3expressions.
End convert.

End New.

(** ** tritonToZ3Ast.cpp *)

Module Old.
Import TritonToZ3Ast.

(** [NodeHasRightChild(node, child)] *)
Definition NodeHasRightChild (heap : gmap N AbstractNode) (node child : N) : result bool :=
  n ← deref heap node;
  Ok (bool_decide (child ∈ drop 1 (getChildren n))).

(** The inner [while (node)] loop: the head of the list is the top of the
    stack. *)
Fixpoint descend (fuel : nat) (heap : gmap N AbstractNode) (engine : SymbolicEngine)
    (node : N) (workStack : list N) : result (list N) :=
  if decide (node = nullptr) then Ok workStack
  else match fuel with
       | O => OutOfFuel
       | S fuel' =>
           n ← deref heap node;
           let children := getChildren n in
           let workStack := node :: rev (drop 1 children) ++ workStack in
           next ← match children with
                  | c0 :: _ => Ok c0
                  | [] => if decide (getKind n = REFERENCE_NODE)
                          then getAst engine n
                          else Ok nullptr
                  end;
           descend fuel' heap engine next workStack
       end.

Section convert.
Variable umap_place : N → Z3_ast → list (N * Z3_ast) → list (N * Z3_ast).

(** The [do { ... } while (!workStack.empty())] loop; what it returns is
    the memo and the translator at the exit of the loop. *)
Fixpoint convert_loop (fuel : nat) (heap : gmap N AbstractNode)
    (node : N) (workStack : list N) (s : list (N * Z3_ast) * t)
    : result (list (N * Z3_ast) * t) :=
  match fuel with
  | O => OutOfFuel
  | S fuel' =>
      workStack ← descend fuel' heap (symbolicEngine s.2) node workStack;
      match workStack with
      | [] => Undefined
      | node :: workStack =>
          swap ← match workStack with
                 | [] => Ok false
                 | top :: _ => NodeHasRightChild heap node top
                 end;
          if swap : bool then
            match workStack with
            | [] => Undefined
            | temp :: workStack =>
                convert_loop fuel' heap temp (node :: workStack) s
            end
          else
            s' ← lower umap_place Old heap node s;
            match workStack with
            | [] => Ok s'
            | _ :: _ => convert_loop fuel' heap nullptr workStack s'
            end
      end
  end.

(** [TritonToZ3Ast::convert(node)] *)
Definition convert (fuel : nat) (heap : gmap N AbstractNode) (this : t) (node : N)
    : result (Z3_ast * t) :=
  if decide (node = nullptr)
  then Throw (AstTranslations
         "TritonToZ3Ast::convert_iterative(): node cannot be null.")
  else
    '(z3expressions, this') ← convert_loop fuel heap node [] ([], this);
    e ← umap_begin_second z3expressions;
    Ok (e, this').

Definition convert_memo (fuel : nat) (heap : gmap N AbstractNode) (this : t) (node : N)
    : result (list (N * Z3_ast)) :=
  if decide (node = nullptr)
  then Throw (AstTranslations
         "TritonToZ3Ast::convert_iterative(): node cannot be null.")
  else
    '(z3expressions, _) ← convert_loop fuel heap node [] ([], this);
    Ok z3expressions.
End convert.

End Old.

(** ** Two hash tables *)

(** A chained table as libstdc++ lays it out: one singly linked list of all
    entries, the entries of a bucket contiguous; a new entry goes to the
    front of its bucket, or to the front of the whole list when its bucket
    is empty.  [std::hash] of a pointer is its address.  The number of
    buckets is fixed: this is the library's table for as long as it does
    not rehash, with 13 buckets up to 13 entries. *)
Fixpoint chain_insert (buckets : N) (k : N) (v : Z3_ast) (m : list (N * Z3_ast))
    : list (N * Z3_ast) :=
  match m with
  | [] => [(k, v)]
  | (k', v') :: m' =>
      if decide (k' `mod` buckets = k `mod` buckets) then (k, v) :: m
      else (k', v') :: chain_insert buckets k v m'
  end.

Definition chained (buckets : N) (k : N) (v : Z3_ast) (m : list (N * Z3_ast))
    : list (N * Z3_ast) :=
  if bool_decide (Exists (λ e, e.1 `mod` buckets = k `mod` buckets) m)
  then chain_insert buckets k v m
  else (k, v) :: m.

(** A table that iterates in the order of insertion. *)
Definition appended (k : N) (v : Z3_ast) (m : list (N * Z3_ast)) : list (N * Z3_ast) :=
  m ++ [(k, v)].

(** ** Vocabulary of the statements *)

(** [p] is reached from [root] along [getChildren], through live non-null
    nodes only; the expression a [ReferenceNode] names is no child of it. *)
Inductive reachable (heap : gmap N AbstractNode) : N → N → Prop :=
  | reachable_root root :
      root ≠ nullptr → reachable heap root root
  | reachable_child root n child p :
      root ≠ nullptr → heap !! root = Some n → child ∈ getChildren n →
      reachable heap child p → reachable heap root p.

(** The free store holds a DAG: every child is null or live, and [rank]
    decreases from a node to its children. *)
Definition acyclic (heap : gmap N AbstractNode) (rank : N → nat) : Prop :=
  map_Forall (λ p n,
      Forall (λ c, c = nullptr ∨ (is_Some (heap !! c) ∧ (rank c < rank p)%nat))
             (getChildren n)) heap.

(** A node whose kind says [VARIABLE_NODE] is a [VariableNode] object. *)
Definition well_tagged (n : AbstractNode) : Prop :=
  getKind n = VARIABLE_NODE → ∃ name id eval, n = VariableNode name id eval.

(** What any hash table guarantees of an [emplace] of a new key: the new
    key is found, the others are found as before. *)
Definition lawful (umap_place : N → Z3_ast → list (N * Z3_ast) → list (N * Z3_ast))
    : Prop :=
  ∀ k v m k', TritonToZ3Ast.umap_find k m = None →
    TritonToZ3Ast.umap_find k' (umap_place k v m)
      = if decide (k' = k) then Some v else TritonToZ3Ast.umap_find k' m.

(** The number of solver constructor calls the case of a node makes when it
    runs to its end. *)
Definition solver_calls (n : AbstractNode) : nat :=
  match getKind n with
  | LET_NODE | STRING_NODE | REFERENCE_NODE | UNDEFINED_NODE => 0
  | CONCAT_NODE | LAND_NODE | LOR_NODE => length (getChildren n) - 1
  | _ => 1
  end.

Definition appearances (node : N) (l : list N) : nat :=
  length (filter (λ x, x = node) l).

(** The solver calls made so far for [node]. *)
Definition lowerings (node : N) (this : TritonToZ3Ast.t) : nat :=
  appearances node (map fst (TritonToZ3Ast.context this)).

Definition symbols_not_found : exception :=
  AstTranslations "TritonToZ3Ast::convert(): [STRING_NODE] Symbols not found.".

(** *** Inputs used below *)

Definition engine_empty : SymbolicEngine :=
  {| symbolicExpressions := ∅; symbolicVariables := ∅ |}.

(** BVNEG(BV(DECIMAL 3, DECIMAL 8)); the root is at 224. *)
Definition heap_neg : gmap N AbstractNode :=
  {[ 16 := DecimalNode 3; 32 := DecimalNode 8;
     48 := OperatorNode BV_NODE [16; 32];
     224 := OperatorNode BVNEG_NODE [48] ]}.

(** Expression 1 of the engine is BV(DECIMAL 3, DECIMAL 8), at 48. *)
Definition engine_refs : SymbolicEngine :=
  {| symbolicExpressions := {[ 1 := 48 ]}; symbolicVariables := ∅ |}.

(** BVADD(REFERENCE(1), REFERENCE(1)), two reference nodes; the root is at 96. *)
Definition heap_refs : gmap N AbstractNode :=
  {[ 16 := DecimalNode 3; 32 := DecimalNode 8;
     48 := OperatorNode BV_NODE [16; 32];
     64 := ReferenceNode 1; 80 := ReferenceNode 1;
     96 := OperatorNode BVADD_NODE [64; 80] ]}.

(** LET("x", BV(DECIMAL 3, DECIMAL 8), STRING("x")); the root is at 96. *)
Definition heap_let : gmap N AbstractNode :=
  {[ 16 := DecimalNode 3; 32 := DecimalNode 8;
     48 := OperatorNode BV_NODE [16; 32];
     64 := StringNode "x"; 80 := StringNode "x";
     96 := OperatorNode LET_NODE [64; 48; 80] ]}.

(** A variable node "x" at 16 with the two decimals of [heap_neg]. *)
Definition heap_var : gmap N AbstractNode :=
  {[ 16 := VariableNode "x" 0 42; 32 := DecimalNode 8; 48 := DecimalNode 3 ]}.

(** *** A right-linear chain of BVADD nodes *)

(** The leaf, a variable, is at address 1; link [k] of the chain is at
    [k + 1] and is BVADD(leaf, link [k - 1]), link 0 being the leaf. *)
Definition chain_addr (k : nat) : N := N.of_nat k + 1.

Definition chain_leaf : AbstractNode := VariableNode "x" 0 42.

Fixpoint chain_heap (n : nat) : gmap N AbstractNode :=
  match n with
  | O => {[ 1 := chain_leaf ]}
  | S k => <[chain_addr (S k) := OperatorNode BVADD_NODE [1; chain_addr k]]> (chain_heap k)
  end.

Definition chain_engine : SymbolicEngine :=
  {| symbolicExpressions := ∅;
     symbolicVariables := {[ 0 := {| getName := "x"; getSize := 8 |} ]} |}.

(** The post-order of link [k]. *)
Fixpoint chain_visit (k : nat) : list N :=
  match k with
  | O => [1]
  | S j => 1 :: chain_visit j ++ [chain_addr (S j)]
  end.

Definition chain_leaf_expr (eval : bool) : Z3_ast :=
  if eval then Z3_bv_val 42 8 else Z3_bv_const "x" 8.

Fixpoint chain_expr (eval : bool) (k : nat) : Z3_ast :=
  match k with
  | O => chain_leaf_expr eval
  | S j => Z3_binary Z3_mk_bvadd (chain_leaf_expr eval) (chain_expr eval j)
  end.

(** The memo agrees with the chain wherever it has an entry. *)
Definition chain_memo (eval : bool) (m : list (N * Z3_ast)) : Prop :=
  ∀ j v, TritonToZ3Ast.umap_find (chain_addr j) m = Some v → v = chain_expr eval j.

(** *** Vocabulary of the further properties *)

(** Two variable nodes named "x": 16 is registered, 48 is not. *)
Definition heap_twins : gmap N AbstractNode :=
  {[ 16 := VariableNode "x" 0 42; 48 := VariableNode "x" 1 7 ]}.

(** What the traversal visits before a node: its children, or, for a
    reference, the expression it names. *)
Definition dependencies (engine : SymbolicEngine) (n : AbstractNode) : list N :=
  match n with
  | ReferenceNode expr =>
      match symbolicExpressions engine !! expr with
      | Some ast => [ast]
      | None => []
      end
  | _ => getChildren n
  end.

(** No vector of children has 2^32 elements or more. *)
Definition small_arity (heap : gmap N AbstractNode) : Prop :=
  map_Forall (λ _ n, N.of_nat (length (getChildren n)) < 2 ^ 32) heap.

(** Every element of [l] comes after its dependencies. *)
Definition postordered (heap : gmap N AbstractNode) (engine : SymbolicEngine)
    (l : list N) : Prop :=
  ∀ l1 p l2 n, l = (l1 ++ p :: l2)%list → heap !! p = Some n →
    ∀ c, c ∈ dependencies engine n → c ∈ l1.

(** The frames under the top of the work stack wait for the node above
    them, their earlier dependencies being visited. *)
Fixpoint waiting (heap : gmap N AbstractNode) (engine : SymbolicEngine)
    (visited : list N) (above : N) (workstack : list (N * N)) : Prop :=
  match workstack with
  | [] => True
  | (p, i) :: rest =>
      (∀ n, heap !! p = Some n →
         dependencies engine n !! (N.to_nat i - 1)%nat = Some above
         ∧ (1 ≤ N.to_nat i)%nat
         ∧ ∀ j c, (j < N.to_nat i - 1)%nat → dependencies engine n !! j = Some c →
                  c ∈ visited)
      ∧ waiting heap engine visited p rest
  end.

(** The top frame: the dependencies before its index are visited. *)
Definition stack_ok (heap : gmap N AbstractNode) (engine : SymbolicEngine)
    (visited : list N) (workstack : list (N * N)) : Prop :=
  match workstack with
  | [] => True
  | (p, i) :: rest =>
      (∀ n, heap !! p = Some n →
         ∀ j c, (j < N.to_nat i)%nat → dependencies engine n !! j = Some c →
                c ∈ visited)
      ∧ waiting heap engine visited p rest
  end.

(** [p] is reached from [root] through children and through the
    expressions of references. *)
Inductive reached (heap : gmap N AbstractNode) (engine : SymbolicEngine)
    (root : N) : N → Prop :=
  | reached_root : reached heap engine root root
  | reached_step p n c :
      reached heap engine root p → heap !! p = Some n →
      c ∈ dependencies engine n → reached heap engine root c.

(** The recursive post-order walk the loop of [fillWorkStack] stands for:
    the children from left to right, then the expression of a reference
    that has no children, then the node; [depth] bounds the recursion. *)
Fixpoint postorder_rec (depth : nat) (heap : gmap N AbstractNode)
    (engine : SymbolicEngine) (node : N) : result (list N) :=
  match depth with
  | O => OutOfFuel
  | S depth' =>
      n ← deref heap node;
      below ← for_each (λ c acc, l ← postorder_rec depth' heap engine c; Ok (acc ++ l))
                 (getChildren n) [];
      referenced ←
        (if decide (getKind n = REFERENCE_NODE ∧ getChildren n = [])
         then ast ← getAst engine n; postorder_rec depth' heap engine ast
         else Ok []);
      Ok (below ++ referenced ++ [node])
  end.

(** [steps] rounds of the loop turn the top frame into [frames_out] and
    append [visited] to the vector, whatever lies under the frame. *)
Definition runs_as (heap : gmap N AbstractNode) (engine : SymbolicEngine)
    (frame_in : N * N) (steps : nat) (visited : list N) (frames_out : list (N * N))
    : Prop :=
  ∀ fuel rest result_,
    New.fillWorkStack_loop (steps + fuel) heap engine (frame_in :: rest) result_
      = New.fillWorkStack_loop fuel heap engine (frames_out ++ rest) (result_ ++ visited).

(** Each entry of the memo is built from the entries of the children. *)
Definition compositional (heap : gmap N AbstractNode) (engine : SymbolicEngine)
    (m : list (N * Z3_ast)) : Prop :=
  ∀ p n v, heap !! p = Some n → TritonToZ3Ast.umap_find p m = Some v →
    (∀ f, getBinaryZ3Function New (getKind n) = Some f →
       ∃ c0 c1 a b,
         getChildren n !! 0%nat = Some c0 ∧ getChildren n !! 1%nat = Some c1
         ∧ TritonToZ3Ast.umap_find c0 m = Some a ∧ TritonToZ3Ast.umap_find c1 m = Some b
         ∧ v = Z3_binary f a b)
    ∧ (∀ f, getUnaryZ3Function (getKind n) = Some f →
       ∃ c0 a, getChildren n !! 0%nat = Some c0 ∧ TritonToZ3Ast.umap_find c0 m = Some a
               ∧ v = Z3_unary f a)
    ∧ (∀ expr, n = ReferenceNode expr →
       ∃ ast, symbolicExpressions engine !! expr = Some ast
              ∧ TritonToZ3Ast.umap_find ast m = Some v).

(** The messages of the type checks of LAND and LOR. *)
Definition land_message : string :=
  "TritonToZ3Ast::LandNode(): Land can be apply only on bool value.".
Definition lor_message : string :=
  "TritonToZ3Ast::LnotNode(): Lnot can be apply only on bool value.".

(** A DAG the traversal can walk: dependencies are live, of smaller rank,
    and a reference without children names an expression of the engine. *)
Definition traversable (heap : gmap N AbstractNode) (engine : SymbolicEngine)
    (rank : N → nat) : Prop :=
  map_Forall (λ p n,
      (getKind n = REFERENCE_NODE → getChildren n = [] →
         ∃ ast, getAst engine n = Ok ast)
      ∧ Forall (λ c, c ≠ nullptr ∧ is_Some (heap !! c) ∧ (rank c < rank p)%nat)
               (dependencies engine n)) heap.

(** A DAG of handles: what the traversal visits before a node is not null
    and of smaller rank. *)
Definition dag (heap : gmap N AbstractNode) (engine : SymbolicEngine)
    (rank : N → nat) : Prop :=
  map_Forall (λ p n,
      Forall (λ c, c ≠ nullptr ∧ (rank c < rank p)%nat) (dependencies engine n))
    heap.

(** The work stack of the old file as frames, the top first: a node over
    those of its right children that are still to do. *)
Definition frames_stack (frames : list (N * list N)) : list N :=
  concat (map (λ f, f.1 :: f.2) frames).

(** Every frame is a node reached from the root; each of its dependencies
    is still to do in the frame, or is what is being done above the frame,
    or has its entry in the memo. *)
Fixpoint frames_ok (heap : gmap N AbstractNode) (engine : SymbolicEngine)
    (root : N) (memo : list (N * Z3_ast)) (above : option N)
    (frames : list (N * list N)) : Prop :=
  match frames with
  | [] => True
  | (y, todo) :: rest =>
      (reached heap engine root y
       ∧ ∃ n, heap !! y = Some n
              ∧ (∀ a, above = Some a → a ∈ dependencies engine n)
              ∧ Forall (λ q, q ∈ drop 1 (getChildren n)) todo
              ∧ ∀ c, c ∈ dependencies engine n →
                     c ∈ todo ∨ above = Some c
                     ∨ is_Some (TritonToZ3Ast.umap_find c memo))
      ∧ frames_ok heap engine root memo (Some y) rest
  end.

(** The memo is closed under dependencies. *)
Definition closed (heap : gmap N AbstractNode) (engine : SymbolicEngine)
    (memo : list (N * Z3_ast)) : Prop :=
  ∀ p n c, is_Some (TritonToZ3Ast.umap_find p memo) → heap !! p = Some n →
           c ∈ dependencies engine n → is_Some (TritonToZ3Ast.umap_find c memo).

(** Every entry of the memo is what the case of its node computes from the
    memo itself. *)
Definition justified (rev : revision) (heap : gmap N AbstractNode)
    (this : TritonToZ3Ast.t) (m : list (N * Z3_ast)) : Prop :=
  ∀ x v n, TritonToZ3Ast.umap_find x m = Some v → heap !! x = Some n →
    ∃ this', TritonToZ3Ast.lower_case rev heap x n m this = Ok (v, this').

(** The loop of the old [convert] with the switch left out: the nodes that
    reach "Processes the current node", in that order.  The traversal
    reads the stack, the children and the engine, never the memo. *)
Fixpoint Old_visit_loop (fuel : nat) (heap : gmap N AbstractNode)
    (engine : SymbolicEngine) (node : N) (workStack : list N) : result (list N) :=
  match fuel with
  | O => OutOfFuel
  | S fuel' =>
      workStack ← Old.descend fuel' heap engine node workStack;
      match workStack with
      | [] => Undefined
      | node :: workStack =>
          swap ← match workStack with
                 | [] => Ok false
                 | top :: _ => Old.NodeHasRightChild heap node top
                 end;
          if swap : bool then
            match workStack with
            | [] => Undefined
            | temp :: workStack =>
                Old_visit_loop fuel' heap engine temp (node :: workStack)
            end
          else
            match workStack with
            | [] => Ok [node]
            | _ :: _ =>
                rest ← Old_visit_loop fuel' heap engine nullptr workStack;
                Ok (node :: rest)
            end
      end
  end.

(** BVUGT(BV(DECIMAL 3, DECIMAL 8), BV(DECIMAL 3, DECIMAL 8)): the BV at
    48 with its operands at 16 and 32, the comparison at 64. *)
Definition heap_ugt : gmap N AbstractNode :=
  {[ 16 := DecimalNode 3; 32 := DecimalNode 8;
     48 := OperatorNode BV_NODE [16; 32];
     64 := OperatorNode BVUGT_NODE [48; 48] ]}.

(** * Properties *)

(** ** Outcomes, loops, pointers *)

Lemma bind_Ok {A B} (m : result A) (f : A → result B) b :
  m ≫= f = Ok b ↔ ∃ a, m = Ok a ∧ f a = Ok b.
Proof.
  split.
  - destruct m as [a| | |]; simpl; try discriminate. eauto.
  - intros (a & -> & Hf). exact Hf.
Qed.

Lemma for_each_app {A S} (body : A → S → result S) l1 l2 s :
  for_each body (l1 ++ l2) s = for_each body l1 s ≫= for_each body l2.
Proof.
  revert s. induction l1 as [|x l1 IH]; intros s; simpl; [done|].
  destruct (body x s); simpl; [apply IH|done..].
Qed.

Lemma elem_of_set_iter (s : gset N) p : p ∈ set_iter s ↔ p ∈ s.
Proof. unfold set_iter. rewrite merge_sort_Permutation. apply elem_of_elements. Qed.

Lemma NoDup_set_iter (s : gset N) : NoDup (set_iter s).
Proof. unfold set_iter. rewrite merge_sort_Permutation. apply NoDup_elements. Qed.

Lemma Sorted_set_iter (s : gset N) : Sorted N.le (set_iter s).
Proof. unfold set_iter. apply (Sorted_merge_sort N.le). Qed.

Lemma deref_Ok heap p n : deref heap p = Ok n ↔ p ≠ nullptr ∧ heap !! p = Some n.
Proof.
  unfold deref. case_decide.
  - split; [done|]. by intros [? _].
  - destruct (heap !! p); split; try done.
    + intros [= ->]. done.
    + intros [_ [= ->]]. done.
    + intros [_ ?]. done.
Qed.

Lemma deref_live heap p n : p ≠ nullptr → heap !! p = Some n → deref heap p = Ok n.
Proof. intros. by apply deref_Ok. Qed.

Lemma cpp_delete_Ok p heap heap' :
  cpp_delete p heap = Ok heap' →
  heap' = (if decide (p = nullptr) then heap else delete p heap).
Proof.
  unfold cpp_delete. case_decide; [congruence|].
  destruct (heap !! p); congruence.
Qed.

Lemma cpp_delete_live p heap :
  p = nullptr ∨ is_Some (heap !! p) →
  cpp_delete p heap = Ok (if decide (p = nullptr) then heap else delete p heap).
Proof.
  unfold cpp_delete. intros H. case_decide; [done|].
  destruct H as [?|[n Hn]]; [done|]. by rewrite Hn.
Qed.

(** The free store after a loop that deletes the elements of [l] it does
    not keep. *)
Lemma delete_loop (keep : N → Prop) `{!∀ p, Decision (keep p)} l heap :
  NoDup l →
  (∀ p, p ∈ l → ¬ keep p → p = nullptr ∨ is_Some (heap !! p)) →
  ∃ heap',
    for_each (λ it heap, if decide (keep it) then Ok heap else cpp_delete it heap) l heap
      = Ok heap'
    ∧ (∀ p, p ∈ l → ¬ keep p → p ≠ nullptr → heap' !! p = None)
    ∧ (∀ p, p ∉ l ∨ keep p ∨ p = nullptr → heap' !! p = heap !! p).
Proof.
  revert heap. induction l as [|x l IH]; intros heap Hnd Hlive; simpl.
  - exists heap. split_and!; [done| |done].
    intros p Hp. by apply elem_of_nil in Hp.
  - apply NoDup_cons in Hnd as [Hx Hnd].
    destruct (decide (keep x)) as [Hk|Hk]; simpl.
    + destruct (IH heap Hnd) as (heap' & Hrun & Hdel & Hkeep).
      { intros p Hp. apply Hlive. by right. }
      exists heap'. split_and!; [done| |].
      * intros p Hp Hkp Hnull. apply elem_of_cons in Hp as [->|Hp]; [done|].
        by apply Hdel.
      * intros p Hp. apply Hkeep. rewrite not_elem_of_cons in Hp.
        destruct Hp as [[_ ?]|[?|?]]; [by left|by right; left|by right; right].
    + rewrite cpp_delete_live by (apply Hlive; [left|done]). simpl.
      set (heap1 := if decide (x = nullptr) then heap else delete x heap).
      assert (∀ p, p ≠ x → heap1 !! p = heap !! p) as Hother.
      { intros p Hne. unfold heap1. case_decide; [done|]. by rewrite lookup_delete_ne. }
      destruct (IH heap1 Hnd) as (heap' & Hrun & Hdel & Hkeep).
      { intros p Hp Hkp. rewrite Hother by (intros ->; done).
        apply Hlive; [by right|done]. }
      exists heap'. split_and!; [done| |].
      * intros p Hp Hkp Hnull. apply elem_of_cons in Hp as [->|Hp]; [|by apply Hdel].
        rewrite Hkeep by (by left). unfold heap1. rewrite decide_False by done.
        apply lookup_delete_eq.
      * intros p Hp. rewrite not_elem_of_cons in Hp.
        destruct (decide (p = x)) as [->|Hne].
        -- rewrite Hkeep by (by left). unfold heap1.
           destruct Hp as [[? _]|[?| ->]]; [done|done|]. by rewrite decide_True.
        -- rewrite <- Hother by done. apply Hkeep.
           destruct Hp as [[_ ?]|[?|?]]; [by left|by right; left|by right; right].
Qed.

(** ** The garbage collector *)

Section collector.
Import AstGarbageCollector.

(** C5. Two calls of [recordVariableAstNode] with the same name, one after
  the other on the same collector: the second one throws the exception of
  a duplicate registration and leaves the collector (variable map and set
  of allocated nodes) as the first call left it; the name is registered,
  and it is registered to the first node when the first call succeeded. *)
Theorem recordVariableAstNode_duplicate name n1 n2 this :
recordVariableAstNode name n2 (recordVariableAstNode name n1 this).1
  = ((recordVariableAstNode name n1 this).1,
     Throw (Ast "Can't register this variable as it already exists"))
∧ allocatedNodes (recordVariableAstNode name n1 this).1 = allocatedNodes this
∧ is_Some (variableNodes (recordVariableAstNode name n1 this).1 !! name)
∧ ((recordVariableAstNode name n1 this).2 = Ok () →
   variableNodes (recordVariableAstNode name n1 this).1 !! name = Some n1).
Proof.
destruct this as [alloc vars flag].
unfold recordVariableAstNode, map_emplace; simpl.
destruct (vars !! name) as [n0|] eqn:Hn; simpl.
- rewrite Hn; simpl. split_and!; [done | done | eauto | done].
- rewrite lookup_insert_eq; simpl. split_and!; [done | done | eauto | done].
Qed.

Lemma recordVariableAstNode_duplicate_witness :
recordVariableAstNode "x" 32
    (recordVariableAstNode "x" 16 (ctor false)).1
  = ((recordVariableAstNode "x" 16 (ctor false)).1,
     Throw (Ast "Can't register this variable as it already exists"))
∧ variableNodes (recordVariableAstNode "x" 16 (ctor false)).1 !! "x" = Some 16.
Proof.
destruct (recordVariableAstNode_duplicate "x" 16 32 (ctor false))
  as (Hsecond & _ & _ & Hfirst).
split; [exact Hsecond|]. apply Hfirst. reflexivity.
Defined.

(** C7. After [copy(other)], which is what [operator=] and the copy
  constructor run: every node this collector tracked and [other] does not
  is deleted, the set of allocated nodes and the variable map are those
  of [other], and the backup flag is true whatever it was.  (The nodes
  to delete have to be live, or null.) *)
Theorem copy_restores this other heap :
(∀ p, p ∈ allocatedNodes this → p ∉ allocatedNodes other →
      p = nullptr ∨ is_Some (heap !! p)) →
∃ this' heap',
  copy this other heap = Ok (this', heap')
  ∧ assign this other heap = Ok (this', heap')
  ∧ allocatedNodes this' = allocatedNodes other
  ∧ variableNodes this' = variableNodes other
  ∧ backupFlag this' = true
  ∧ (∀ p, p ∈ allocatedNodes this → p ∉ allocatedNodes other → p ≠ nullptr →
          heap' !! p = None)
  ∧ (∀ p, p ∉ allocatedNodes this ∨ p ∈ allocatedNodes other →
          heap' !! p = heap !! p).
Proof.
intros Hlive. unfold assign, copy.
destruct (delete_loop (λ p, p ∈ allocatedNodes other)
            (set_iter (allocatedNodes this)) heap) as (heap' & Hrun & Hdel & Hkeep).
{ apply NoDup_set_iter. }
{ intros p Hp. apply Hlive. by apply elem_of_set_iter. }
rewrite Hrun. simpl. eexists _, heap'. split; [reflexivity|]. simpl.
split_and!; try done.
- intros p Hp Hnp Hnull. apply Hdel; [by apply elem_of_set_iter|done|done].
- intros p Hp. apply Hkeep. rewrite elem_of_set_iter.
  destruct Hp; [by left|by right; left].
Qed.

Lemma copy_restores_witness :
∃ this' heap',
  copy {| allocatedNodes := {[16; 32]}; variableNodes := ∅; backupFlag := false |}
       {| allocatedNodes := {[16]}; variableNodes := {[ "x" := 16 ]};
          backupFlag := false |}
       heap_var = Ok (this', heap')
  ∧ backupFlag this' = true
  ∧ heap' !! 32 = None
  ∧ heap' !! 16 = Some (VariableNode "x" 0 42).
Proof.
destruct (copy_restores
            {| allocatedNodes := {[16; 32]}; variableNodes := ∅; backupFlag := false |}
            {| allocatedNodes := {[16]}; variableNodes := {[ "x" := 16 ]};
               backupFlag := false |}
            heap_var)
  as (this' & heap' & Hcopy & _ & _ & _ & Hflag & Hgone & Hkept).
{ simpl. intros p Hp _. right.
  apply elem_of_union in Hp as [Hp|Hp]; apply elem_of_singleton in Hp; subst p;
    vm_compute; eauto. }
exists this', heap'. split_and!; [exact Hcopy|exact Hflag| |].
- apply Hgone; simpl.
  + apply elem_of_union_r, elem_of_singleton. reflexivity.
  + intros Hin. apply elem_of_singleton in Hin. discriminate Hin.
  + discriminate.
- rewrite Hkept; [reflexivity|]. right. simpl. apply elem_of_singleton. reflexivity.
Defined.

(** C8. The destructor of a collector whose backup flag is true deletes
  nothing: the free store is as before, every node stays alive. *)
Theorem backup_dtor_keeps_heap this heap :
backupFlag this = true → dtor this heap = Ok heap.
Proof. intros H. unfold dtor. rewrite H. reflexivity. Qed.

Lemma backup_dtor_keeps_heap_witness :
dtor {| allocatedNodes := {[16; 32]}; variableNodes := ∅; backupFlag := true |}
     heap_var = Ok heap_var.
Proof. apply backup_dtor_keeps_heap. reflexivity. Defined.

(** The other branch: an owner runs [freeAllAstNodes]. *)
Lemma owner_dtor_frees this heap :
backupFlag this = false →
dtor this heap = freeAllAstNodes this heap ≫= λ r, Ok r.2.
Proof.
intros H. unfold dtor. rewrite H. simpl.
destruct (freeAllAstNodes this heap) as [[? ?]| | |]; reflexivity.
Qed.

(** What [copy] builds is a backup: destroying it deletes nothing. *)
Lemma copy_dtor_keeps_heap this other heap this' heap' :
copy this other heap = Ok (this', heap') → dtor this' heap' = Ok heap'.
Proof.
unfold copy. intros H. apply bind_Ok in H as (h & _ & H).
injection H as <- <-. reflexivity.
Qed.

(** [freeAllAstNodes]: every tracked node is deleted, both containers are
  empty afterwards. *)
Lemma freeAllAstNodes_spec this heap :
(∀ p, p ∈ allocatedNodes this → p = nullptr ∨ is_Some (heap !! p)) →
∃ this' heap',
  freeAllAstNodes this heap = Ok (this', heap')
  ∧ allocatedNodes this' = ∅ ∧ variableNodes this' = ∅
  ∧ (∀ p, p ∈ allocatedNodes this → p ≠ nullptr → heap' !! p = None).
Proof.
intros Hlive. unfold freeAllAstNodes.
destruct (delete_loop (λ _, False) (set_iter (allocatedNodes this)) heap)
  as (heap' & Hrun & Hdel & _).
{ apply NoDup_set_iter. }
{ intros p Hp _. apply Hlive. by apply elem_of_set_iter. }
assert (for_each cpp_delete (set_iter (allocatedNodes this)) heap = Ok heap')
  as -> by exact Hrun.
simpl. eexists _, heap'. split; [reflexivity|].
simpl. split_and!; try done.
intros p Hp Hnull. apply Hdel; [by apply elem_of_set_iter|tauto|done].
Qed.

Lemma freeAstNodes_loop l this heap this' heap' :
for_each freeAstNodes_body l (this, heap) = Ok (this', heap') →
allocatedNodes this' = allocatedNodes this ∖ list_to_set l
∧ (∀ p, p ∈ l → heap' !! p = None)
∧ (∀ p, heap !! p = None → heap' !! p = None)
∧ (∀ p, p ∉ l → heap' !! p = heap !! p).
Proof.
revert this heap. induction l as [|x l IH]; intros this heap; simpl.
- intros [= <- <-]. split_and!; try done.
  + apply set_eq. intros p.
    rewrite elem_of_difference. split; [|tauto].
    intros ?. split; [done|]. apply not_elem_of_empty.
  + intros p Hp. by apply elem_of_nil in Hp.
- intros Hrun. apply bind_Ok in Hrun as ([this1 heap1] & Hbody & Hrun).
  unfold freeAstNodes_body in Hbody.
  apply bind_Ok in Hbody as (n & Hn & Hbody).
  apply bind_Ok in Hbody as (vars & _ & Hbody).
  apply bind_Ok in Hbody as (heap2 & Hdel & Hbody).
  injection Hbody as <- <-.
  apply deref_Ok in Hn as [Hnull Hn].
  apply cpp_delete_Ok in Hdel. rewrite decide_False in Hdel by done. subst heap2.
  apply IH in Hrun as (Halloc & Hgone & Hmono & Hrest). simpl in Halloc.
  split_and!.
  + rewrite Halloc. apply set_eq. intros p.
    rewrite !elem_of_difference, elem_of_union, elem_of_singleton. tauto.
  + intros p Hp. apply elem_of_cons in Hp as [->|Hp]; [|by apply Hgone].
    apply Hmono, lookup_delete_eq.
  + intros p Hp. apply Hmono. rewrite lookup_delete_None. by right.
  + intros p Hp. apply not_elem_of_cons in Hp as [Hne Hp].
    rewrite Hrest by done. by apply lookup_delete_ne.
Qed.

(** C10. [freeAstNodes] changes the set it is given: when the call returns
  the set is empty.  The handles that were in it are no longer in the set
  of allocated nodes, and they are deleted; nothing else is deleted. *)
Theorem freeAstNodes_clears_argument nodes this heap nodes' this' heap' :
freeAstNodes nodes this heap = Ok (nodes', this', heap') →
nodes' = ∅
∧ allocatedNodes this' = allocatedNodes this ∖ nodes
∧ (∀ p, p ∈ nodes → heap' !! p = None)
∧ (∀ p, p ∉ nodes → heap' !! p = heap !! p).
Proof.
unfold freeAstNodes. intros Hrun.
apply bind_Ok in Hrun as ([this1 heap1] & Hloop & Hret).
injection Hret as <- <- <-.
apply freeAstNodes_loop in Hloop as (Halloc & Hgone & _ & Hrest).
split_and!; [done| | |].
- rewrite Halloc. f_equal. apply set_eq. intros p.
  rewrite elem_of_list_to_set. apply elem_of_set_iter.
- intros p Hp. apply Hgone. by apply elem_of_set_iter.
- intros p Hp. apply Hrest. by rewrite elem_of_set_iter.
Qed.

Lemma freeAstNodes_clears_argument_witness :
∃ this' heap',
  freeAstNodes {[16; 32]}
    {| allocatedNodes := {[16; 32; 48]}; variableNodes := {[ "x" := 16 ]};
       backupFlag := false |} heap_var = Ok (∅, this', heap')
  ∧ allocatedNodes this' = ({[16; 32; 48]} : gset N) ∖ {[16; 32]}
  ∧ (∀ p, p ∈ ({[16; 32]} : gset N) → heap' !! p = None).
Proof.
eexists _, _. split; [vm_compute; reflexivity|].
edestruct (freeAstNodes_clears_argument {[16; 32]}
             {| allocatedNodes := {[16; 32; 48]}; variableNodes := {[ "x" := 16 ]};
                backupFlag := false |} heap_var)
  as (_ & Halloc & Hgone & _); [vm_compute; reflexivity|].
split; [exact Halloc|exact Hgone].
Defined.

Lemma freeAstNodes_loop_returns l this heap :
NoDup l →
(∀ p, p ∈ l → p ≠ nullptr ∧ ∃ n, heap !! p = Some n ∧ well_tagged n) →
∃ s, for_each freeAstNodes_body l (this, heap) = Ok s.
Proof.
revert this heap. induction l as [|x l IH]; intros this heap Hnd Hlive; simpl; [eauto|].
apply NoDup_cons in Hnd as [Hx Hnd].
destruct (Hlive x) as (Hnull & n & Hn & Htag); [by left|].
unfold freeAstNodes_body at 1.
rewrite (deref_live _ _ _ Hnull Hn). simpl.
assert (cpp_delete x heap = Ok (delete x heap)) as Hdel.
{ rewrite cpp_delete_live by (right; eauto). by rewrite decide_False. }
assert (∀ p, p ∈ l → p ≠ nullptr ∧ ∃ m, delete x heap !! p = Some m ∧ well_tagged m)
  as Hlive'.
{ intros p Hp. destruct (Hlive p) as (? & m & ? & ?); [by right|].
  split; [done|]. exists m. split; [|done]. rewrite lookup_delete_ne; [done|].
  intros ->. done. }
case_decide as Hk.
- destruct (Htag Hk) as (name & id & ev & ->). simpl. rewrite Hdel. simpl.
  by apply IH.
- simpl. rewrite Hdel. simpl. by apply IH.
Qed.

(** [freeAstNodes] does return when the handles of the set are live nodes. *)
Lemma freeAstNodes_returns nodes this heap :
(∀ p, p ∈ nodes → p ≠ nullptr ∧ ∃ n, heap !! p = Some n ∧ well_tagged n) →
∃ this' heap', freeAstNodes nodes this heap = Ok (∅, this', heap').
Proof.
intros Hlive. unfold freeAstNodes.
destruct (freeAstNodes_loop_returns (set_iter nodes) this heap) as ([this' heap'] & ->).
- apply NoDup_set_iter.
- intros p Hp. apply Hlive. by apply elem_of_set_iter.
- simpl. eauto.
Qed.

(** *** extractUniqueAstNodes *)

Lemma reachable_null heap p : ¬ reachable heap nullptr p.
Proof. inversion 1; done. Qed.

Lemma acyclic_child heap rank p n c :
acyclic heap rank → heap !! p = Some n → c ∈ getChildren n →
c = nullptr ∨ (is_Some (heap !! c) ∧ (rank c < rank p)%nat).
Proof.
intros Hacyclic Hp Hc. apply (map_Forall_lookup_1 _ _ _ _ Hacyclic) in Hp.
by apply (proj1 (Forall_forall _ _) Hp).
Qed.

Lemma extract_children_sound heap fuel :
(∀ out root out', extractUniqueAstNodes fuel heap out root = Ok out' →
    ∀ p, p ∈ out' ↔ p ∈ out ∨ reachable heap root p) →
∀ cs acc out',
  for_each (λ it acc, extractUniqueAstNodes fuel heap acc it) cs acc = Ok out' →
  ∀ p, p ∈ out' ↔ p ∈ acc ∨ ∃ c, c ∈ cs ∧ reachable heap c p.
Proof.
intros IH cs. induction cs as [|c cs IHcs]; intros acc out'; simpl.
- intros [= <-] p. split; [by left|]. intros [?|(c & Hc & _)]; [done|].
  by apply elem_of_nil in Hc.
- intros Hrun. apply bind_Ok in Hrun as (acc1 & Hc & Hrun).
  intros p. rewrite (IHcs _ _ Hrun p), (IH _ _ _ Hc p).
  split.
  + intros [[?|?]|(c' & ? & ?)]; [by left| |].
    * right. exists c. split; [left|done].
    * right. exists c'. split; [by right|done].
  + intros [?|(c' & Hc' & ?)]; [by left; left|].
    apply elem_of_cons in Hc' as [->|?]; [by left; right|].
    right. by exists c'.
Qed.

Lemma extractUniqueAstNodes_sound fuel heap out root out' :
extractUniqueAstNodes fuel heap out root = Ok out' →
∀ p, p ∈ out' ↔ p ∈ out ∨ reachable heap root p.
Proof.
revert out root out'. induction fuel as [|fuel IH]; intros out root out'; simpl.
- case_decide as Hnull; [|done]. intros [= <-] p. subst root.
  split; [by left|]. intros [?|H]; [done|]. by apply reachable_null in H.
- case_decide as Hnull.
  + intros [= <-] p. subst root.
    split; [by left|]. intros [?|H]; [done|]. by apply reachable_null in H.
  + intros Hrun. apply bind_Ok in Hrun as (n & Hn & Hrun).
    apply deref_Ok in Hn as [_ Hn].
    intros p. rewrite (extract_children_sound heap fuel IH _ _ _ Hrun p).
    rewrite elem_of_union, elem_of_singleton. split.
    * intros [[->|?]|(c & Hc & Hr)].
      -- right. by constructor.
      -- by left.
      -- right. by eapply reachable_child.
    * intros [?|Hr]; [by left; right|].
      inversion Hr as [|? n' c ? _ Hn' Hc Hr']; subst.
      -- by left; left.
      -- right. exists c. rewrite Hn in Hn'. injection Hn' as <-. done.
Qed.

Lemma extractUniqueAstNodes_returns heap rank fuel out root :
acyclic heap rank →
root = nullptr ∨ (is_Some (heap !! root) ∧ (rank root < fuel)%nat) →
∃ out', extractUniqueAstNodes fuel heap out root = Ok out'.
Proof.
intros Hacyclic. revert out root.
induction fuel as [|fuel IH]; intros out root Hroot; simpl.
- case_decide; [eauto|]. destruct Hroot as [?|[_ ?]]; [done|lia].
- case_decide as Hnull; [eauto|].
  destruct Hroot as [?|[[n Hn] Hrank]]; [done|].
  rewrite (deref_live _ _ _ Hnull Hn). simpl.
  assert (∀ c, c ∈ getChildren n →
            c = nullptr ∨ (is_Some (heap !! c) ∧ (rank c < fuel)%nat)) as Hcs.
  { intros c Hc. destruct (acyclic_child _ _ _ _ _ Hacyclic Hn Hc) as [?|[? ?]];
      [by left|]. right. split; [done|lia]. }
  generalize ({[root]} ∪ out). revert Hcs. generalize (getChildren n).
  intros cs. induction cs as [|c cs IHcs]; intros Hcs acc; simpl; [eauto|].
  destruct (IH acc c) as (acc1 & ->); [apply Hcs; left|]. simpl.
  apply IHcs. intros c' Hc'. apply Hcs. by right.
Qed.

(** C6. On a DAG, [extractUniqueAstNodes] returns, and what it has added to
  the set is exactly the set of nodes reached from the root along
  [getChildren].  A reference is not followed: from a root that is a
  [ReferenceNode] the root alone is added, whatever its expression is. *)
Theorem extractUniqueAstNodes_reachable heap rank uniqueNodes root :
acyclic heap rank →
root = nullptr ∨ is_Some (heap !! root) →
∃ fuel out,
  extractUniqueAstNodes fuel heap uniqueNodes root = Ok out
  ∧ (∀ p, p ∈ out ↔ p ∈ uniqueNodes ∨ reachable heap root p)
  ∧ (∀ expr, root ≠ nullptr → heap !! root = Some (ReferenceNode expr) →
             out = {[root]} ∪ uniqueNodes).
Proof.
intros Hacyclic Hroot.
destruct (extractUniqueAstNodes_returns heap rank (S (rank root)) uniqueNodes root)
  as (out & Hrun); [done| |].
{ destruct Hroot as [?|?]; [by left|]. right. split; [done|lia]. }
exists (S (rank root)), out. split_and!; [done| |].
- by eapply extractUniqueAstNodes_sound.
- intros expr Hnull Href. simpl in Hrun. rewrite decide_False in Hrun by done.
  rewrite (deref_live _ _ _ Hnull Href) in Hrun. simpl in Hrun. congruence.
Qed.

Lemma extractUniqueAstNodes_reachable_witness :
∃ fuel out,
  extractUniqueAstNodes fuel heap_refs ∅ 96 = Ok out
  ∧ (∀ p, p ∈ out ↔ p ∈ (∅ : gset N) ∨ reachable heap_refs 96 p).
Proof.
destruct (extractUniqueAstNodes_reachable heap_refs N.to_nat ∅ 96)
  as (fuel & out & Hrun & Hout & _).
- unfold acyclic. apply (bool_decide_unpack _). vm_compute. exact I.
- right. vm_compute. eauto.
- exists fuel, out. split; [exact Hrun|exact Hout].
Defined.

(** The references of [heap_refs] are leaves of the walk: the expression
  they name, at 48, is not collected. *)
Example extractUniqueAstNodes_skips_references :
extractUniqueAstNodes 5 heap_refs ∅ 96 = Ok {[96; 64; 80]}.
Proof. vm_compute. reflexivity. Qed.

(** C9. [extractUniqueAstNodes] on a null root returns at once and leaves
  the set as it was. *)
Theorem extractUniqueAstNodes_null fuel heap uniqueNodes :
extractUniqueAstNodes fuel heap uniqueNodes nullptr = Ok uniqueNodes.
Proof. destruct fuel; reflexivity. Qed.

End collector.

(** ** The translator *)

Section translator.
Import TritonToZ3Ast.

(** *** The hash tables *)

Lemma appended_lawful : lawful appended.
Proof.
intros k v m k' Hk. unfold appended. induction m as [|[k0 v0] m IH]; simpl in *.
- repeat case_decide; congruence.
- destruct (decide (k0 = k)) as [->|Hne]; [done|].
  specialize (IH Hk). repeat case_decide; subst; congruence.
Qed.

Lemma chain_insert_find buckets k v m k' :
umap_find k m = None →
umap_find k' (chain_insert buckets k v m)
  = if decide (k' = k) then Some v else umap_find k' m.
Proof.
intros Hk. induction m as [|[k0 v0] m IH]; simpl in *.
- repeat case_decide; congruence.
- destruct (decide (k0 = k)) as [->|Hne]; [done|].
  specialize (IH Hk). repeat (case_decide; simpl); subst; congruence.
Qed.

Lemma chained_lawful buckets : lawful (chained buckets).
Proof.
intros k v m k' Hk. unfold chained. case_bool_decide.
- by apply chain_insert_find.
- simpl. repeat case_decide; subst; congruence.
Qed.

Lemma umap_emplace_find umap_place k v m k' :
lawful umap_place →
umap_find k' (umap_emplace umap_place k v m)
  = match umap_find k' m with
    | Some v' => Some v'
    | None => if decide (k' = k) then Some v else None
    end.
Proof.
intros Hlaw. unfold umap_emplace. destruct (umap_find k m) as [v0|] eqn:Hk.
- destruct (umap_find k' m) eqn:Hk'; [done|].
  case_decide; [congruence|done].
- rewrite Hlaw by done. case_decide as Heq.
  + subst. by rewrite Hk.
  + by destruct (umap_find k' m).
Qed.

(** An [emplace] on a key the map has changes nothing. *)
Lemma umap_emplace_present umap_place k v v' m :
umap_find k m = Some v' → umap_emplace umap_place k v m = m.
Proof. intros H. unfold umap_emplace. by rewrite H. Qed.

(** *** Counting solver calls *)

Lemma appearances_app node l1 l2 :
appearances node (l1 ++ l2) = (appearances node l1 + appearances node l2)%nat.
Proof. unfold appearances. by rewrite filter_app, length_app. Qed.

Lemma appearances_cons node x l :
appearances node (x :: l)
  = ((if decide (x = node) then 1 else 0) + appearances node l)%nat.
Proof. unfold appearances. rewrite filter_cons. by case_decide. Qed.

Lemma appearances_replicate node node' k :
appearances node (replicate k node') = if decide (node' = node) then k else 0%nat.
Proof.
induction k as [|k IH]; simpl.
- by case_decide.
- rewrite appearances_cons, IH. by case_decide.
Qed.

(** The loops of the CONCAT, LAND and LOR cases make one call per round. *)
Lemma for_each_calls node (body : N → Z3_ast * t → result (Z3_ast * t)) cs s s' :
(∀ c s r, body c s = Ok r → ∃ v, r = Z3_call node v s.2) →
for_each body cs s = Ok s' →
map fst (context s'.2) = (map fst (context s.2) ++ replicate (length cs) node)%list.
Proof.
intros Hbody. revert s. induction cs as [|c cs IH]; intros s; simpl.
- intros [= <-]. by rewrite app_nil_r.
- intros Hrun. apply bind_Ok in Hrun as (s1 & Hc & Hrun).
  apply Hbody in Hc as (v & ->). rewrite (IH _ Hrun). simpl.
  rewrite map_app, <- app_assoc. done.
Qed.

Ltac inv_case H :=
repeat (simpl in H;
  match type of H with
  | (_ ≫= _) = Ok _ => apply bind_Ok in H as (? & ? & H)
  | Ok _ = Ok _ => injection H as H
  | (_, _) = (_, _) => injection H as ? H
  | Throw _ = Ok _ => discriminate H
  | Undefined = Ok _ => discriminate H
  | match ?x with _ => _ end = Ok _ => destruct x eqn:?
  end).

(** A case of the switch that runs to its end has made [solver_calls]
  calls, all for the node it lowers. *)
Lemma lower_case_calls rev heap node n m this e this' :
lower_case rev heap node n m this = Ok (e, this') →
map fst (context this')
  = (map fst (context this) ++ replicate (solver_calls n) node)%list.
Proof.
intros H.
assert (∀ mk what cs cur,
          for_each (λ c '(currentValue, this),
                      nextValue ← umap_at m c;
                      if negb (isBool nextValue) then Throw (AstTranslations what)
                      else Ok (Z3_call node (mk currentValue nextValue) this))
                   cs (cur, this) = Ok (e, this') →
          map fst (context this')
            = (map fst (context this) ++ replicate (length cs) node)%list) as Hbool.
{ intros mk what cs cur Hrun.
  apply (for_each_calls node) in Hrun; [done|].
  intros c [cur' this0] r Hr. inv_case Hr. subst. eauto. }
assert (∀ cs cur,
          for_each (λ c '(currentValue, this),
                      nextValue ← umap_at m c;
                      Ok (Z3_call node (Z3_mk_concat currentValue nextValue) this))
                   cs (cur, this) = Ok (e, this') →
          map fst (context this')
            = (map fst (context this) ++ replicate (length cs) node)%list) as Hconcat.
{ intros cs cur Hrun.
  apply (for_each_calls node) in Hrun; [done|].
  intros c [cur' this0] r Hr. inv_case Hr. subst. eauto. }
unfold lower_case, fold_bool in H.
destruct n as [v|s|name id ev|expr|k cs]; [| | | |destruct k, rev];
  unfold solver_calls; simpl getKind in *; cbv iota beta in *;
  try (inv_case H; subst; simpl; rewrite ?map_app, ?app_nil_r; done).
all: simpl getChildren in *.
all: try (apply bind_Ok in H as (? & ? & H); apply bind_Ok in H as (? & ? & H)).
all: try (destruct (negb (isBool _)) eqn:?; [discriminate|]).
all: try (apply Hbool in H); try (apply Hconcat in H).
all: rewrite length_drop in H; rewrite H; repeat f_equal; lia.
Qed.

Lemma lower_spec umap_place rev heap node m this m' this' :
lawful umap_place →
lower umap_place rev heap node (m, this) = Ok (m', this') →
∃ n,
  node ≠ nullptr ∧ heap !! node = Some n
  ∧ map fst (context this')
      = (map fst (context this) ++ replicate (solver_calls n) node)%list
  ∧ (∀ k v, umap_find k m = Some v → umap_find k m' = Some v)
  ∧ is_Some (umap_find node m').
Proof.
intros Hlaw Hrun. unfold lower in Hrun.
apply bind_Ok in Hrun as (n & Hn & Hrun).
apply bind_Ok in Hrun as ([e this1] & Hcase & Hrun).
injection Hrun as <- <-.
apply deref_Ok in Hn as [Hnull Hn].
exists n. split_and!; [done|done| | |].
- by eapply lower_case_calls.
- intros k v Hk. rewrite umap_emplace_find by done. by rewrite Hk.
- rewrite umap_emplace_find by done.
  destruct (umap_find node m); [eauto|]. rewrite decide_True by done. eauto.
Qed.

(** The loop of [convert] over the visit vector: no element is skipped. *)
Lemma lower_all_every_appearance umap_place heap visitVector m this m' this' :
lawful umap_place →
New.lower_all umap_place heap visitVector (m, this) = Ok (m', this') →
(∀ node n, heap !! node = Some n →
   lowerings node this'
     = (lowerings node this + solver_calls n * appearances node visitVector)%nat)
∧ (∀ node v, umap_find node m = Some v → umap_find node m' = Some v)
∧ (∀ node, node ∈ visitVector → is_Some (umap_find node m')).
Proof.
intros Hlaw. unfold New.lower_all.
revert m this. induction visitVector as [|x visit IH]; intros m this; simpl.
- intros [= <- <-]. split_and!; [|done|].
  + intros node n _. change (appearances node []) with 0%nat. lia.
  + intros node Hnode. by apply elem_of_nil in Hnode.
- intros Hrun. apply bind_Ok in Hrun as ([m1 this1] & Hx & Hrun).
  apply (lower_spec _ _ _ _ _ _ _ _ Hlaw) in Hx as (nx & _ & Hnx & Hcalls & Hkeep & Hin).
  apply IH in Hrun as (Hcount & Hkeep' & Hall).
  split_and!.
  + intros node n Hn. rewrite (Hcount node n Hn). unfold lowerings.
    rewrite Hcalls, appearances_app, appearances_replicate, appearances_cons.
    case_decide as Heq; [|lia]. subst x. rewrite Hnx in Hn. injection Hn as ->. lia.
  + intros node v Hv. by apply Hkeep', Hkeep.
  + intros node Hnode. apply elem_of_cons in Hnode as [->|Hnode]; [|by apply Hall].
    destruct Hin as [v Hv]. exists v. by apply Hkeep'.
Qed.

(** *** The traversal *)

Lemma fillWorkStack_loop_prefix fuel heap engine workstack result_ visitVector :
New.fillWorkStack_loop fuel heap engine workstack result_ = Ok visitVector →
∃ suffix, visitVector = (result_ ++ suffix)%list.
Proof.
revert workstack result_.
induction fuel as [|fuel IH]; intros [|[p i] rest] res; simpl;
  try discriminate.
- intros [= <-]. exists []. by rewrite app_nil_r.
- intros [= <-]. exists []. by rewrite app_nil_r.
- intros Hrun. apply bind_Ok in Hrun as (n & Hn & Hrun).
  case_decide.
  + apply bind_Ok in Hrun as (c & _ & Hrun). by apply IH in Hrun.
  + case_decide.
    * apply bind_Ok in Hrun as (a & _ & Hrun). by apply IH in Hrun.
    * apply IH in Hrun as (suffix & ->). rewrite <- app_assoc. eauto.
Qed.

(** Every node put on the work stack ends up in the visit vector. *)
Lemma fillWorkStack_loop_visits fuel heap engine workstack result_ visitVector :
New.fillWorkStack_loop fuel heap engine workstack result_ = Ok visitVector →
∀ p i, (p, i) ∈ workstack → p ∈ visitVector.
Proof.
revert workstack result_.
induction fuel as [|fuel IH]; intros [|[q j] rest] res; simpl;
  try discriminate.
- intros _ p i Hp. by apply elem_of_nil in Hp.
- intros _ p i Hp. by apply elem_of_nil in Hp.
- intros Hrun p i Hp. apply bind_Ok in Hrun as (n & Hn & Hrun).
  case_decide.
  + apply bind_Ok in Hrun as (c & _ & Hrun).
    apply elem_of_cons in Hp as [[= -> ->]|Hp].
    * eapply (IH _ _ Hrun). right. left.
    * eapply (IH _ _ Hrun). right. right. exact Hp.
  + case_decide.
    * apply bind_Ok in Hrun as (a & _ & Hrun).
      apply elem_of_cons in Hp as [[= -> ->]|Hp].
      -- eapply (IH _ _ Hrun). right. left.
      -- eapply (IH _ _ Hrun). right. right. exact Hp.
    * apply elem_of_cons in Hp as [[= -> ->]|Hp].
      -- apply fillWorkStack_loop_prefix in Hrun as (suffix & ->).
         apply elem_of_app. left. apply elem_of_app. right. left.
      -- by eapply (IH _ _ Hrun).
Qed.

Lemma fillWorkStack_loop_child fuel heap engine p i rest result_ n c :
deref heap p = Ok n →
getChildren n !! N.to_nat i = Some c →
New.fillWorkStack_loop (S fuel) heap engine ((p, i) :: rest) result_
  = New.fillWorkStack_loop fuel heap engine
      ((c, 0) :: (p, New.uint32_succ i) :: rest) result_.
Proof.
intros Hn Hc. simpl. rewrite Hn. simpl.
rewrite decide_True by (apply lookup_lt_Some in Hc; lia).
unfold vector_at. by rewrite Hc.
Qed.

Lemma fillWorkStack_loop_pop fuel heap engine p i rest result_ n :
deref heap p = Ok n →
N.of_nat (length (getChildren n)) ≤ i →
getKind n ≠ REFERENCE_NODE ∨ i ≠ 0 →
New.fillWorkStack_loop (S fuel) heap engine ((p, i) :: rest) result_
  = New.fillWorkStack_loop fuel heap engine rest (result_ ++ [p]).
Proof.
intros Hn Hi Hk. simpl. rewrite Hn. simpl.
rewrite decide_False by lia. rewrite decide_False; [done|].
intros [? ?]. by destruct Hk.
Qed.

(** *** What [convert] returns *)

(** [convert] returns the expression of the first entry of the memo, and
  leaves the translator as the loop left it. *)
Lemma convert_returns_begin umap_place fuel heap this root e this' :
New.convert umap_place fuel heap this root = Ok (e, this') →
∃ m, New.convert_memo umap_place fuel heap this root = Ok m
     ∧ umap_begin_second m = Ok e.
Proof.
unfold New.convert, New.convert_memo. case_decide as Hnull; [done|].
intros H. apply bind_Ok in H as (visit & Hvisit & H).
apply bind_Ok in H as ([m this1] & Hrun & H).
apply bind_Ok in H as (e' & He & H). injection H as <- <-.
rewrite Hvisit. simpl. rewrite Hrun. simpl. eauto.
Qed.

(** The root does have its entry in that memo. *)
Lemma convert_memo_has_root umap_place fuel heap this root m :
lawful umap_place →
New.convert_memo umap_place fuel heap this root = Ok m →
is_Some (umap_find root m).
Proof.
intros Hlaw. unfold New.convert_memo. case_decide as Hnull; [done|].
intros H. apply bind_Ok in H as (visit & Hvisit & H).
apply bind_Ok in H as ([m1 this1] & Hrun & H). injection H as <-.
apply (lower_all_every_appearance _ _ _ _ _ _ _ Hlaw) in Hrun as (_ & _ & Hall).
apply Hall. eapply fillWorkStack_loop_visits; [exact Hvisit|left].
Qed.

(** C1. [convert] does not return the memo entry of the root but
  [z3expressions.begin()->second], the entry the hash table iterates
  first.  On BVNEG(BV(DECIMAL 3, DECIMAL 8)), the nodes at addresses 16,
  32, 48 and the root at 224, a chained table of 13 buckets has the entry
  of the BV node first: both files return the expression of the operand,
  while the memo holds a different expression for the root. *)
Theorem convert_returns_first_entry_not_root :
∃ e this' m root_e,
  New.convert (chained 13) 20 heap_neg (ctor engine_empty false) 224 = Ok (e, this')
  ∧ Old.convert (chained 13) 20 heap_neg (ctor engine_empty false) 224 = Ok (e, this')
  ∧ New.convert_memo (chained 13) 20 heap_neg (ctor engine_empty false) 224 = Ok m
  ∧ Old.convert_memo (chained 13) 20 heap_neg (ctor engine_empty false) 224 = Ok m
  ∧ umap_find 224 m = Some root_e
  ∧ umap_find 48 m = Some e
  ∧ e = Z3_bv_val 3 8
  ∧ root_e = Z3_unary Z3_mk_bvneg (Z3_bv_val 3 8)
  ∧ e ≠ root_e.
Proof.
do 4 eexists. split_and!; try (vm_compute; reflexivity). discriminate.
Qed.

(** The same input with tables of another order: a table that iterates in
  insertion order returns the expression of DECIMAL 3, one that puts a
  new entry first returns the expression of the root. *)
Example convert_depends_on_table :
(New.convert appended 20 heap_neg (ctor engine_empty false) 224 ≫= λ r, Ok r.1)
  = Ok (Z3_int_val 3)
∧ (New.convert (λ k v m, (k, v) :: m) 20 heap_neg (ctor engine_empty false) 224
     ≫= λ r, Ok r.1)
  = Ok (Z3_unary Z3_mk_bvneg (Z3_bv_val 3 8)).
Proof. split; vm_compute; reflexivity. Qed.

(** *** Sharing *)

(** C2, as stated: no node has solver calls made for it more than once
  during a [convert].  On BVADD(REFERENCE(1), REFERENCE(1)) the BV node
  the two references name is lowered twice, in both files. *)
Lemma lowered_twice_through_references :
∃ e this',
  New.convert (chained 13) 30 heap_refs (ctor engine_refs false) 96 = Ok (e, this')
  ∧ Old.convert (chained 13) 30 heap_refs (ctor engine_refs false) 96 = Ok (e, this')
  ∧ New.fillWorkStack 30 heap_refs engine_refs 96
      = Ok [16; 32; 48; 64; 16; 32; 48; 80; 96]
  ∧ lowerings 48 this' = 2%nat
  ∧ ¬ (∀ node, (lowerings node this' ≤ 1)%nat).
Proof.
do 2 eexists. split_and!; try (vm_compute; reflexivity).
intros H. specialize (H 48). vm_compute in H. lia.
Qed.

(** The new file: during a [convert] no element of the visit vector is
  skipped: the case of a node runs, and makes its solver calls, once for
  every appearance of the node in the vector.  What happens once per node
  is the memo entry: every node of the vector has one, and an entry, once
  made, is the one the memo has at the end. *)
Lemma New_convert_lowers_every_appearance umap_place fuel heap this root e this' :
lawful umap_place →
New.convert umap_place fuel heap this root = Ok (e, this') →
∃ visitVector m,
  New.fillWorkStack fuel heap (symbolicEngine this) root = Ok visitVector
  ∧ New.convert_memo umap_place fuel heap this root = Ok m
  ∧ (∀ node n, heap !! node = Some n →
       lowerings node this'
         = (lowerings node this + solver_calls n * appearances node visitVector)%nat)
  ∧ (∀ node, node ∈ visitVector → is_Some (umap_find node m))
  ∧ (∀ visited rest m1 this1,
       visitVector = (visited ++ rest)%list →
       New.lower_all umap_place heap visited ([], this) = Ok (m1, this1) →
       ∀ node v, umap_find node m1 = Some v → umap_find node m = Some v).
Proof.
intros Hlaw. unfold New.convert, New.convert_memo. case_decide as Hnull; [done|].
intros H. apply bind_Ok in H as (visit & Hvisit & H).
apply bind_Ok in H as ([m this1] & Hrun & H).
apply bind_Ok in H as (e' & He & H). injection H as <- <-.
exists visit, m. rewrite Hvisit. simpl. rewrite Hrun. simpl.
split_and!; [done|done| | |].
- by apply (lower_all_every_appearance _ _ _ _ _ _ _ Hlaw Hrun).
- by apply (lower_all_every_appearance _ _ _ _ _ _ _ Hlaw Hrun).
- intros visited rest m1 this0 -> Hvisited node v Hv.
  unfold New.lower_all in Hrun, Hvisited.
  rewrite for_each_app, Hvisited in Hrun. simpl in Hrun.
  by apply (lower_all_every_appearance _ _ _ _ _ _ _ Hlaw Hrun).
Qed.

#[local] Arguments lower : simpl never.

(** *** LET *)

(** A [STRING_NODE] lowered into an empty memo. *)
Lemma lower_string_first umap_place rev heap this s name :
s ≠ nullptr → heap !! s = Some (StringNode name) →
∃ e, lower umap_place rev heap s ([], this) = Throw e
     ∧ (symbols this !! name = None → e = symbols_not_found).
Proof.
intros Hnull Hs. unfold lower. rewrite (deref_live _ _ _ Hnull Hs). simpl.
unfold lower_case. simpl.
destruct (symbols this !! name) as [target|]; simpl.
- exists out_of_range. split; [done|]. discriminate.
- eexists. split; done.
Qed.

(** The symbol of a LET, its first child, is the first node of the visit
  vector. *)
Lemma New_let_visits_symbol_first fuel heap engine root s body s' name visitVector :
root ≠ nullptr → s ≠ nullptr →
heap !! root = Some (OperatorNode LET_NODE [s; body; s']) →
heap !! s = Some (StringNode name) →
New.fillWorkStack fuel heap engine root = Ok visitVector →
∃ suffix, visitVector = s :: suffix.
Proof.
intros Hroot Hnull Hlet Hs. unfold New.fillWorkStack.
destruct fuel as [|[|fuel]]; simpl; [done| |].
- rewrite (deref_live _ _ _ Hroot Hlet). simpl. done.
- rewrite (deref_live _ _ _ Hroot Hlet). simpl.
  rewrite (deref_live _ _ _ Hnull Hs). simpl.
  intros Hrun. by apply fillWorkStack_loop_prefix in Hrun.
Qed.

(** C4.  [convert] on LET(name, body, STRING(name)) does not succeed, in
  either file and whatever the body is: the symbol of the LET, a
  [STRING_NODE], is lowered first, before the case of the LET has bound
  the name, and that lowering throws.  On a translator that has no
  binding of the name the exception is "Symbols not found". *)
Theorem convert_let_fails umap_place fuel heap this root s body s' name :
root ≠ nullptr → s ≠ nullptr →
heap !! root = Some (OperatorNode LET_NODE [s; body; s']) →
heap !! s = Some (StringNode name) →
(∀ r, Old.convert umap_place fuel heap this root ≠ Ok r)
∧ (∀ r, New.convert umap_place fuel heap this root ≠ Ok r)
∧ (symbols this !! name = None →
   Old.convert umap_place (3 + fuel) heap this root = Throw symbols_not_found)
∧ (symbols this !! name = None →
   ∀ visitVector,
     New.fillWorkStack fuel heap (symbolicEngine this) root = Ok visitVector →
     New.convert umap_place fuel heap this root = Throw symbols_not_found).
Proof.
intros Hroot Hnull Hlet Hs.
destruct (lower_string_first umap_place Old heap this s name Hnull Hs)
  as (eo & Hlo & Heo).
destruct (lower_string_first umap_place New heap this s name Hnull Hs)
  as (en & Hln & Hen).
assert (∀ f, Old.convert_loop umap_place (3 + f) heap root [] ([], this) = Throw eo)
  as Hold.
{ intros f. simpl. rewrite decide_False by done.
  rewrite (deref_live _ _ _ Hroot Hlet). simpl.
  rewrite decide_False by done.
  rewrite (deref_live _ _ _ Hnull Hs). simpl.
  assert (Old.descend f heap (symbolicEngine this) nullptr
            [s; root; s'; body] = Ok [s; root; s'; body]) as ->.
  { by destruct f. }
  simpl. unfold Old.NodeHasRightChild.
  rewrite (deref_live _ _ _ Hnull Hs). simpl.
  by rewrite Hlo. }
split_and!.
- intros r. unfold Old.convert. rewrite decide_False by done.
  destruct fuel as [|[|[|f]]].
  + done.
  + simpl. rewrite decide_False by done. done.
  + simpl. rewrite decide_False by done.
    rewrite (deref_live _ _ _ Hroot Hlet). simpl.
    rewrite decide_False by done. done.
  + change (S (S (S f))) with (3 + f)%nat. by rewrite Hold.
- intros r. unfold New.convert. rewrite decide_False by done.
  destruct (New.fillWorkStack fuel heap (symbolicEngine this) root)
    as [visit| | |] eqn:Hfill; try done.
  destruct (New_let_visits_symbol_first _ _ _ _ _ _ _ _ _ Hroot Hnull Hlet Hs Hfill)
    as (suffix & ->).
  simpl. unfold New.lower_all. simpl. by rewrite Hln.
- intros Hfresh. unfold Old.convert. rewrite decide_False by done.
  rewrite Hold. simpl. by rewrite (Heo Hfresh).
- intros Hfresh visit Hfill. unfold New.convert. rewrite decide_False by done.
  rewrite Hfill.
  destruct (New_let_visits_symbol_first _ _ _ _ _ _ _ _ _ Hroot Hnull Hlet Hs Hfill)
    as (suffix & ->).
  simpl. unfold New.lower_all. simpl. rewrite Hln. simpl. by rewrite (Hen Hfresh).
Qed.

Lemma convert_let_fails_witness :
Old.convert (chained 13) 20 heap_let (ctor engine_empty false) 96
  = Throw symbols_not_found
∧ New.convert (chained 13) 20 heap_let (ctor engine_empty false) 96
  = Throw symbols_not_found.
Proof.
destruct (convert_let_fails (chained 13) 17 heap_let (ctor engine_empty false)
            96 64 48 80 "x")
  as (_ & _ & Hold & _); [discriminate|discriminate|reflexivity|reflexivity|].
destruct (convert_let_fails (chained 13) 20 heap_let (ctor engine_empty false)
            96 64 48 80 "x")
  as (_ & _ & _ & Hnew); [discriminate|discriminate|reflexivity|reflexivity|].
split.
- apply Hold. reflexivity.
- apply (Hnew eq_refl [64; 16; 32; 48; 80; 96]). vm_compute. reflexivity.
Defined.

(** The body alone is lowered without error. *)
Example convert_let_body_alone :
(New.convert (chained 13) 20 heap_let (ctor engine_empty false) 48 ≫= λ r, Ok r.1)
  = Ok (Z3_bv_val 3 8)
∧ (Old.convert (chained 13) 20 heap_let (ctor engine_empty false) 48 ≫= λ r, Ok r.1)
  = Ok (Z3_bv_val 3 8).
Proof. split; vm_compute; reflexivity. Qed.

(** *** Deep chains *)

(** The traversal keeps its pending nodes on the work stack, a list in the
  state of the loop, and the lowering is a loop over the visit vector:
  on a right-linear chain of [n] BVADD nodes both run to their end, for
  every [n], in [4 * n + 1] rounds of the first loop. *)

Lemma chain_addr_ne_null k : chain_addr k ≠ nullptr.
Proof. unfold chain_addr, nullptr. lia. Qed.

Lemma chain_heap_leaf n : chain_heap n !! 1 = Some chain_leaf.
Proof.
induction n as [|n IH]; simpl; [by rewrite lookup_singleton_eq|].
rewrite lookup_insert_ne; [done|]. unfold chain_addr. lia.
Qed.

Lemma chain_heap_node n k :
(k < n)%nat →
chain_heap n !! chain_addr (S k) = Some (OperatorNode BVADD_NODE [1; chain_addr k]).
Proof.
induction n as [|n IH]; intros Hk; [lia|]. simpl.
destruct (decide (k = n)) as [->|Hne].
- by rewrite lookup_insert_eq.
- rewrite lookup_insert_ne; [apply IH; lia|]. unfold chain_addr. lia.
Qed.

#[local] Arguments chain_addr : simpl never.

Lemma fillWorkStack_chain n k fuel rest result_ :
(k ≤ n)%nat →
New.fillWorkStack_loop (4 * k + 1 + fuel) (chain_heap n) chain_engine
    ((chain_addr k, 0) :: rest) result_
  = New.fillWorkStack_loop fuel (chain_heap n) chain_engine rest
      (result_ ++ chain_visit k).
Proof.
assert (deref (chain_heap n) 1 = Ok chain_leaf) as Hleaf.
{ apply deref_live; [done|apply chain_heap_leaf]. }
revert fuel rest result_. induction k as [|k IH]; intros fuel rest res Hk.
- change (4 * 0 + 1 + fuel)%nat with (S fuel). change (chain_addr 0) with 1.
  by rewrite (fillWorkStack_loop_pop _ _ _ _ _ _ _ _ Hleaf) by (done || by left).
- replace (4 * S k + 1 + fuel)%nat with (S (S (S (4 * k + 1 + S fuel)))) by lia.
  assert (deref (chain_heap n) (chain_addr (S k))
            = Ok (OperatorNode BVADD_NODE [1; chain_addr k])) as Hnode.
  { apply deref_live; [apply chain_addr_ne_null|]. apply chain_heap_node. lia. }
  rewrite (fillWorkStack_loop_child _ _ _ _ _ _ _ _ 1 Hnode) by done.
  rewrite (fillWorkStack_loop_pop _ _ _ _ _ _ _ _ Hleaf) by (done || by left).
  change (New.uint32_succ 0) with 1.
  rewrite (fillWorkStack_loop_child _ _ _ _ _ _ _ _ (chain_addr k) Hnode) by done.
  change (New.uint32_succ 1) with 2.
  rewrite IH by lia.
  rewrite (fillWorkStack_loop_pop _ _ _ _ _ _ _ _ Hnode) by (done || by left).
  simpl. by rewrite <- !app_assoc.
Qed.

Lemma fillWorkStack_chain_visit n :
New.fillWorkStack (4 * n + 1) (chain_heap n) chain_engine (chain_addr n)
  = Ok (chain_visit n).
Proof.
unfold New.fillWorkStack.
replace (4 * n + 1)%nat with (4 * n + 1 + 0)%nat by lia.
by rewrite fillWorkStack_chain.
Qed.

Lemma chain_addr_inj j k : chain_addr j = chain_addr k → j = k.
Proof. unfold chain_addr. lia. Qed.

Lemma chain_memo_emplace umap_place eval k m :
lawful umap_place → chain_memo eval m →
chain_memo eval (umap_emplace umap_place (chain_addr k) (chain_expr eval k) m).
Proof.
intros Hlaw Hm j v. rewrite umap_emplace_find by done.
destruct (umap_find (chain_addr j) m) as [v'|] eqn:Hj.
- intros [= <-]. by apply Hm.
- case_decide as Heq; [|done]. apply chain_addr_inj in Heq as ->. congruence.
Qed.

Lemma lower_chain_leaf umap_place n m this :
symbolicEngine this = chain_engine →
lower umap_place New (chain_heap n) 1 (m, this)
  = Ok (umap_emplace umap_place 1 (chain_leaf_expr (isEval this)) m,
        (Z3_call 1 (chain_leaf_expr (isEval this)) this).2).
Proof.
destruct this as [engine eval syms ctx]. simpl. intros ->. unfold lower.
rewrite (deref_live _ _ chain_leaf) by (done || apply chain_heap_leaf).
simpl. unfold lower_case. simpl.
rewrite lookup_singleton_eq. unfold chain_leaf_expr. by destruct eval.
Qed.

Lemma lower_chain_node umap_place n k m this a b :
(k < n)%nat →
umap_find 1 m = Some a → umap_find (chain_addr k) m = Some b →
lower umap_place New (chain_heap n) (chain_addr (S k)) (m, this)
  = Ok (umap_emplace umap_place (chain_addr (S k)) (Z3_binary Z3_mk_bvadd a b) m,
        (Z3_call (chain_addr (S k)) (Z3_binary Z3_mk_bvadd a b) this).2).
Proof.
intros Hk Ha Hb. unfold lower.
rewrite (deref_live _ _ (OperatorNode BVADD_NODE [1; chain_addr k]))
  by (apply chain_addr_ne_null || by apply chain_heap_node).
simpl. unfold lower_case, umap_at. simpl. rewrite Ha, Hb. reflexivity.
Qed.

Lemma lower_all_chain umap_place n k m this :
lawful umap_place → (k ≤ n)%nat →
symbolicEngine this = chain_engine →
chain_memo (isEval this) m →
∃ m' this',
  New.lower_all umap_place (chain_heap n) (chain_visit k) (m, this) = Ok (m', this')
  ∧ symbolicEngine this' = chain_engine
  ∧ isEval this' = isEval this
  ∧ chain_memo (isEval this) m'
  ∧ umap_find 1 m' = Some (chain_leaf_expr (isEval this))
  ∧ umap_find (chain_addr k) m' = Some (chain_expr (isEval this) k).
Proof.
intros Hlaw. unfold New.lower_all. revert m this.
induction k as [|k IH]; intros m this Hk Heng Hm.
- simpl. rewrite lower_chain_leaf by done. simpl.
  eexists _, _. split; [reflexivity|]. simpl.
  assert (umap_find 1 (umap_emplace umap_place 1 (chain_leaf_expr (isEval this)) m)
            = Some (chain_leaf_expr (isEval this))) as Hleaf.
  { rewrite umap_emplace_find by done.
    destruct (umap_find 1 m) as [v|] eqn:H1; [|by rewrite decide_True].
    f_equal. by apply (Hm 0%nat). }
  split_and!; try done.
  by apply (chain_memo_emplace umap_place (isEval this) 0%nat).
- cbn [chain_visit for_each]. rewrite lower_chain_leaf by done.
  cbn [mbind result_bind]. rewrite for_each_app.
  set (m1 := umap_emplace umap_place 1 (chain_leaf_expr (isEval this)) m).
  set (this1 := (Z3_call 1 (chain_leaf_expr (isEval this)) this).2).
  destruct (IH m1 this1) as (m2 & this2 & Hrun & Heng2 & Heval2 & Hm2 & Hleaf2 & Hk2).
  { lia. }
  { done. }
  { by apply (chain_memo_emplace umap_place (isEval this) 0%nat). }
  rewrite Hrun. cbn [mbind result_bind for_each].
  change (isEval this1) with (isEval this) in *.
  rewrite (lower_chain_node _ _ _ _ _ _ _ Hk Hleaf2 Hk2).
  cbn [mbind result_bind].
  eexists _, _. split; [reflexivity|]. simpl.
  pose proof (chain_memo_emplace umap_place (isEval this) (S k) m2 Hlaw Hm2) as Hm3.
  simpl in Hm3.
  split_and!; try done.
  + rewrite umap_emplace_find by done. by rewrite Hleaf2.
  + rewrite umap_emplace_find by done.
    destruct (umap_find (chain_addr (S k)) m2) as [v|] eqn:HS.
    * f_equal. by apply (Hm2 (S k)).
    * by rewrite decide_True.
Qed.

(** A right-linear chain of [n] BVADD nodes is converted, for every [n]:
  traversal and lowering run to their end, the memo holds the nested sum
  for the root. *)
Theorem convert_chain umap_place eval n :
lawful umap_place →
∃ e this' m,
  New.convert umap_place (4 * n + 1) (chain_heap n) (ctor chain_engine eval)
      (chain_addr n) = Ok (e, this')
  ∧ New.convert_memo umap_place (4 * n + 1) (chain_heap n) (ctor chain_engine eval)
      (chain_addr n) = Ok m
  ∧ umap_find (chain_addr n) m = Some (chain_expr eval n).
Proof.
intros Hlaw. unfold New.convert, New.convert_memo.
rewrite !decide_False by apply chain_addr_ne_null.
change (symbolicEngine (ctor chain_engine eval)) with chain_engine.
rewrite fillWorkStack_chain_visit. cbn [mbind result_bind].
destruct (lower_all_chain umap_place n n [] (ctor chain_engine eval))
  as (m & this' & Hrun & _ & _ & _ & _ & Hroot); [done|lia|done| |].
{ intros j v. discriminate. }
rewrite Hrun. cbn [mbind result_bind].
destruct m as [|[k v] m]; [discriminate|].
eexists _, _, _. split_and!; [reflexivity|reflexivity|done].
Qed.

(** The chain of the specification, 100 000 links. *)
Corollary convert_chain_100000 umap_place eval :
lawful umap_place →
∃ e this' m,
  New.convert umap_place (4 * 100000 + 1) (chain_heap 100000)
      (ctor chain_engine eval) (chain_addr 100000) = Ok (e, this')
  ∧ New.convert_memo umap_place (4 * 100000 + 1) (chain_heap 100000)
      (ctor chain_engine eval) (chain_addr 100000) = Ok m
  ∧ umap_find (chain_addr 100000) m = Some (chain_expr eval 100000).
Proof. apply convert_chain. Qed.

End translator.

(** * Further properties *)

(** ** The garbage collector, continued *)

Section collector_more.
Import AstGarbageCollector.

(** A loop that keeps every element deletes nothing. *)
Lemma delete_loop_keep_all (keep : N → Prop) `{!∀ p, Decision (keep p)} l
    (heap : gmap N AbstractNode) :
  (∀ p, p ∈ l → keep p) →
  for_each (λ it heap, if decide (keep it) then Ok heap else cpp_delete it heap) l heap
    = Ok heap.
Proof.
  induction l as [|x l IH]; intros Hkeep; simpl; [done|].
  rewrite decide_True by (apply Hkeep; left). simpl.
  apply IH. intros p Hp. apply Hkeep. by right.
Qed.

(** A delete loop that returns has met live or null handles only. *)
Lemma delete_loop_Ok (keep : N → Prop) `{!∀ p, Decision (keep p)} l heap heap' :
  for_each (λ it heap, if decide (keep it) then Ok heap else cpp_delete it heap) l heap
    = Ok heap' →
  ∀ p, p ∈ l → ¬ keep p → p = nullptr ∨ is_Some (heap !! p).
Proof.
  revert heap. induction l as [|x l IH]; intros heap; simpl.
  - intros _ p Hp. by apply elem_of_nil in Hp.
  - intros Hrun. apply bind_Ok in Hrun as (heap1 & Hx & Hrun).
    intros p Hp Hk. apply elem_of_cons in Hp as [->|Hp].
    + rewrite decide_False in Hx by done. unfold cpp_delete in Hx.
      case_decide; [by left|]. right. destruct (heap !! x); [eauto|done].
    + destruct (IH _ Hrun p Hp Hk) as [?|[n Hn]]; [by left|]. right.
      case_decide; [injection Hx as <-; eauto|].
      apply cpp_delete_Ok in Hx. subst heap1. case_decide; [eauto|].
      apply lookup_delete_Some in Hn as [_ Hn]. eauto.
Qed.

Lemma delete_all_Ok l heap heap' :
  for_each cpp_delete l heap = Ok heap' →
  ∀ p, p ∈ l → p = nullptr ∨ is_Some (heap !! p).
Proof.
  intros Hrun p Hp.
  pose proof (delete_loop_Ok (λ _, False) l heap heap') as Hconv.
  apply (Hconv Hrun p Hp). tauto.
Qed.

Lemma delete_all_returns l heap :
  NoDup l → (∀ p, p ∈ l → p = nullptr ∨ is_Some (heap !! p)) →
  ∃ heap', for_each cpp_delete l heap = Ok heap'.
Proof.
  intros Hnd Hlive.
  pose proof (delete_loop (λ _, False) l heap Hnd) as Hloop.
  destruct Hloop as (heap' & Hrun & _); [intros p Hp _; by apply Hlive|].
  exists heap'. exact Hrun.
Qed.

Lemma delete_all_spec l heap heap' :
  NoDup l → for_each cpp_delete l heap = Ok heap' →
  (∀ p, p ∈ l → p ≠ nullptr → heap' !! p = None)
  ∧ (∀ p, p ∉ l → heap' !! p = heap !! p).
Proof.
  intros Hnd Hrun.
  pose proof (delete_loop (λ _, False) l heap Hnd) as Hloop.
  destruct Hloop as (heap2 & Hrun2 & Hdel & Hkeep).
  { intros p Hp _. by apply (delete_all_Ok _ _ _ Hrun). }
  assert (Ok heap' = Ok heap2) as Heq by (rewrite <- Hrun; exact Hrun2).
  injection Heq as <-. split.
  - intros p Hp Hnull. apply Hdel; [done|tauto|done].
  - intros p Hp. apply Hkeep. by left.
Qed.

(** X1. [freeAllAstNodes] returns exactly when every tracked handle is null
    or live.  When it returns, both containers are empty (every name looks
    up to null), the backup flag is as before, every tracked node is deleted
    and no other node is touched. *)
Theorem freeAllAstNodes_frees this heap :
  ((∃ r, freeAllAstNodes this heap = Ok r)
   ↔ ∀ p, p ∈ allocatedNodes this → p = nullptr ∨ is_Some (heap !! p))
  ∧ ∀ this' heap', freeAllAstNodes this heap = Ok (this', heap') →
      allocatedNodes this' = ∅ ∧ variableNodes this' = ∅
      ∧ backupFlag this' = backupFlag this
      ∧ (∀ name, getAstVariableNode name this' = nullptr)
      ∧ (∀ p, p ∈ allocatedNodes this → p ≠ nullptr → heap' !! p = None)
      ∧ (∀ p, p ∉ allocatedNodes this → heap' !! p = heap !! p).
Proof.
  split; [split|].
  - intros [r Hr]. unfold freeAllAstNodes in Hr.
    apply bind_Ok in Hr as (heap' & Hrun & _).
    intros p Hp. apply (delete_all_Ok _ _ _ Hrun p). by apply elem_of_set_iter.
  - intros Hlive. unfold freeAllAstNodes.
    destruct (delete_all_returns (set_iter (allocatedNodes this)) heap)
      as (heap' & ->).
    { apply NoDup_set_iter. }
    { intros p Hp. apply Hlive. by apply elem_of_set_iter. }
    simpl. eauto.
  - intros this' heap' Hr. unfold freeAllAstNodes in Hr.
    apply bind_Ok in Hr as (heap1 & Hrun & Hr). injection Hr as <- <-.
    apply delete_all_spec in Hrun as (Hdel & Hkeep); [|apply NoDup_set_iter].
    simpl. split_and!; try done.
    + intros p Hp Hnull. apply Hdel; [by apply elem_of_set_iter|done].
    + intros p Hp. apply Hkeep. by rewrite elem_of_set_iter.
Qed.

(** X5. [copy] from a collector that tracks every node this one tracks (an
    assignment to itself is one such case) deletes nothing; it takes the
    containers of the other and sets the backup flag. *)
Theorem copy_of_subset this other heap :
  allocatedNodes this ⊆ allocatedNodes other →
  copy this other heap
    = Ok ({| allocatedNodes := allocatedNodes other;
             variableNodes := variableNodes other;
             backupFlag := true |}, heap).
Proof.
  intros Hsub. unfold copy.
  rewrite (delete_loop_keep_all (λ p, p ∈ allocatedNodes other)).
  - reflexivity.
  - intros p Hp. apply Hsub. by apply elem_of_set_iter.
Qed.

Lemma copy_of_subset_witness :
  copy {| allocatedNodes := {[16; 32]}; variableNodes := {[ "x" := 16 ]};
          backupFlag := false |}
       {| allocatedNodes := {[16; 32]}; variableNodes := {[ "x" := 16 ]};
          backupFlag := false |} heap_var
    = Ok ({| allocatedNodes := {[16; 32]}; variableNodes := {[ "x" := 16 ]};
             backupFlag := true |}, heap_var).
Proof.
  exact (copy_of_subset
           {| allocatedNodes := {[16; 32]}; variableNodes := {[ "x" := 16 ]};
              backupFlag := false |}
           {| allocatedNodes := {[16; 32]}; variableNodes := {[ "x" := 16 ]};
              backupFlag := false |} heap_var (λ p Hp, Hp)).
Defined.

(** X4. Registering a variable under a free name succeeds, and the name then
    looks up to the node; before, it looked up to null.  The other names
    and the set of allocated nodes are as before. *)
Theorem recordVariableAstNode_lookup name node this :
  variableNodes this !! name = None →
  getAstVariableNode name this = nullptr
  ∧ (recordVariableAstNode name node this).2 = Ok ()
  ∧ getAstVariableNode name (recordVariableAstNode name node this).1 = node
  ∧ (∀ name', name' ≠ name →
       getAstVariableNode name' (recordVariableAstNode name node this).1
         = getAstVariableNode name' this)
  ∧ allocatedNodes (recordVariableAstNode name node this).1 = allocatedNodes this.
Proof.
  intros Hfresh. unfold recordVariableAstNode, getAstVariableNode, map_emplace.
  rewrite Hfresh. simpl. rewrite lookup_insert_eq.
  split_and!; try done.
  intros name' Hne. by rewrite lookup_insert_ne.
Qed.

Lemma recordVariableAstNode_lookup_witness :
  getAstVariableNode "x" (recordVariableAstNode "x" 16 (ctor false)).1 = 16
  ∧ getAstVariableNode "y" (recordVariableAstNode "x" 16 (ctor false)).1 = nullptr.
Proof.
  destruct (recordVariableAstNode_lookup "x" 16 (ctor false))
    as (_ & _ & Hx & Hother & _); [reflexivity|].
  split; [exact Hx|]. rewrite Hother; [reflexivity|discriminate].
Defined.

(** The loop of [freeAstNodes] returns on live, non-null, well-tagged
    handles only. *)
Lemma freeAstNodes_loop_Ok l this heap s :
  for_each freeAstNodes_body l (this, heap) = Ok s →
  ∀ p, p ∈ l → p ≠ nullptr ∧ ∃ n, heap !! p = Some n ∧ (NoDup l → well_tagged n).
Proof.
  revert this heap. induction l as [|x l IH]; intros this heap; simpl.
  - intros _ p Hp. by apply elem_of_nil in Hp.
  - intros Hrun. apply bind_Ok in Hrun as ([this1 heap1] & Hbody & Hrun).
    unfold freeAstNodes_body in Hbody.
    apply bind_Ok in Hbody as (n & Hn & Hbody).
    apply bind_Ok in Hbody as (vars & Hvars & Hbody).
    apply bind_Ok in Hbody as (heap2 & Hdel & Hbody).
    injection Hbody as <- <-.
    apply deref_Ok in Hn as [Hnull Hn].
    apply cpp_delete_Ok in Hdel. rewrite decide_False in Hdel by done. subst heap2.
    intros p Hp. apply elem_of_cons in Hp as [->|Hp].
    + split; [done|]. exists n. split; [done|]. intros _ Hk.
      rewrite decide_True in Hvars by done. destruct n; try done. eauto.
    + destruct (IH _ _ Hrun p Hp) as (Hpn & m & Hm & Htag). split; [done|].
      apply lookup_delete_Some in Hm as [Hne Hm].
      exists m. split; [done|]. intros Hnd. apply Htag.
      by apply NoDup_cons in Hnd as [_ ?].
Qed.

(** X2. [freeAstNodes] returns exactly when every handle of the set is a live
    node and none is null: unlike [freeAllAstNodes] it reads each node
    before deleting it, so a null or dangling handle in the set is undefined
    behaviour. *)
Theorem freeAstNodes_returns_iff nodes this heap :
  (∃ this' heap', freeAstNodes nodes this heap = Ok (∅, this', heap'))
  ↔ ∀ p, p ∈ nodes → p ≠ nullptr ∧ ∃ n, heap !! p = Some n ∧ well_tagged n.
Proof.
  split.
  - intros (this' & heap' & Hrun). unfold freeAstNodes in Hrun.
    apply bind_Ok in Hrun as (s & Hloop & _).
    intros p Hp. apply elem_of_set_iter in Hp.
    destruct (freeAstNodes_loop_Ok _ _ _ _ Hloop p Hp) as (Hnull & n & Hn & Htag).
    split; [done|]. exists n. split; [done|]. apply Htag, NoDup_set_iter.
  - apply freeAstNodes_returns.
Qed.

(** The variable map after the loop: the names of the variable nodes met
    are erased, the other entries stay. *)
Lemma freeAstNodes_loop_variables l this heap this' heap' :
  NoDup l →
  for_each freeAstNodes_body l (this, heap) = Ok (this', heap') →
  (∀ p name id eval, p ∈ l → heap !! p = Some (VariableNode name id eval) →
     variableNodes this' !! name = None)
  ∧ (∀ name,
       (∀ p id eval, p ∈ l → heap !! p ≠ Some (VariableNode name id eval)) →
       variableNodes this' !! name = variableNodes this !! name)
  ∧ (∀ name, variableNodes this !! name = None → variableNodes this' !! name = None)
  ∧ backupFlag this' = backupFlag this.
Proof.
  revert this heap. induction l as [|x l IH]; intros this heap Hnd; simpl.
  - intros [= <- <-]. split_and!; try done.
    intros p name id ev Hp. by apply elem_of_nil in Hp.
  - apply NoDup_cons in Hnd as [Hx Hnd].
    intros Hrun. apply bind_Ok in Hrun as ([this1 heap1] & Hbody & Hrun).
    unfold freeAstNodes_body in Hbody.
    apply bind_Ok in Hbody as (n & Hn & Hbody).
    apply bind_Ok in Hbody as (vars & Hvars & Hbody).
    apply bind_Ok in Hbody as (heap2 & Hdel & Hbody).
    injection Hbody as <- <-.
    apply deref_Ok in Hn as [Hnull Hn].
    apply cpp_delete_Ok in Hdel. rewrite decide_False in Hdel by done. subst heap2.
    destruct (IH _ _ Hnd Hrun) as (Herased & Hkept & Hnone & Hflag). simpl in *.
    assert (∀ p, p ∈ l → delete x heap !! p = heap !! p) as Hsame.
    { intros p Hp. apply lookup_delete_ne. intros ->. done. }
    split_and!; [| | |done].
    + intros p name id ev Hp Hpn. apply elem_of_cons in Hp as [->|Hp].
      * rewrite Hn in Hpn. injection Hpn as ->. simpl in Hvars.
        injection Hvars as <-.
        apply Hnone, lookup_delete_eq.
      * apply (Herased p name id ev Hp). by rewrite Hsame.
    + intros name Hname. rewrite Hkept.
      * case_decide as Hk; [|by injection Hvars as <-].
        destruct n as [| |name0 id ev| |]; try done. injection Hvars as <-.
        apply lookup_delete_ne. intros ->.
        by apply (Hname x id ev); [left|].
      * intros p id ev Hp. rewrite Hsame by done. apply Hname. by right.
    + intros name Hname. apply Hnone.
      case_decide as Hk; [|by injection Hvars as <-].
      destruct n as [| |name0 id ev| |]; try done. injection Hvars as <-.
      rewrite lookup_delete_None. by right.
Qed.

(** X3. [freeAstNodes] erases variable entries by name: the name of every
    variable node of the set is gone from the variable map afterwards,
    whatever node the entry pointed to; the names that no node of the set
    bears are looked up as before, and the flag is kept. *)
Theorem freeAstNodes_erases_by_name nodes this heap nodes' this' heap' :
  freeAstNodes nodes this heap = Ok (nodes', this', heap') →
  (∀ p name id eval, p ∈ nodes → heap !! p = Some (VariableNode name id eval) →
     getAstVariableNode name this' = nullptr)
  ∧ (∀ name,
       (∀ p id eval, p ∈ nodes → heap !! p ≠ Some (VariableNode name id eval)) →
       getAstVariableNode name this' = getAstVariableNode name this)
  ∧ backupFlag this' = backupFlag this.
Proof.
  unfold freeAstNodes. intros Hrun.
  apply bind_Ok in Hrun as ([this1 heap1] & Hloop & Hret).
  injection Hret as <- <- <-.
  apply freeAstNodes_loop_variables in Hloop as (Herased & Hkept & _ & Hflag);
    [|apply NoDup_set_iter].
  unfold getAstVariableNode. split_and!; [| |done].
  - intros p name id ev Hp Hpn. rewrite (Herased p name id ev); [done| |done].
    by apply elem_of_set_iter.
  - intros name Hname. rewrite Hkept; [done|].
    intros p id ev Hp. apply Hname. by apply elem_of_set_iter.
Qed.

Lemma freeAstNodes_erases_by_name_witness :
  ∃ this' heap',
    freeAstNodes {[48]}
      {| allocatedNodes := {[16; 48]}; variableNodes := {[ "x" := 16 ]};
         backupFlag := false |} heap_twins = Ok (∅, this', heap')
    ∧ getAstVariableNode "x" this' = nullptr
    ∧ heap' !! 16 = Some (VariableNode "x" 0 42).
Proof.
  eexists _, _. split; [vm_compute; reflexivity|].
  edestruct (freeAstNodes_erases_by_name {[48]}
               {| allocatedNodes := {[16; 48]}; variableNodes := {[ "x" := 16 ]};
                  backupFlag := false |} heap_twins)
    as (Herased & _ & _); [vm_compute; reflexivity|].
  split; [|vm_compute; reflexivity].
  apply (Herased 48 "x" 1 7); [apply elem_of_singleton; reflexivity|reflexivity].
Defined.

(** X6. Snapshot, allocate, restore: the copy constructor deletes nothing; a
    node recorded after the snapshot is deleted when the snapshot is copied
    back; the collector then tracks what it tracked at the snapshot, is a
    backup, and its destructor frees nothing. *)
Theorem restore_deletes_later_node this heap node :
  node ≠ nullptr → node ∉ allocatedNodes this → is_Some (heap !! node) →
  ∃ backup this',
    copy_ctor this heap = Ok (backup, heap)
    ∧ copy (recordAstNode node this).1 backup heap = Ok (this', delete node heap)
    ∧ allocatedNodes this' = allocatedNodes this
    ∧ variableNodes this' = variableNodes this
    ∧ backupFlag this' = true
    ∧ dtor this' (delete node heap) = Ok (delete node heap).
Proof.
  intros Hnull Hfresh Hlive.
  eexists _, _. split.
  { unfold copy_ctor, copy. simpl.
    rewrite (delete_loop_keep_all (λ p, p ∈ allocatedNodes this)); [done|].
    intros p Hp. apply elem_of_set_iter in Hp. by apply not_elem_of_empty in Hp. }
  unfold copy. simpl.
  destruct (delete_loop (λ p, p ∈ allocatedNodes this)
              (set_iter ({[node]} ∪ allocatedNodes this)) heap)
    as (heap' & Hrun & Hdel & Hkeep).
  { apply NoDup_set_iter. }
  { intros p Hp Hk. apply elem_of_set_iter, elem_of_union in Hp as [Hp|Hp]; [|done].
    apply elem_of_singleton in Hp as ->. by right. }
  rewrite Hrun. simpl.
  assert (heap' = delete node heap) as ->.
  { apply map_eq. intros p. destruct (decide (p = node)) as [->|Hne].
    - rewrite lookup_delete_eq. apply Hdel; [|done|done].
      apply elem_of_set_iter, elem_of_union_l, elem_of_singleton. done.
    - rewrite lookup_delete_ne by done. apply Hkeep.
      destruct (decide (p ∈ allocatedNodes this)); [by right; left|]. left.
      rewrite elem_of_set_iter, elem_of_union, elem_of_singleton. tauto. }
  split_and!; reflexivity.
Qed.

Lemma restore_deletes_later_node_witness :
  ∃ backup this',
    copy_ctor {| allocatedNodes := {[16; 32]}; variableNodes := {[ "x" := 16 ]};
                 backupFlag := false |} heap_var = Ok (backup, heap_var)
    ∧ copy (recordAstNode 48
              {| allocatedNodes := {[16; 32]}; variableNodes := {[ "x" := 16 ]};
                 backupFlag := false |}).1 backup heap_var
        = Ok (this', delete 48 heap_var)
    ∧ allocatedNodes this' = {[16; 32]}.
Proof.
  destruct (restore_deletes_later_node
              {| allocatedNodes := {[16; 32]}; variableNodes := {[ "x" := 16 ]};
                 backupFlag := false |} heap_var 48)
    as (backup & this' & Hsnap & Hrestore & Halloc & _).
  - discriminate.
  - simpl. intros Hin. apply elem_of_union in Hin as [Hin|Hin];
      apply elem_of_singleton in Hin; discriminate Hin.
  - vm_compute. eauto.
  - exists backup, this'. split_and!; [exact Hsnap|exact Hrestore|exact Halloc].
Defined.

(** X7. [setAllocatedAstNodes] deletes the tracked nodes that are not in the
    new set, and only those, and leaves the variable map and the flag
    alone: a name that pointed to a deleted node still looks up to it, a
    dangling handle. *)
Theorem setAllocatedAstNodes_keeps_variables nodes this heap :
  (∀ p, p ∈ allocatedNodes this → p ∉ nodes → p = nullptr ∨ is_Some (heap !! p)) →
  ∃ heap',
    setAllocatedAstNodes nodes this heap
      = Ok ({| allocatedNodes := nodes; variableNodes := variableNodes this;
               backupFlag := backupFlag this |}, heap')
    ∧ (∀ p, p ∈ allocatedNodes this → p ∉ nodes → p ≠ nullptr → heap' !! p = None)
    ∧ (∀ p, p ∉ allocatedNodes this ∨ p ∈ nodes → heap' !! p = heap !! p)
    ∧ (∀ name p, variableNodes this !! name = Some p →
         p ∈ allocatedNodes this → p ∉ nodes → p ≠ nullptr →
         getAstVariableNode name
           {| allocatedNodes := nodes; variableNodes := variableNodes this;
              backupFlag := backupFlag this |} = p
         ∧ heap' !! p = None).
Proof.
  intros Hlive. unfold setAllocatedAstNodes.
  destruct (delete_loop (λ p, p ∈ nodes) (set_iter (allocatedNodes this)) heap)
    as (heap' & Hrun & Hdel & Hkeep).
  { apply NoDup_set_iter. }
  { intros p Hp. apply Hlive. by apply elem_of_set_iter. }
  rewrite Hrun. simpl. exists heap'. split; [reflexivity|].
  assert (∀ p, p ∈ allocatedNodes this → p ∉ nodes → p ≠ nullptr → heap' !! p = None)
    as Hgone.
  { intros p Hp Hnp Hnull. apply Hdel; [by apply elem_of_set_iter|done|done]. }
  split_and!; [done| |].
  - intros p Hp. apply Hkeep. rewrite elem_of_set_iter.
    destruct Hp; [by left|by right; left].
  - intros name p Hname Hp Hnp Hnull. unfold getAstVariableNode. simpl.
    rewrite Hname. split; [done|]. by apply Hgone.
Qed.

Lemma setAllocatedAstNodes_keeps_variables_witness :
  ∃ heap',
    setAllocatedAstNodes {[32]}
      {| allocatedNodes := {[16; 32]}; variableNodes := {[ "x" := 16 ]};
         backupFlag := false |} heap_var
      = Ok ({| allocatedNodes := {[32]}; variableNodes := {[ "x" := 16 ]};
               backupFlag := false |}, heap')
    ∧ heap' !! 16 = None.
Proof.
  destruct (setAllocatedAstNodes_keeps_variables {[32]}
              {| allocatedNodes := {[16; 32]}; variableNodes := {[ "x" := 16 ]};
                 backupFlag := false |} heap_var)
    as (heap' & Hrun & Hgone & _).
  - simpl. intros p Hp _. right.
    apply elem_of_union in Hp as [Hp|Hp]; apply elem_of_singleton in Hp; subst p;
      vm_compute; eauto.
  - exists heap'. split; [exact Hrun|]. apply Hgone; simpl.
    + apply elem_of_union_l, elem_of_singleton. reflexivity.
    + intros Hin. apply elem_of_singleton in Hin. discriminate Hin.
    + discriminate.
Defined.

(** X8. Once the destructor of an owner has run, a node it tracked is gone:
    for any collector that still tracks it, [freeAllAstNodes] does not
    return, nor does [freeAstNodes] on a set that holds it. *)
Theorem owner_dtor_then_free_undefined this heap heap' other p :
  backupFlag this = false →
  dtor this heap = Ok heap' →
  p ∈ allocatedNodes this → p ∈ allocatedNodes other → p ≠ nullptr →
  heap' !! p = None
  ∧ (∀ r, freeAllAstNodes other heap' ≠ Ok r)
  ∧ (∀ nodes r, p ∈ nodes → freeAstNodes nodes other heap' ≠ Ok r).
Proof.
  intros Hflag Hdtor Hp Hp' Hnull.
  rewrite (owner_dtor_frees _ _ Hflag) in Hdtor.
  apply bind_Ok in Hdtor as ([this1 heap1] & Hfree & Hret).
  injection Hret as <-. simpl.
  unfold freeAllAstNodes in Hfree. apply bind_Ok in Hfree as (h & Hrun & Hret).
  injection Hret as _ <-.
  apply delete_all_spec in Hrun as (Hdel & _); [|apply NoDup_set_iter].
  assert (h !! p = None) as Hgone.
  { apply Hdel; [by apply elem_of_set_iter|done]. }
  split_and!; [done| |].
  - intros r Hr. unfold freeAllAstNodes in Hr.
    apply bind_Ok in Hr as (h3 & Hrun3 & _).
    destruct (delete_all_Ok _ _ _ Hrun3 p) as [?|[n Hn]];
      [by apply elem_of_set_iter|done|congruence].
  - intros nodes r Hin Hr. unfold freeAstNodes in Hr.
    apply bind_Ok in Hr as (s & Hloop & _).
    destruct (freeAstNodes_loop_Ok _ _ _ _ Hloop p) as (_ & n & Hn & _);
      [by apply elem_of_set_iter|congruence].
Qed.

Lemma owner_dtor_then_free_undefined_witness :
  dtor {| allocatedNodes := {[16; 32]}; variableNodes := ∅; backupFlag := false |}
       heap_var = Ok (delete 32 (delete 16 heap_var))
  ∧ ∀ r, freeAllAstNodes
           {| allocatedNodes := {[16]}; variableNodes := ∅; backupFlag := true |}
           (delete 32 (delete 16 heap_var)) ≠ Ok r.
Proof.
  assert (dtor {| allocatedNodes := {[16; 32]}; variableNodes := ∅;
                  backupFlag := false |} heap_var
            = Ok (delete 32 (delete 16 heap_var))) as Hdtor.
  { vm_compute. reflexivity. }
  split; [exact Hdtor|].
  destruct (owner_dtor_then_free_undefined
              {| allocatedNodes := {[16; 32]}; variableNodes := ∅; backupFlag := false |}
              heap_var (delete 32 (delete 16 heap_var))
              {| allocatedNodes := {[16]}; variableNodes := ∅; backupFlag := true |} 16)
    as (_ & Hall & _).
  - reflexivity.
  - exact Hdtor.
  - simpl. apply elem_of_union_l, elem_of_singleton. reflexivity.
  - simpl. apply elem_of_singleton. reflexivity.
  - discriminate.
  - exact Hall.
Defined.

Lemma reachable_live heap rank root p :
  acyclic heap rank → is_Some (heap !! root) →
  reachable heap root p → p ≠ nullptr ∧ is_Some (heap !! p).
Proof.
  intros Hacyclic Hroot Hreach. induction Hreach as [root Hnull|root n c p Hnull Hn Hc Hr IH].
  - done.
  - apply IH. destruct (acyclic_child _ _ _ _ _ Hacyclic Hn Hc) as [->|[? _]]; [|done].
    by apply reachable_null in Hr.
Qed.

(** Whether the recursion returns does not depend on the set it fills. *)
Lemma extractUniqueAstNodes_returns_any fuel heap :
  ∀ out root out1 out',
    extractUniqueAstNodes fuel heap out root = Ok out1 →
    ∃ out1', extractUniqueAstNodes fuel heap out' root = Ok out1'.
Proof.
  induction fuel as [|fuel IH]; intros out root out1 out'; simpl.
  - case_decide; [eauto|done].
  - case_decide as Hnull; [eauto|].
    intros Hrun. apply bind_Ok in Hrun as (n & Hn & Hrun). rewrite Hn. simpl.
    generalize ({[root]} ∪ out') as acc'. revert Hrun.
    generalize ({[root]} ∪ out) as acc. revert out1.
    induction (getChildren n) as [|c cs IHcs]; intros out1 acc Hrun acc'; simpl.
    + eauto.
    + simpl in Hrun. apply bind_Ok in Hrun as (acc1 & Hc & Hrun).
      destruct (IH _ _ _ acc' Hc) as [acc1' ->]. simpl. by eapply IHcs.
Qed.

(** A deeper bound on the recursion returns the same set. *)
Lemma extractUniqueAstNodes_fuel_mono fuel heap :
  ∀ fuel2 out root out1,
    (fuel ≤ fuel2)%nat →
    extractUniqueAstNodes fuel heap out root = Ok out1 →
    extractUniqueAstNodes fuel2 heap out root = Ok out1.
Proof.
  induction fuel as [|fuel IH]; intros fuel2 out root out1 Hle; simpl.
  - case_decide as Hnull; [|done]. intros [= <-].
    destruct fuel2; simpl; by rewrite decide_True.
  - destruct fuel2 as [|fuel2]; [lia|]. simpl.
    case_decide as Hnull; [done|].
    intros Hrun. apply bind_Ok in Hrun as (n & Hn & Hrun). rewrite Hn. simpl.
    revert Hrun. generalize ({[root]} ∪ out) as acc.
    induction (getChildren n) as [|c cs IHcs]; intros acc Hrun; simpl; [done|].
    simpl in Hrun. apply bind_Ok in Hrun as (acc1 & Hc & Hrun).
    rewrite (IH fuel2 _ _ _ ltac:(lia) Hc). simpl. by apply IHcs.
Qed.

(** X9. [extractUniqueAstNodes] only adds to the set; what it returns does
    not depend on the bound of the recursion; and a second run, on the set
    the first returned, returns, under the same or a deeper bound, with
    that set unchanged. *)
Theorem extractUniqueAstNodes_idempotent fuel heap out root out1 :
  extractUniqueAstNodes fuel heap out root = Ok out1 →
  out ⊆ out1
  ∧ (∀ fuel2 out2, extractUniqueAstNodes fuel2 heap out root = Ok out2 → out2 = out1)
  ∧ (∀ fuel2, (fuel ≤ fuel2)%nat →
       extractUniqueAstNodes fuel2 heap out1 root = Ok out1)
  ∧ (∀ fuel2 out2, extractUniqueAstNodes fuel2 heap out1 root = Ok out2 → out2 = out1).
Proof.
  intros Hrun. pose proof (extractUniqueAstNodes_sound _ _ _ _ _ Hrun) as H1.
  assert (∀ fuel2 out2, extractUniqueAstNodes fuel2 heap out1 root = Ok out2 →
                        out2 = out1) as Hagain.
  { intros fuel2 out2 Hrun2. apply set_eq. intros p.
    rewrite (extractUniqueAstNodes_sound _ _ _ _ _ Hrun2 p), (H1 p). tauto. }
  split_and!.
  - intros p Hp. apply H1. by left.
  - intros fuel2 out2 Hrun2. apply set_eq. intros p.
    rewrite (extractUniqueAstNodes_sound _ _ _ _ _ Hrun2 p), (H1 p). done.
  - intros fuel2 Hle.
    destruct (extractUniqueAstNodes_returns_any _ _ _ _ _ out1 Hrun) as [out2 Hrun2].
    rewrite (Hagain _ _ Hrun2) in Hrun2.
    by apply (extractUniqueAstNodes_fuel_mono fuel).
  - exact Hagain.
Qed.

Lemma extractUniqueAstNodes_idempotent_witness :
  extractUniqueAstNodes 5 heap_neg ∅ 224 = Ok {[224; 48; 16; 32]}
  ∧ extractUniqueAstNodes 5 heap_neg {[224; 48; 16; 32]} 224 = Ok {[224; 48; 16; 32]}
  ∧ extractUniqueAstNodes 9 heap_neg {[224; 48; 16; 32]} 224 = Ok {[224; 48; 16; 32]}.
Proof.
  split; [vm_compute; reflexivity|].
  destruct (extractUniqueAstNodes_idempotent 5 heap_neg ∅ 224 {[224; 48; 16; 32]})
    as (_ & _ & Hreturns & _); [vm_compute; reflexivity|].
  split; apply Hreturns; lia.
Defined.

(** X10. On a DAG of well-tagged nodes, collecting the nodes under a live
    root and freeing the collected set returns, deletes exactly the nodes
    reachable from the root along [getChildren], and takes them out of the
    allocated set. *)
Theorem extract_then_free_subgraph heap rank this root :
  acyclic heap rank →
  map_Forall (λ _ n, well_tagged n) heap →
  is_Some (heap !! root) →
  ∃ fuel out this' heap',
    extractUniqueAstNodes fuel heap ∅ root = Ok out
    ∧ freeAstNodes out this heap = Ok (∅, this', heap')
    ∧ allocatedNodes this' = allocatedNodes this ∖ out
    ∧ (∀ p, reachable heap root p → heap' !! p = None)
    ∧ (∀ p, ¬ reachable heap root p → heap' !! p = heap !! p).
Proof.
  intros Hacyclic Htags Hroot.
  destruct (extractUniqueAstNodes_returns heap rank (S (rank root)) ∅ root Hacyclic)
    as (out & Hout).
  { right. split; [done|lia]. }
  pose proof (extractUniqueAstNodes_sound _ _ _ _ _ Hout) as Hsound.
  assert (∀ p, p ∈ out ↔ reachable heap root p) as Hin.
  { intros p. rewrite Hsound. split; [|by right]. intros [Hp|?]; [|done].
    by apply not_elem_of_empty in Hp. }
  destruct (freeAstNodes_returns out this heap) as (this' & heap' & Hfree).
  { intros p Hp. apply Hin in Hp.
    destruct (reachable_live _ _ _ _ Hacyclic Hroot Hp) as [Hnull [n Hn]].
    split; [done|]. exists n. split; [done|].
    by apply (map_Forall_lookup_1 _ _ _ _ Htags Hn). }
  exists (S (rank root)), out, this', heap'. split; [done|]. split; [done|].
  unfold freeAstNodes in Hfree.
  apply bind_Ok in Hfree as ([this1 heap1] & Hloop & Hret).
  injection Hret as <- <-.
  apply freeAstNodes_loop in Hloop as (Halloc & Hgone & _ & Hrest).
  split_and!.
  - rewrite Halloc. f_equal. apply set_eq. intros p.
    rewrite elem_of_list_to_set. apply elem_of_set_iter.
  - intros p Hp. apply Hgone. by apply elem_of_set_iter, Hin.
  - intros p Hp. apply Hrest. by rewrite elem_of_set_iter, Hin.
Qed.

Lemma extract_then_free_subgraph_witness :
  ∃ fuel out this' heap',
    extractUniqueAstNodes fuel heap_neg ∅ 48 = Ok out
    ∧ freeAstNodes out (ctor false) heap_neg = Ok (∅, this', heap')
    ∧ (∀ p, reachable heap_neg 48 p → heap' !! p = None)
    ∧ (∀ p, ¬ reachable heap_neg 48 p → heap' !! p = heap_neg !! p).
Proof.
  destruct (extract_then_free_subgraph heap_neg N.to_nat (ctor false) 48)
    as (fuel & out & this' & heap' & Hout & Hfree & _ & Hgone & Hkept).
  - unfold acyclic. apply (bool_decide_unpack _). vm_compute. exact I.
  - intros p n Hp Hk. unfold heap_neg in Hp.
    apply lookup_insert_Some in Hp as [[_ <-]|[_ Hp]]; [discriminate Hk|].
    apply lookup_insert_Some in Hp as [[_ <-]|[_ Hp]]; [discriminate Hk|].
    apply lookup_insert_Some in Hp as [[_ <-]|[_ Hp]]; [discriminate Hk|].
    apply lookup_singleton_Some in Hp as [_ <-]. discriminate Hk.
  - vm_compute. eauto.
  - exists fuel, out, this', heap'. split_and!; assumption.
Defined.

End collector_more.

(** ** The translator, continued *)

Section translator_more.
Import TritonToZ3Ast.

Lemma waiting_mono heap engine visited visited' above workstack :
  (∀ c, c ∈ visited → c ∈ visited') →
  waiting heap engine visited above workstack →
  waiting heap engine visited' above workstack.
Proof.
  intros Hsub. revert above. induction workstack as [|[p i] rest IH]; intros above; simpl;
    [done|].
  intros [Hp Hrest]. split; [|by apply IH].
  intros n Hn. destruct (Hp n Hn) as (Hq & Hi & Hdone). split_and!; [done|done|].
  intros j c Hj Hc. apply Hsub. by eapply Hdone.
Qed.

Lemma postordered_snoc heap engine l p :
  postordered heap engine l →
  (∀ n, heap !! p = Some n → ∀ c, c ∈ dependencies engine n → c ∈ l) →
  postordered heap engine (l ++ [p]).
Proof.
  intros Hl Hp l1 q l2 n Heq Hn c Hc.
  destruct l2 as [|x l2 _] using rev_ind.
  - apply app_inj_tail in Heq as [<- <-]. by apply (Hp n).
  - rewrite app_comm_cons, app_assoc in Heq. apply app_inj_tail in Heq as [Heq _].
    by apply (Hl l1 q l2 n).
Qed.

Lemma uint32_succ_small i len :
  i < len → len < 2 ^ 32 → New.uint32_succ i = i + 1.
Proof. intros Hi Hlen. unfold New.uint32_succ. apply N.mod_small. lia. Qed.

Lemma fillWorkStack_loop_postordered fuel heap engine workstack result_ visitVector :
  small_arity heap →
  New.fillWorkStack_loop fuel heap engine workstack result_ = Ok visitVector →
  postordered heap engine result_ →
  stack_ok heap engine result_ workstack →
  postordered heap engine visitVector.
Proof.
  intros Hsmall. revert workstack result_.
  induction fuel as [|fuel IH]; intros [|[p i] rest] res; simpl; try discriminate.
  - intros [= <-]. done.
  - intros [= <-]. done.
  - intros Hrun Hres [Htop Hwait].
    apply bind_Ok in Hrun as (n & Hn & Hrun).
    apply deref_Ok in Hn as [Hnull Hn].
    pose proof (map_Forall_lookup_1 _ _ _ _ Hsmall Hn) as Hlen. simpl in Hlen.
    specialize (Htop n Hn).
    case_decide as Hi.
    + (* a child is pushed *)
      apply bind_Ok in Hrun as (c & Hc & Hrun).
      unfold vector_at in Hc. destruct (getChildren n !! N.to_nat i) as [c'|] eqn:Hci;
        [injection Hc as ->|done].
      assert (dependencies engine n = getChildren n) as Hdeps.
      { destruct n; try done; simpl in Hi; lia. }
      apply (IH _ _ Hrun Hres). simpl. split.
      * intros m _ j x Hj. lia.
      * split; [|done]. intros n' Hn'. rewrite Hn in Hn'. injection Hn' as <-.
        rewrite (uint32_succ_small _ _ Hi Hlen).
        replace (N.to_nat (i + 1) - 1)%nat with (N.to_nat i) by lia.
        rewrite Hdeps. split_and!; [done|lia|]. intros j x Hj. rewrite <- Hdeps.
        by apply Htop.
    + case_decide as Href.
      * (* the expression of a reference is pushed *)
        destruct Href as [Hkind ->].
        apply bind_Ok in Hrun as (ast & Hast & Hrun).
        destruct n as [| | |expr|]; try done. simpl in Hast.
        destruct (symbolicExpressions engine !! expr) as [ast'|] eqn:Hexpr;
          [injection Hast as ->|done].
        apply (IH _ _ Hrun Hres). simpl. split.
        -- intros m _ j x Hj. lia.
        -- split; [|done]. intros n' Hn'. rewrite Hn in Hn'. injection Hn' as <-.
           simpl. rewrite Hexpr. change (N.to_nat (New.uint32_succ 0) - 1)%nat with 0%nat.
           split_and!; [done| |].
           ++ change (N.to_nat (New.uint32_succ 0)) with 1%nat. lia.
           ++ intros j x Hj. lia.
      * (* the node is visited *)
        assert (∀ c, c ∈ dependencies engine n → c ∈ res) as Hdone.
        { intros c Hc. apply list_elem_of_lookup in Hc as [j Hj].
          apply (Htop j c); [|done]. apply lookup_lt_Some in Hj.
          destruct n as [| | |expr|]; simpl in *; try lia.
          destruct (symbolicExpressions engine !! expr); simpl in Hj; [|lia].
          assert (i ≠ 0) by (intros ->; by apply Href). lia. }
        apply (IH _ _ Hrun).
        -- apply postordered_snoc; [done|]. intros n' Hn'. rewrite Hn in Hn'.
           by injection Hn' as <-.
        -- destruct rest as [|[p' i'] rest']; [done|]. simpl in *.
           destruct Hwait as [Hp' Hrest]. split.
           ++ intros n' Hn' j c Hj Hc.
              destruct (Hp' n' Hn') as (Habove & Hi' & Hbefore).
              destruct (decide (j = N.to_nat i' - 1)%nat) as [->|Hne].
              ** rewrite Habove in Hc. injection Hc as <-.
                 apply elem_of_app. right. left.
              ** apply elem_of_app. left. apply (Hbefore j c); [lia|done].
           ++ eapply waiting_mono; [|done]. intros c Hc. apply elem_of_app. by left.
Qed.

(** X11. The visit vector of [fillWorkStack] is in post-order: at every
    position the children of the node, or the expression a reference names,
    are found earlier in the vector. *)
Theorem fillWorkStack_postorder fuel heap engine root visitVector :
  small_arity heap →
  New.fillWorkStack fuel heap engine root = Ok visitVector →
  postordered heap engine visitVector.
Proof.
  intros Hsmall Hrun. unfold New.fillWorkStack in Hrun.
  apply (fillWorkStack_loop_postordered _ _ _ _ _ _ Hsmall Hrun).
  - intros l1 p l2 n Heq. by destruct l1.
  - simpl. split; [|done]. intros n _ j c Hj. lia.
Qed.

Lemma fillWorkStack_loop_last fuel heap engine workstack result_ visitVector r :
  New.fillWorkStack_loop fuel heap engine workstack result_ = Ok visitVector →
  last (map fst workstack) = Some r →
  ∃ l, visitVector = (l ++ [r])%list.
Proof.
  revert workstack result_.
  induction fuel as [|fuel IH]; intros [|[p i] rest] res; simpl; try discriminate.
  intros Hrun Hlast. apply bind_Ok in Hrun as (n & Hn & Hrun).
  assert (∀ f, last (f :: map fst ((p, i) :: rest)) = Some r) as Hpush.
  { intros f. simpl. simpl in Hlast. by destruct (map fst rest). }
  case_decide.
  - apply bind_Ok in Hrun as (c & _ & Hrun). apply (IH _ _ Hrun). apply (Hpush c).
  - case_decide.
    + apply bind_Ok in Hrun as (a & _ & Hrun). apply (IH _ _ Hrun). apply (Hpush a).
    + destruct rest as [|f rest].
      * simpl in Hlast. injection Hlast as <-.
        destruct fuel; simpl in Hrun; injection Hrun as <-; eauto.
      * apply (IH _ _ Hrun). simpl in *. done.
Qed.

Lemma fillWorkStack_loop_reached fuel heap engine root workstack result_ visitVector :
  New.fillWorkStack_loop fuel heap engine workstack result_ = Ok visitVector →
  (∀ p i, (p, i) ∈ workstack → reached heap engine root p) →
  (∀ p, p ∈ result_ → reached heap engine root p ∧ p ≠ nullptr ∧ is_Some (heap !! p)) →
  ∀ p, p ∈ visitVector →
       reached heap engine root p ∧ p ≠ nullptr ∧ is_Some (heap !! p).
Proof.
  revert workstack result_.
  induction fuel as [|fuel IH]; intros [|[q i] rest] res; simpl; try discriminate.
  - intros [= <-] _ Hres. done.
  - intros [= <-] _ Hres. done.
  - intros Hrun Hstack Hres. apply bind_Ok in Hrun as (n & Hn & Hrun).
    apply deref_Ok in Hn as [Hnull Hn].
    assert (reached heap engine root q) as Hq by (apply (Hstack q i); left).
    assert (∀ c i', c ∈ dependencies engine n →
              ∀ p j, (p, j) ∈ (c, 0) :: (q, i') :: rest → reached heap engine root p)
      as Hpush.
    { intros c i' Hc p j Hp.
      apply elem_of_cons in Hp as [[= -> ->]|Hp]; [by eapply reached_step|].
      apply elem_of_cons in Hp as [[= -> ->]|Hp]; [done|].
      apply (Hstack p j). by right. }
    case_decide as Hi.
    + apply bind_Ok in Hrun as (c & Hc & Hrun).
      unfold vector_at in Hc. destruct (getChildren n !! N.to_nat i) as [c'|] eqn:Hci;
        [injection Hc as ->|done].
      apply (IH _ _ Hrun); [|done]. apply Hpush.
      assert (dependencies engine n = getChildren n) as ->.
      { destruct n; try done; simpl in Hi; lia. }
      by eapply list_elem_of_lookup_2.
    + case_decide as Href.
      * apply bind_Ok in Hrun as (ast & Hast & Hrun).
        destruct n as [| | |expr|]; try done. simpl in Hast.
        destruct (symbolicExpressions engine !! expr) as [ast'|] eqn:Hexpr;
          [injection Hast as ->|done].
        apply (IH _ _ Hrun); [|done]. apply Hpush. simpl. rewrite Hexpr. left.
      * apply (IH _ _ Hrun).
        -- intros p j Hp. apply (Hstack p j). by right.
        -- intros p Hp. apply elem_of_app in Hp as [Hp|Hp]; [by apply Hres|].
           apply list_elem_of_singleton in Hp as ->. eauto.
Qed.

(** X12. The visit vector ends with the root and holds exactly the nodes
    reached from it, through children and through references; all of them
    are live and none is null. *)
Theorem fillWorkStack_visits_reached fuel heap engine root visitVector :
  small_arity heap →
  New.fillWorkStack fuel heap engine root = Ok visitVector →
  (∃ l, visitVector = (l ++ [root])%list)
  ∧ (∀ p, p ∈ visitVector ↔ reached heap engine root p)
  ∧ (∀ p, p ∈ visitVector → p ≠ nullptr ∧ is_Some (heap !! p)).
Proof.
  intros Hsmall Hrun.
  unfold New.fillWorkStack in Hrun.
  assert (postordered heap engine visitVector) as Hpost.
  { apply (fillWorkStack_loop_postordered _ _ _ _ _ _ Hsmall Hrun).
    - intros l1 p l2 n Heq. by destruct l1.
    - simpl. split; [|done]. intros n _ j c Hj. lia. }
  pose proof (fillWorkStack_loop_last _ _ _ _ _ _ root Hrun eq_refl) as [l Hl].
  assert (∀ p, p ∈ visitVector →
            reached heap engine root p ∧ p ≠ nullptr ∧ is_Some (heap !! p)) as Hsound.
  { apply (fillWorkStack_loop_reached _ _ _ _ _ _ _ Hrun).
    - intros p i Hp. apply list_elem_of_singleton in Hp as [= -> ->]. constructor.
    - intros p Hp. by apply elem_of_nil in Hp. }
  split_and!; [eauto| |].
  - intros p. split; [intros Hp; by destruct (Hsound p Hp)|].
    induction 1 as [|p n c Hreach IH Hn Hc].
    + rewrite Hl. apply elem_of_app. right. left.
    + apply list_elem_of_split in IH as (l1 & l2 & Heq).
      rewrite Heq. apply elem_of_app. left. by apply (Hpost l1 p l2 n).
  - intros p Hp. by destruct (Hsound p Hp) as (_ & ? & ?).
Qed.

Lemma postorder_rec_children heap engine depth p n :
  small_arity heap → deref heap p = Ok n →
  (∀ c l, postorder_rec depth heap engine c = Ok l →
          ∃ steps, runs_as heap engine (c, 0) steps l []) →
  ∀ todo done_ acc acc',
    getChildren n = (done_ ++ todo)%list →
    for_each (λ c acc, l ← postorder_rec depth heap engine c; Ok (acc ++ l)) todo acc
      = Ok acc' →
    ∃ steps l, acc' = (acc ++ l)%list
      ∧ runs_as heap engine (p, N.of_nat (length done_)) steps l
          [(p, N.of_nat (length (getChildren n)))].
Proof.
  intros Hsmall Hn IH todo.
  pose proof Hn as Hn'. apply deref_Ok in Hn' as [_ Hlook].
  pose proof (map_Forall_lookup_1 _ _ _ _ Hsmall Hlook) as Hlen. simpl in Hlen.
  induction todo as [|c todo IHtodo]; intros done_ acc acc' Hcs; simpl.
  - intros [= <-]. exists 0%nat, []. split; [by rewrite app_nil_r|].
    unfold runs_as. intros fuel rest res. rewrite app_nil_r in Hcs.
    rewrite Hcs, app_nil_r. done.
  - intros Hrun. apply bind_Ok in Hrun as (acc1 & Hc & Hrun).
    apply bind_Ok in Hc as (lc & Hlc & Hc). injection Hc as <-.
    destruct (IH c lc Hlc) as (kc & Hkc).
    assert (getChildren n = ((done_ ++ [c]) ++ todo)%list) as Hcs'
      by (by rewrite Hcs, <- app_assoc).
    destruct (IHtodo (done_ ++ [c])%list _ _ Hcs' Hrun) as (k & l & -> & Hk).
    exists (S (kc + k)), (lc ++ l)%list. split; [by rewrite app_assoc|].
    unfold runs_as in *. intros fuel rest res.
    change (S (kc + k) + fuel)%nat with (S (kc + k + fuel)).
    rewrite (fillWorkStack_loop_child _ _ _ _ _ _ _ _ c Hn).
    2:{ rewrite Nat2N.id, Hcs. by rewrite lookup_app_r, Nat.sub_diag. }
    rewrite (uint32_succ_small _ (N.of_nat (length (getChildren n)))); [|
      rewrite Hcs, length_app; simpl; lia | done].
    replace (kc + k + fuel)%nat with (kc + (k + fuel))%nat by lia.
    rewrite Hkc. simpl.
    replace (N.of_nat (length done_) + 1) with (N.of_nat (length (done_ ++ [c])))
      by (rewrite length_app; simpl; lia).
    rewrite Hk. by rewrite app_assoc.
Qed.

Lemma postorder_rec_runs heap engine depth :
  small_arity heap →
  ∀ p l, postorder_rec depth heap engine p = Ok l →
         ∃ steps, runs_as heap engine (p, 0) steps l [].
Proof.
  intros Hsmall. induction depth as [|depth IH]; intros p l; simpl; [done|].
  intros Hrun. apply bind_Ok in Hrun as (n & Hn & Hrun).
  apply bind_Ok in Hrun as (below & Hbelow & Hrun).
  apply bind_Ok in Hrun as (referenced & Href & Hrun). injection Hrun as <-.
  destruct (postorder_rec_children heap engine depth p n Hsmall Hn IH
              (getChildren n) [] [] below eq_refl Hbelow) as (k1 & l1 & -> & Hk1).
  simpl in Hk1.
  case_decide as Hcase.
  - destruct Hcase as [Hkind Hnil].
    apply bind_Ok in Href as (ast & Hast & Href).
    destruct (IH ast referenced Href) as (k2 & Hk2).
    exists (k1 + S (k2 + 1))%nat. unfold runs_as in *. intros fuel rest res.
    replace (k1 + S (k2 + 1) + fuel)%nat with (k1 + S (k2 + S fuel))%nat by lia.
    rewrite Hk1. simpl app. rewrite Hnil. simpl length.
    cbn [New.fillWorkStack_loop]. rewrite Hn. simpl.
    rewrite Hnil. simpl. rewrite decide_True by done. rewrite Hast. simpl.
    rewrite Hk2. simpl app.
    rewrite (fillWorkStack_loop_pop _ _ _ _ _ _ _ _ Hn).
    + by rewrite <- !app_assoc.
    + rewrite Hnil. done.
    + right. done.
  - injection Href as <-.
    exists (k1 + 1)%nat. unfold runs_as in *. intros fuel rest res.
    replace (k1 + 1 + fuel)%nat with (k1 + S fuel)%nat by lia.
    rewrite Hk1. simpl app.
    rewrite (fillWorkStack_loop_pop _ _ _ _ _ _ _ _ Hn).
    + by rewrite <- !app_assoc.
    + lia.
    + destruct (decide (getKind n = REFERENCE_NODE)) as [Hk|Hk]; [|by left].
      right. intros H0. apply Hcase. split; [done|].
      destruct (getChildren n); [done|]. simpl in H0. lia.
Qed.

(** X13. [fillWorkStack] computes the recursive post-order walk: whenever the
    recursive walk returns, the loop returns the same vector after a fixed
    number of rounds. *)
Theorem fillWorkStack_refines_postorder_rec depth heap engine root visitVector :
  small_arity heap →
  postorder_rec depth heap engine root = Ok visitVector →
  ∃ steps, ∀ fuel,
    New.fillWorkStack (steps + fuel) heap engine root = Ok visitVector.
Proof.
  intros Hsmall Hrec.
  destruct (postorder_rec_runs heap engine depth Hsmall root visitVector Hrec)
    as (steps & Hsteps).
  exists (steps + 0)%nat. unfold runs_as in *. intros fuel. unfold New.fillWorkStack.
  replace (steps + 0 + fuel)%nat with (steps + fuel)%nat by lia.
  rewrite Hsteps. simpl. by destruct fuel.
Qed.

Ltac inv_lower H :=
  repeat (simpl in H;
    match type of H with
    | (_ ≫= _) = Ok _ => apply bind_Ok in H as (? & ? & H)
    | Ok _ = Ok _ => injection H as H
    | (_, _) = (_, _) => injection H as ? H
    | Throw _ = Ok _ => discriminate H
    | Undefined = Ok _ => discriminate H
    | match ?x with _ => _ end = Ok _ => destruct x eqn:?
    end).

(** The loops of the cases keep the members other than the context. *)
Lemma for_each_members node (body : N → Z3_ast * t → result (Z3_ast * t)) cs s s' :
  (∀ c s r, body c s = Ok r → ∃ v, r = Z3_call node v s.2) →
  for_each body cs s = Ok s' →
  symbolicEngine s'.2 = symbolicEngine s.2 ∧ isEval s'.2 = isEval s.2
  ∧ symbols s'.2 = symbols s.2.
Proof.
  intros Hbody. revert s. induction cs as [|c cs IH]; intros s; simpl.
  - intros [= <-]. done.
  - intros Hrun. apply bind_Ok in Hrun as (s1 & Hc & Hrun).
    apply Hbody in Hc as (v & ->). destruct (IH _ Hrun) as (-> & -> & ->). done.
Qed.

(** A case changes neither the engine nor the mode, and only the case of
    LET changes the symbol table. *)
Lemma lower_case_members rev heap node n m this e this' :
  lower_case rev heap node n m this = Ok (e, this') →
  symbolicEngine this' = symbolicEngine this ∧ isEval this' = isEval this
  ∧ (getKind n ≠ LET_NODE → symbols this' = symbols this).
Proof.
  intros H.
  assert (∀ mk what cs cur,
            for_each (λ c '(currentValue, this),
                        nextValue ← umap_at m c;
                        if negb (isBool nextValue) then Throw (AstTranslations what)
                        else Ok (Z3_call node (mk currentValue nextValue) this))
                     cs (cur, this) = Ok (e, this') →
            symbolicEngine this' = symbolicEngine this ∧ isEval this' = isEval this
            ∧ symbols this' = symbols this) as Hbool.
  { intros mk what cs cur Hrun.
    apply (for_each_members node) in Hrun; [done|].
    intros c [cur' this0] r Hr. inv_lower Hr. subst. eauto. }
  assert (∀ cs cur,
            for_each (λ c '(currentValue, this),
                        nextValue ← umap_at m c;
                        Ok (Z3_call node (Z3_mk_concat currentValue nextValue) this))
                     cs (cur, this) = Ok (e, this') →
            symbolicEngine this' = symbolicEngine this ∧ isEval this' = isEval this
            ∧ symbols this' = symbols this) as Hconcat.
  { intros cs cur Hrun.
    apply (for_each_members node) in Hrun; [done|].
    intros c [cur' this0] r Hr. inv_lower Hr. subst. eauto. }
  unfold lower_case, fold_bool in H.
  destruct n as [v|s|name id ev|expr|k cs]; [| | | |destruct k, rev];
    simpl getKind in *; cbv iota beta in *;
    try (inv_lower H; subst; simpl; done).
  all: simpl getChildren in *.
  all: try (apply bind_Ok in H as (? & ? & H); apply bind_Ok in H as (? & ? & H)).
  all: try (destruct (negb (isBool _)) eqn:?; [discriminate|]).
  all: try (apply Hbool in H as (? & ? & ?)); try (apply Hconcat in H as (? & ? & ?)).
  all: done.
Qed.

(** The expression of a two-operand case. *)
Lemma lower_case_binary rev heap node n m this e this' f :
  lower_case rev heap node n m this = Ok (e, this') →
  getBinaryZ3Function rev (getKind n) = Some f →
  ∃ c0 c1 a b,
    getChildren n !! 0%nat = Some c0 ∧ getChildren n !! 1%nat = Some c1
    ∧ umap_find c0 m = Some a ∧ umap_find c1 m = Some b
    ∧ e = Z3_binary f a b.
Proof.
  intros H Hf. unfold lower_case in H.
  destruct n as [v|s|name id ev|expr|k cs]; try discriminate Hf.
  destruct k, rev; try discriminate Hf; simpl in Hf; injection Hf as <-;
    simpl getKind in *; cbv iota beta in *; simpl getChildren in *;
    unfold vector_at, umap_at, call_ptr in H;
    (destruct (cs !! 0%nat) as [c0|]; [|discriminate H]);
    (destruct (cs !! 1%nat) as [c1|]; [|discriminate H]); simpl in H;
    (destruct (umap_find c0 m) as [a|] eqn:Ha; [|discriminate H]);
    (destruct (umap_find c1 m) as [b|] eqn:Hb; [|discriminate H]); simpl in H;
    injection H as <- _; eauto 10.
Qed.

(** The expression of a one-operand case. *)
Lemma lower_case_unary rev heap node n m this e this' f :
  lower_case rev heap node n m this = Ok (e, this') →
  getUnaryZ3Function (getKind n) = Some f →
  ∃ c0 a, getChildren n !! 0%nat = Some c0 ∧ umap_find c0 m = Some a
          ∧ e = Z3_unary f a.
Proof.
  intros H Hf. unfold lower_case in H.
  destruct n as [v|s|name id ev|expr|k cs]; try discriminate Hf.
  destruct k; try discriminate Hf; simpl in Hf; injection Hf as <-;
    simpl getKind in *; cbv iota beta in *; simpl getChildren in *;
    unfold vector_at, umap_at, call_ptr in H;
    (destruct (cs !! 0%nat) as [c0|]; [|discriminate H]); simpl in H;
    (destruct (umap_find c0 m) as [a|] eqn:Ha; [|discriminate H]); simpl in H;
    injection H as <- _; eauto 10.
Qed.

(** The expression of the REFERENCE case. *)
Lemma lower_case_reference rev heap node expr m this e this' :
  lower_case rev heap node (ReferenceNode expr) m this = Ok (e, this') →
  ∃ ast, symbolicExpressions (symbolicEngine this) !! expr = Some ast
         ∧ umap_find ast m = Some e.
Proof.
  unfold lower_case. simpl. intros H.
  destruct (symbolicExpressions (symbolicEngine this) !! expr) as [ast|];
    [|discriminate H]. simpl in H. unfold umap_at in H.
  destruct (umap_find ast m) as [v|] eqn:Hv; [|discriminate H].
  simpl in H. injection H as <- _. eauto.
Qed.

Lemma lower_compositional umap_place heap node m this m' this' :
  lawful umap_place →
  lower umap_place New heap node (m, this) = Ok (m', this') →
  compositional heap (symbolicEngine this) m →
  compositional heap (symbolicEngine this') m'
  ∧ symbolicEngine this' = symbolicEngine this.
Proof.
  intros Hlaw Hrun Hm. unfold lower in Hrun.
  apply bind_Ok in Hrun as (n & Hn & Hrun).
  apply bind_Ok in Hrun as ([e this1] & Hcase & Hrun).
  injection Hrun as <- <-.
  apply deref_Ok in Hn as [Hnull Hn].
  destruct (lower_case_members _ _ _ _ _ _ _ _ Hcase) as (Heng & _ & _).
  split; [|done]. rewrite Heng.
  assert (∀ k v, umap_find k m = Some v →
            umap_find k (umap_emplace umap_place node e m) = Some v) as Hkeep.
  { intros k v Hk. rewrite umap_emplace_find by done. by rewrite Hk. }
  intros p n' v Hp Hv. rewrite umap_emplace_find in Hv by done.
  destruct (umap_find p m) as [v'|] eqn:Hpm.
  - injection Hv as <-. destruct (Hm p n' v' Hp Hpm) as (Hbin & Hun & Href).
    split_and!.
    + intros f Hf. destruct (Hbin f Hf) as (c0 & c1 & a & b & ? & ? & ? & ? & ?).
      exists c0, c1, a, b. split_and!; try done; by apply Hkeep.
    + intros f Hf. destruct (Hun f Hf) as (c0 & a & ? & ? & ?).
      exists c0, a. split_and!; try done; by apply Hkeep.
    + intros expr Hexpr. destruct (Href expr Hexpr) as (ast & ? & ?).
      exists ast. split; [done|]. by apply Hkeep.
  - case_decide as Heq; [|done]. injection Hv as <-. subst p.
    rewrite Hn in Hp. injection Hp as <-. split_and!.
    + intros f Hf.
      destruct (lower_case_binary _ _ _ _ _ _ _ _ _ Hcase Hf)
        as (c0 & c1 & a & b & ? & ? & ? & ? & ?).
      exists c0, c1, a, b. split_and!; try done; by apply Hkeep.
    + intros f Hf.
      destruct (lower_case_unary _ _ _ _ _ _ _ _ _ Hcase Hf) as (c0 & a & ? & ? & ?).
      exists c0, a. split_and!; try done; by apply Hkeep.
    + intros expr ->.
      destruct (lower_case_reference _ _ _ _ _ _ _ _ Hcase) as (ast & ? & ?).
      exists ast. split; [done|]. by apply Hkeep.
Qed.

Lemma lower_all_compositional umap_place heap visitVector m this m' this' :
  lawful umap_place →
  New.lower_all umap_place heap visitVector (m, this) = Ok (m', this') →
  compositional heap (symbolicEngine this) m →
  compositional heap (symbolicEngine this) m'
  ∧ symbolicEngine this' = symbolicEngine this.
Proof.
  intros Hlaw. unfold New.lower_all. revert m this.
  induction visitVector as [|x visit IH]; intros m this; simpl.
  - intros [= <- <-]. done.
  - intros Hrun Hm. apply bind_Ok in Hrun as ([m1 this1] & Hx & Hrun).
    destruct (lower_compositional _ _ _ _ _ _ _ Hlaw Hx Hm) as (Hm1 & Heng).
    destruct (IH _ _ Hrun Hm1) as (Hm' & Heng'). rewrite <- Heng. split; [done|].
    by rewrite Heng'.
Qed.

(** X15. When [convert] reaches its return, the memo is compositional: the
    entry of a two-operand node is its solver function applied to the
    entries of its first two children, likewise for one operand, and the
    entry of a reference is the entry of the expression it names. *)
Theorem convert_memo_compositional umap_place fuel heap this root m :
  lawful umap_place →
  New.convert_memo umap_place fuel heap this root = Ok m →
  compositional heap (symbolicEngine this) m.
Proof.
  intros Hlaw. unfold New.convert_memo. case_decide as Hnull; [done|].
  intros H. apply bind_Ok in H as (visit & Hvisit & H).
  apply bind_Ok in H as ([m1 this1] & Hrun & H). injection H as <-.
  apply (lower_all_compositional _ _ _ _ _ _ _ Hlaw Hrun).
  intros p n v _ Hv. discriminate Hv.
Qed.

Lemma convert_memo_compositional_witness :
  ∃ m, New.convert_memo (chained 13) 30 heap_refs (ctor engine_refs false) 96 = Ok m
       ∧ compositional heap_refs engine_refs m.
Proof.
  eexists. split; [vm_compute; reflexivity|].
  apply (convert_memo_compositional (chained 13) 30 heap_refs
           (ctor engine_refs false) 96).
  - apply chained_lawful.
  - vm_compute. reflexivity.
Defined.

Lemma lower_members umap_place rev heap node m this m' this' :
  lower umap_place rev heap node (m, this) = Ok (m', this') →
  ∃ n, node ≠ nullptr ∧ heap !! node = Some n
       ∧ symbolicEngine this' = symbolicEngine this
       ∧ (getKind n ≠ LET_NODE → symbols this' = symbols this)
       ∧ (getKind n = STRING_NODE → symbols this ≠ ∅)
       ∧ (getKind n = LET_NODE →
          ∃ c0 s, getChildren n !! 0%nat = Some c0 ∧ heap !! c0 = Some (StringNode s)).
Proof.
  intros Hrun. unfold lower in Hrun.
  apply bind_Ok in Hrun as (n & Hn & Hrun).
  apply bind_Ok in Hrun as ([e this1] & Hcase & Hrun).
  injection Hrun as <- <-.
  apply deref_Ok in Hn as [Hnull Hn].
  destruct (lower_case_members _ _ _ _ _ _ _ _ Hcase) as (Heng & _ & Hsym).
  exists n. split_and!; try done.
  - intros Hk Hempty. unfold lower_case in Hcase. rewrite Hk in Hcase.
    destruct n as [| s | | |k cs]; try done. rewrite Hempty in Hcase.
    by rewrite lookup_empty in Hcase.
  - intros Hk. unfold lower_case in Hcase. rewrite Hk in Hcase.
    apply bind_Ok in Hcase as (c0 & Hc0 & Hcase).
    apply bind_Ok in Hcase as (s & Hs & _).
    unfold vector_at in Hc0. destruct (getChildren n !! 0%nat) as [c|] eqn:Hc; [|done].
    injection Hc0 as ->. unfold StringNode_getValue in Hs.
    apply bind_Ok in Hs as (n0 & Hn0 & Hs). apply deref_Ok in Hn0 as [_ Hn0].
    destruct n0; try done. eauto.
Qed.

Lemma lower_all_without_symbols umap_place heap engine visitVector m' this' :
  postordered heap engine visitVector →
  ∀ todo visited m this,
    visitVector = (visited ++ todo)%list →
    symbols this = ∅ →
    (∀ p n, p ∈ visited → heap !! p = Some n → getKind n ≠ STRING_NODE) →
    New.lower_all umap_place heap todo (m, this) = Ok (m', this') →
    symbols this' = ∅
    ∧ ∀ p n, p ∈ todo → heap !! p = Some n →
             getKind n ≠ STRING_NODE ∧ getKind n ≠ LET_NODE.
Proof.
  intros Hpost. unfold New.lower_all.
  induction todo as [|x todo IH]; intros visited m this Hsplit Hsym Hvisited; simpl.
  - intros [= <- <-]. split; [done|]. intros p n Hp. by apply elem_of_nil in Hp.
  - intros Hrun. apply bind_Ok in Hrun as ([m1 this1] & Hx & Hrun).
    destruct (lower_members _ _ _ _ _ _ _ _ Hx)
      as (n & Hnull & Hn & Heng & Hkeep & Hstring & Hlet).
    assert (getKind n ≠ STRING_NODE) as Hns by (intros Hk; by apply Hstring).
    assert (getKind n ≠ LET_NODE) as Hnl.
    { intros Hk. destruct (Hlet Hk) as (c0 & s & Hc0 & Hs).
      apply (Hvisited c0 (StringNode s)); [|done|done].
      apply (Hpost visited x todo n Hsplit Hn).
      destruct n; try done. simpl. by eapply list_elem_of_lookup_2. }
    destruct (IH (visited ++ [x])%list m1 this1) as (Hsym' & Htodo).
    { by rewrite <- app_assoc. }
    { by rewrite Hkeep. }
    { intros p n' Hp Hn'. apply elem_of_app in Hp as [Hp|Hp]; [by eapply Hvisited|].
      apply list_elem_of_singleton in Hp as ->. rewrite Hn in Hn'. by injection Hn' as <-. }
    { done. }
    split; [done|]. intros p n' Hp Hn'.
    apply elem_of_cons in Hp as [->|Hp]; [|by eapply Htodo].
    rewrite Hn in Hn'. by injection Hn' as <-.
Qed.

(** X16. A translator with an empty symbol table converts no AST that has a
    STRING or a LET node anywhere under the root, and a conversion that
    succeeds leaves the table empty. *)
Theorem convert_without_symbols umap_place fuel heap this root e this' :
  small_arity heap →
  symbols this = ∅ →
  New.convert umap_place fuel heap this root = Ok (e, this') →
  symbols this' = ∅
  ∧ ∀ p n, reached heap (symbolicEngine this) root p → heap !! p = Some n →
           getKind n ≠ STRING_NODE ∧ getKind n ≠ LET_NODE.
Proof.
  intros Hsmall Hsym. unfold New.convert. case_decide as Hnull; [done|].
  intros H. apply bind_Ok in H as (visit & Hvisit & H).
  apply bind_Ok in H as ([m this1] & Hrun & H).
  apply bind_Ok in H as (e' & _ & H). injection H as <- <-.
  unfold New.fillWorkStack in Hvisit.
  assert (postordered heap (symbolicEngine this) visit) as Hpost.
  { apply (fillWorkStack_loop_postordered _ _ _ _ _ _ Hsmall Hvisit).
    - intros l1 p l2 n Heq. by destruct l1.
    - simpl. split; [|done]. intros n _ j c Hj. lia. }
  destruct (lower_all_without_symbols umap_place heap (symbolicEngine this) visit m this1
              Hpost visit [] [] this eq_refl Hsym) as (Hsym' & Hkinds); [|done|].
  { intros p n Hp. by apply elem_of_nil in Hp. }
  pose proof (fillWorkStack_loop_last _ _ _ _ _ _ root Hvisit eq_refl) as [l Hl].
  assert (∀ q, reached heap (symbolicEngine this) root q → q ∈ visit) as Hin.
  { induction 1 as [|q nq c Hreach IH Hq Hc].
    - rewrite Hl. apply elem_of_app. right. left.
    - apply list_elem_of_split in IH as (l1 & l2 & Heq).
      rewrite Heq. apply elem_of_app. left. by apply (Hpost l1 q l2 nq). }
  split; [done|]. intros p n Hreach Hn. apply (Hkinds p n); [|done]. by apply Hin.
Qed.

Lemma getUintValue_Old_New e v :
  getUintValue Old e = Ok v → v = default 0 (Z3_get_numeral_uint64 e).
Proof.
  unfold getUintValue. destruct (negb (is_int e)); [done|]. by intros [= <-].
Qed.

#[local] Arguments getUintValue : simpl never.

Ltac step_bind H :=
  match type of H with
  | (getUintValue Old ?e ≫= _) = Ok _ =>
      let E := fresh in
      destruct (getUintValue Old e) eqn:E; simpl in H; try discriminate H;
      apply getUintValue_Old_New in E; subst;
      change (getUintValue New e) with (Ok (default 0 (Z3_get_numeral_uint64 e)));
      simpl
  | (?m ≫= _) = Ok _ =>
      destruct m; simpl in H; try discriminate H; simpl
  end.

(** Case by case: what the switch of the old file computes, the switch of
    the new file computes. *)
Lemma lower_case_Old_New heap node n m this r :
  lower_case Old heap node n m this = Ok r →
  lower_case New heap node n m this = Ok r.
Proof.
  intros Hcase. unfold lower_case in *.
  destruct n as [v|s|name id ev|expr|k cs]; try exact Hcase.
  destruct k; try exact Hcase; simpl getKind in *; cbv iota beta in *.
  - discriminate Hcase.
  - repeat step_bind Hcase. exact Hcase.
  - repeat step_bind Hcase. exact Hcase.
  - repeat step_bind Hcase. exact Hcase.
  - repeat step_bind Hcase. exact Hcase.
Qed.

(** X17. What the switch of the old file lowers, the switch of the new file
    lowers to the same result.  Not the other way round: on a BVUGT node
    the old file, which has no case for it, throws "Invalid kind of node",
    and the new file, when the first two children have their entries,
    stores the solver's bvugt of the two. *)
Theorem lower_Old_New umap_place heap node s :
  (∀ s', lower umap_place Old heap node s = Ok s' →
         lower umap_place New heap node s = Ok s')
  ∧ (∀ children, node ≠ nullptr →
       heap !! node = Some (OperatorNode BVUGT_NODE children) →
       lower umap_place Old heap node s
         = Throw (AstTranslations "TritonToZ3Ast::convert(): Invalid kind of node.")
       ∧ ∀ c0 c1 rest a b,
           children = c0 :: c1 :: rest →
           umap_find c0 s.1 = Some a → umap_find c1 s.1 = Some b →
           lower umap_place New heap node s
             = Ok (umap_emplace umap_place node (Z3_binary Z3_mk_bvugt a b) s.1,
                   (Z3_call node (Z3_binary Z3_mk_bvugt a b) s.2).2)).
Proof.
  destruct s as [m this]. unfold lower. split.
  - intros s' H.
    destruct (deref heap node) as [n| | |]; simpl in *; try discriminate H.
    destruct (lower_case Old heap node n m this) as [r| | |] eqn:Hcase;
      simpl in H; try discriminate H.
    by rewrite (lower_case_Old_New _ _ _ _ _ _ Hcase).
  - intros children Hnull Hn. rewrite (deref_live _ _ _ Hnull Hn). split; [reflexivity|].
    intros c0 c1 rest a b -> Ha Hb. simpl in Ha, Hb. simpl.
    unfold lower_case, umap_at. simpl. rewrite Ha. simpl. rewrite Hb. reflexivity.
Qed.

Lemma bool_loop_fold mk what node m cs vs cur this :
  Forall2 (λ c v, umap_find c m = Some v) cs vs →
  (for_each (λ c '(currentValue, this),
               nextValue ← umap_at m c;
               if negb (isBool nextValue) then Throw (AstTranslations what)
               else Ok (Z3_call node (mk currentValue nextValue) this))
            cs (cur, this) ≫= λ r, Ok r.1)
    = if forallb isBool vs then Ok (foldl mk cur vs) else Throw (AstTranslations what).
Proof.
  intros Hvs. revert cur this. induction Hvs as [|c v cs vs Hc _ IH]; intros cur this;
    simpl; [done|].
  unfold umap_at. rewrite Hc. simpl. destruct (isBool v); simpl; [|done].
  apply IH.
Qed.

Lemma concat_loop_fold node m cs vs cur this :
  Forall2 (λ c v, umap_find c m = Some v) cs vs →
  (for_each (λ c '(currentValue, this),
               nextValue ← umap_at m c;
               Ok (Z3_call node (Z3_mk_concat currentValue nextValue) this))
            cs (cur, this) ≫= λ r, Ok r.1)
    = Ok (foldl Z3_mk_concat cur vs).
Proof.
  intros Hvs. revert cur this. induction Hvs as [|c v cs vs Hc _ IH]; intros cur this;
    simpl; [done|].
  unfold umap_at. rewrite Hc. simpl. apply IH.
Qed.

(** X18. LAND, LOR and CONCAT over fewer than 2^32 operands that have their
    entries: the result is the left fold over the entries in the order of
    the children; for LAND and LOR provided every entry is boolean, and
    the exception of the case otherwise (LOR throws with the message of
    LNOT). *)
Theorem lower_case_folds rev heap node m this c0 cs v0 vs :
  N.of_nat (length (c0 :: cs)) < 2 ^ 32 →
  Forall2 (λ c v, umap_find c m = Some v) (c0 :: cs) (v0 :: vs) →
  (lower_case rev heap node (OperatorNode LAND_NODE (c0 :: cs)) m this ≫= λ r, Ok r.1)
    = (if forallb isBool (v0 :: vs) then Ok (foldl Z3_mk_and v0 vs)
       else Throw (AstTranslations land_message))
  ∧ (lower_case rev heap node (OperatorNode LOR_NODE (c0 :: cs)) m this ≫= λ r, Ok r.1)
    = (if forallb isBool (v0 :: vs) then Ok (foldl Z3_mk_or v0 vs)
       else Throw (AstTranslations lor_message))
  ∧ (lower_case rev heap node (OperatorNode CONCAT_NODE (c0 :: cs)) m this
       ≫= λ r, Ok r.1)
    = Ok (foldl Z3_mk_concat v0 vs).
Proof.
  intros _ Hall. apply Forall2_cons in Hall as [H0 Hvs].
  unfold lower_case, fold_bool, umap_at. simpl. rewrite H0. simpl.
  split_and!.
  - destruct (isBool v0); simpl; [|done]. rewrite drop_0.
    apply (bool_loop_fold Z3_mk_and _ node m cs vs v0 this Hvs).
  - destruct (isBool v0); simpl; [|done]. rewrite drop_0.
    apply (bool_loop_fold Z3_mk_or _ node m cs vs v0 this Hvs).
  - rewrite drop_0. apply (concat_loop_fold node m cs vs v0 this Hvs).
Qed.

Lemma lower_case_folds_witness :
  (lower_case New ∅ 7 (OperatorNode CONCAT_NODE [1; 2; 3])
     [(1, Z3_bv_val 170 8); (2, Z3_bv_val 187 8); (3, Z3_bv_val 204 8)]
     (ctor engine_empty false) ≫= λ r, Ok r.1)
    = Ok (Z3_mk_concat (Z3_mk_concat (Z3_bv_val 170 8) (Z3_bv_val 187 8))
            (Z3_bv_val 204 8))
  ∧ (lower_case New ∅ 7 (OperatorNode LAND_NODE [1; 2; 3])
     [(1, Z3_bv_val 170 8); (2, Z3_bv_val 187 8); (3, Z3_bv_val 204 8)]
     (ctor engine_empty false) ≫= λ r, Ok r.1)
    = Throw (AstTranslations land_message).
Proof.
  destruct (lower_case_folds New ∅ 7
              [(1, Z3_bv_val 170 8); (2, Z3_bv_val 187 8); (3, Z3_bv_val 204 8)]
              (ctor engine_empty false) 1 [2; 3]
              (Z3_bv_val 170 8) [Z3_bv_val 187 8; Z3_bv_val 204 8])
    as (Hland & _ & Hconcat).
  - reflexivity.
  - repeat constructor.
  - split; [exact Hconcat|exact Hland].
Defined.

Lemma postorder_rec_returns heap engine rank :
  traversable heap engine rank →
  ∀ depth p, p ≠ nullptr → is_Some (heap !! p) → (rank p < depth)%nat →
             ∃ l, postorder_rec depth heap engine p = Ok l.
Proof.
  intros Hwalk. induction depth as [|depth IH]; intros p Hnull [n Hn] Hrank; [lia|].
  simpl. rewrite (deref_live _ _ _ Hnull Hn). simpl.
  destruct (map_Forall_lookup_1 _ _ _ _ Hwalk Hn) as [Href Hdeps].
  rewrite Forall_forall in Hdeps.
  assert (∀ c, c ∈ dependencies engine n →
               ∃ l, postorder_rec depth heap engine c = Ok l) as Hsub.
  { intros c Hc. destruct (Hdeps c Hc) as (? & ? & ?). apply IH; [done|done|lia]. }
  assert (∃ below,
            for_each (λ c acc, l ← postorder_rec depth heap engine c; Ok (acc ++ l))
              (getChildren n) [] = Ok below) as [below ->].
  { assert (∀ c, c ∈ getChildren n → c ∈ dependencies engine n) as Hcs.
    { intros c Hc. destruct n; try done; by apply elem_of_nil in Hc. }
    revert Hcs. generalize (@nil N). generalize (getChildren n).
    intros cs. induction cs as [|c cs IHcs]; intros acc Hcs; simpl; [eauto|].
    destruct (Hsub c) as [l ->]; [apply Hcs; left|]. simpl.
    apply IHcs. intros c' Hc'. apply Hcs. by right. }
  simpl. case_decide as Hcase.
  - destruct Hcase as [Hk Hnil]. destruct (Href Hk Hnil) as [ast Hast].
    rewrite Hast. simpl. destruct (Hsub ast) as [l ->]; [|simpl; eauto].
    destruct n as [| | |expr|]; try done. simpl in *.
    destruct (symbolicExpressions engine !! expr); [|done].
    injection Hast as ->. left.
  - simpl. eauto.
Qed.

(** X14. On a DAG of live nodes [fillWorkStack] terminates, and its vector is
    the recursive post-order of the root. *)
Theorem fillWorkStack_terminates heap engine rank root :
  traversable heap engine rank → small_arity heap →
  root ≠ nullptr → is_Some (heap !! root) →
  ∃ steps visitVector,
    (∀ fuel, New.fillWorkStack (steps + fuel) heap engine root = Ok visitVector)
    ∧ postorder_rec (S (rank root)) heap engine root = Ok visitVector.
Proof.
  intros Hwalk Hsmall Hnull Hroot.
  destruct (postorder_rec_returns heap engine rank Hwalk (S (rank root)) root)
    as (l & Hl); [done|done|lia|].
  destruct (postorder_rec_runs heap engine _ Hsmall root l Hl) as (steps & Hsteps).
  exists steps, l. split; [|done]. intros fuel. unfold New.fillWorkStack.
  rewrite Hsteps. simpl. by destruct fuel.
Qed.

Lemma small_arity_heap_refs : small_arity heap_refs.
Proof. unfold small_arity. apply (bool_decide_unpack _). vm_compute. exact I. Qed.

Lemma traversable_heap_refs : traversable heap_refs engine_refs N.to_nat.
Proof.
  intros p n Hp. unfold heap_refs in Hp.
  repeat (apply lookup_insert_Some in Hp as [[<- <-]|[_ Hp]];
          [split; [intros Hk; try discriminate Hk; intros _; by eexists|];
           repeat constructor; try discriminate; try (vm_compute; eauto; fail);
           apply Nat.ltb_lt; reflexivity|]).
  apply lookup_singleton_Some in Hp as [<- <-].
  split; [intros Hk; discriminate Hk|].
  repeat constructor; try discriminate; try (vm_compute; eauto; fail);
    apply Nat.ltb_lt; reflexivity.
Qed.

Lemma fillWorkStack_postorder_witness :
  New.fillWorkStack 30 heap_refs engine_refs 96
    = Ok [16; 32; 48; 64; 16; 32; 48; 80; 96]
  ∧ postordered heap_refs engine_refs [16; 32; 48; 64; 16; 32; 48; 80; 96].
Proof.
  split; [vm_compute; reflexivity|].
  apply (fillWorkStack_postorder 30 heap_refs engine_refs 96).
  - apply small_arity_heap_refs.
  - vm_compute. reflexivity.
Defined.

Lemma fillWorkStack_visits_reached_witness :
  New.fillWorkStack 30 heap_refs engine_refs 96
    = Ok [16; 32; 48; 64; 16; 32; 48; 80; 96]
  ∧ ∀ p, p ∈ [16; 32; 48; 64; 16; 32; 48; 80; 96] ↔ reached heap_refs engine_refs 96 p.
Proof.
  split; [vm_compute; reflexivity|].
  destruct (fillWorkStack_visits_reached 30 heap_refs engine_refs 96
              [16; 32; 48; 64; 16; 32; 48; 80; 96]) as (_ & Hiff & _).
  - apply small_arity_heap_refs.
  - vm_compute. reflexivity.
  - exact Hiff.
Defined.

Lemma fillWorkStack_refines_postorder_rec_witness :
  ∃ steps, ∀ fuel,
    New.fillWorkStack (steps + fuel) heap_refs engine_refs 96
      = Ok [16; 32; 48; 64; 16; 32; 48; 80; 96].
Proof.
  apply (fillWorkStack_refines_postorder_rec 5 heap_refs engine_refs 96).
  - apply small_arity_heap_refs.
  - vm_compute. reflexivity.
Defined.

Lemma fillWorkStack_terminates_witness :
  ∃ steps visitVector,
    (∀ fuel, New.fillWorkStack (steps + fuel) heap_refs engine_refs 96 = Ok visitVector)
    ∧ postorder_rec (S (N.to_nat 96)) heap_refs engine_refs 96 = Ok visitVector.
Proof.
  apply (fillWorkStack_terminates heap_refs engine_refs N.to_nat 96).
  - apply traversable_heap_refs.
  - apply small_arity_heap_refs.
  - discriminate.
  - vm_compute. eauto.
Defined.

Lemma convert_without_symbols_witness :
  ∃ e this',
    New.convert (chained 13) 30 heap_refs (ctor engine_refs false) 96 = Ok (e, this')
    ∧ symbols this' = ∅.
Proof.
  eexists _, _. split; [vm_compute; reflexivity|].
  eapply (convert_without_symbols (chained 13) 30 heap_refs (ctor engine_refs false) 96).
  - apply small_arity_heap_refs.
  - reflexivity.
  - vm_compute. reflexivity.
Defined.

Lemma lower_Old_New_witness :
  (∃ s', lower (chained 13) Old heap_neg 16 ([], ctor engine_empty false) = Ok s'
         ∧ lower (chained 13) New heap_neg 16 ([], ctor engine_empty false) = Ok s')
  ∧ lower (chained 13) Old heap_ugt 64
      ([(48, Z3_bv_val 3 8)], ctor engine_empty false)
    = Throw (AstTranslations "TritonToZ3Ast::convert(): Invalid kind of node.")
  ∧ lower (chained 13) New heap_ugt 64
      ([(48, Z3_bv_val 3 8)], ctor engine_empty false)
    = Ok ([(64, Z3_binary Z3_mk_bvugt (Z3_bv_val 3 8) (Z3_bv_val 3 8));
           (48, Z3_bv_val 3 8)],
          (Z3_call 64 (Z3_binary Z3_mk_bvugt (Z3_bv_val 3 8) (Z3_bv_val 3 8))
             (ctor engine_empty false)).2).
Proof.
  split.
  - eexists. split; [vm_compute; reflexivity|].
    apply (proj1 (lower_Old_New (chained 13) heap_neg 16 ([], ctor engine_empty false))).
    vm_compute. reflexivity.
  - destruct (proj2 (lower_Old_New (chained 13) heap_ugt 64
                       ([(48, Z3_bv_val 3 8)], ctor engine_empty false))
                [48; 48]) as [Hold Hnew]; [done|reflexivity|].
    split; [exact Hold|].
    exact (Hnew 48 48 [] (Z3_bv_val 3 8) (Z3_bv_val 3 8) eq_refl eq_refl eq_refl).
Defined.

Lemma lower_domain umap_place rev heap node m this m' this' :
  lawful umap_place →
  lower umap_place rev heap node (m, this) = Ok (m', this') →
  ∀ p, is_Some (umap_find p m') ↔ is_Some (umap_find p m) ∨ p = node.
Proof.
  intros Hlaw Hrun. unfold lower in Hrun.
  apply bind_Ok in Hrun as (n & Hn & Hrun).
  apply bind_Ok in Hrun as ([e this1] & Hcase & Hrun).
  injection Hrun as <- <-. intros p.
  rewrite umap_emplace_find by done.
  destruct (umap_find p m) as [v|]; [split; eauto|].
  case_decide as Hp.
  - split; eauto.
  - split; [by intros [? ?]|]. intros [[? ?]|?]; done.
Qed.

Lemma lower_all_domain umap_place heap visitVector m this m' this' :
  lawful umap_place →
  New.lower_all umap_place heap visitVector (m, this) = Ok (m', this') →
  ∀ p, is_Some (umap_find p m') ↔ is_Some (umap_find p m) ∨ p ∈ visitVector.
Proof.
  intros Hlaw. unfold New.lower_all.
  revert m this. induction visitVector as [|x visit IH]; intros m this; simpl.
  - intros [= <- <-] p. split; [eauto|]. intros [?|Hp]; [done|].
    by apply elem_of_nil in Hp.
  - intros Hrun. apply bind_Ok in Hrun as ([m1 this1] & Hx & Hrun).
    intros p. rewrite (IH _ _ Hrun p).
    rewrite (lower_domain _ _ _ _ _ _ _ _ Hlaw Hx p), elem_of_cons.
    tauto.
Qed.

(** X19. When [convert] reaches its return, the memo has an entry for the
    root and for every node reached from it through children and
    references, and for no other node. *)
Theorem convert_memo_domain umap_place fuel heap this root m :
  lawful umap_place →
  small_arity heap →
  New.convert_memo umap_place fuel heap this root = Ok m →
  ∀ p, is_Some (umap_find p m) ↔ reached heap (symbolicEngine this) root p.
Proof.
  intros Hlaw Hsmall. unfold New.convert_memo. case_decide as Hnull; [done|].
  intros H. apply bind_Ok in H as (visit & Hvisit & H).
  apply bind_Ok in H as ([m1 this1] & Hrun & H). injection H as <-.
  intros p. rewrite (lower_all_domain _ _ _ _ _ _ _ Hlaw Hrun p).
  unfold New.fillWorkStack in Hvisit.
  assert (postordered heap (symbolicEngine this) visit) as Hpost.
  { apply (fillWorkStack_loop_postordered _ _ _ _ _ _ Hsmall Hvisit).
    - intros l1 q l2 n Heq. by destruct l1.
    - simpl. split; [|done]. intros n _ j c Hj. lia. }
  pose proof (fillWorkStack_loop_last _ _ _ _ _ _ root Hvisit eq_refl) as [l Hl].
  split.
  - intros [[v Hv]|Hp]; [done|].
    apply (fillWorkStack_loop_reached _ _ _ root _ _ _ Hvisit); [| |done].
    + intros q i Hq. apply list_elem_of_singleton in Hq as [= -> ->]. constructor.
    + intros q Hq. by apply elem_of_nil in Hq.
  - intros Hp. right. induction Hp as [|q n c Hreach IH Hn Hc].
    + rewrite Hl. apply elem_of_app. right. left.
    + apply list_elem_of_split in IH as (l1 & l2 & Heq).
      rewrite Heq. apply elem_of_app. left. by apply (Hpost l1 q l2 n).
Qed.

Lemma convert_memo_domain_witness :
  ∃ m, New.convert_memo (chained 13) 30 heap_refs (ctor engine_refs false) 96 = Ok m
       ∧ ∀ p, is_Some (umap_find p m)
              ↔ reached heap_refs (symbolicEngine (ctor engine_refs false)) 96 p.
Proof.
  eexists. split; [vm_compute; reflexivity|].
  apply (convert_memo_domain (chained 13) 30 heap_refs (ctor engine_refs false) 96).
  - apply chained_lawful.
  - apply small_arity_heap_refs.
  - vm_compute. reflexivity.
Defined.

Lemma children_dependencies engine n c :
  c ∈ getChildren n → c ∈ dependencies engine n.
Proof. destruct n; try done. simpl. intros Hc. by apply elem_of_nil in Hc. Qed.

Lemma right_child_is_child (c : N) (l : list N) : c ∈ drop 1 l → c ∈ l.
Proof. destruct l as [|x l]; simpl; [done|]. rewrite drop_0. by right. Qed.

Lemma dag_dependency heap engine rank p n c :
  dag heap engine rank → heap !! p = Some n → c ∈ dependencies engine n →
  c ≠ nullptr ∧ (rank c < rank p)%nat.
Proof.
  intros Hdag Hp Hc. specialize (Hdag p n Hp). simpl in Hdag.
  rewrite Forall_forall in Hdag. by apply Hdag.
Qed.

Lemma NodeHasRightChild_Ok heap node child b :
  Old.NodeHasRightChild heap node child = Ok b →
  ∃ n, heap !! node = Some n ∧ (b = true ↔ child ∈ drop 1 (getChildren n)).
Proof.
  unfold Old.NodeHasRightChild. intros H. apply bind_Ok in H as (n & Hn & H).
  apply deref_Ok in Hn as [_ Hn]. injection H as <-. exists n. split; [done|].
  apply bool_decide_eq_true.
Qed.

Lemma frames_stack_app frames1 frames2 :
  frames_stack (frames1 ++ frames2) = (frames_stack frames1 ++ frames_stack frames2)%list.
Proof. unfold frames_stack. by rewrite map_app, concat_app. Qed.

Lemma frames_ok_app heap engine root memo above frames1 node frames2 :
  frames_ok heap engine root memo above frames1 →
  last (map fst frames1) = Some node →
  frames_ok heap engine root memo (Some node) frames2 →
  frames_ok heap engine root memo above (frames1 ++ frames2).
Proof.
  revert above. induction frames1 as [|[y todo] frames1 IH]; intros above; [done|].
  simpl. intros [Hy Hrest] Hlast Hframes2. split; [done|].
  destruct frames1 as [|f frames1].
  - simpl in Hlast. by injection Hlast as ->.
  - apply IH; done.
Qed.

Lemma frames_ok_mono heap engine root memo memo' above frames :
  (∀ c, is_Some (umap_find c memo) → is_Some (umap_find c memo')) →
  frames_ok heap engine root memo above frames →
  frames_ok heap engine root memo' above frames.
Proof.
  intros Hmono. revert above.
  induction frames as [|[y todo] frames IH]; intros above; [done|].
  simpl. intros [(Hy & n & Hn & Habove & Htodo & Hdeps) Hrest].
  split; [|by apply IH]. split; [done|]. exists n. split_and!; try done.
  intros c Hc. destruct (Hdeps c Hc) as [?|[?|?]]; eauto.
Qed.

Lemma frames_ok_lowered heap engine root memo memo' x frames :
  (∀ c, is_Some (umap_find c memo) → is_Some (umap_find c memo')) →
  is_Some (umap_find x memo') →
  frames_ok heap engine root memo (Some x) frames →
  frames_ok heap engine root memo' None frames.
Proof.
  intros Hmono Hx. destruct frames as [|[y todo] frames]; [done|].
  simpl. intros [(Hy & n & Hn & Habove & Htodo & Hdeps) Hrest].
  split; [|by eapply frames_ok_mono]. split; [done|]. exists n.
  split_and!; try done.
  intros c Hc. destruct (Hdeps c Hc) as [?|[[= ->]|?]]; eauto.
Qed.

(** What the inner loop pushes: a frame for the node and one for each node
    down the chain of first children and referenced expressions. *)
Lemma Old_descend_frames heap engine rank root memo fuel node workStack workStack' :
  dag heap engine rank →
  node ≠ nullptr →
  reached heap engine root node →
  Old.descend fuel heap engine node workStack = Ok workStack' →
  ∃ frames,
    workStack' = (frames_stack frames ++ workStack)%list
    ∧ last (map fst frames) = Some node
    ∧ frames_ok heap engine root memo None frames.
Proof.
  intros Hdag. revert node workStack.
  induction fuel as [|fuel IH]; intros node ws Hnull Hreach; simpl;
    rewrite decide_False by done; [done|].
  intros Hrun. apply bind_Ok in Hrun as (n & Hn & Hrun).
  apply deref_Ok in Hn as [_ Hn].
  apply bind_Ok in Hrun as (next & Hnext & Hrun).
  assert (dependencies engine n = next :: drop 1 (getChildren n)
          ∨ next = nullptr ∧ dependencies engine n = []) as Hdeps.
  { destruct (getChildren n) as [|c0 cs] eqn:Hcs.
    - case_decide as Href.
      + left. destruct n as [| | |expr|]; try done. simpl in *.
        destruct (symbolicExpressions engine !! expr); [|done].
        by injection Hnext as ->.
      + right. injection Hnext as <-. split; [done|].
        by destruct n.
    - left. injection Hnext as <-. by destruct n. }
  assert (Forall (λ q, q ∈ drop 1 (getChildren n)) (rev (drop 1 (getChildren n))))
    as Htodo.
  { apply Forall_forall. intros q Hq.
    by apply list_elem_of_In, in_rev, list_elem_of_In in Hq. }
  destruct Hdeps as [Hdeps|[-> Hdeps]].
  - assert (next ∈ dependencies engine n) as Hin by (rewrite Hdeps; left).
    destruct (dag_dependency _ _ _ _ _ _ Hdag Hn Hin) as [Hnext_null _].
    assert (reached heap engine root next) as Hreach' by by eapply reached_step.
    destruct (IH _ _ Hnext_null Hreach' Hrun) as (frames & -> & Hlast & Hok).
    exists (frames ++ [(node, rev (drop 1 (getChildren n)))])%list.
    split_and!.
    + rewrite frames_stack_app, <- app_assoc. f_equal.
      unfold frames_stack. simpl. by rewrite app_nil_r.
    + rewrite map_app. simpl. by rewrite last_snoc.
    + eapply frames_ok_app; [exact Hok|exact Hlast|]. simpl. split; [|done].
      split; [done|]. exists n. split_and!; try done.
      * by intros a [= <-].
      * intros c Hc. rewrite Hdeps in Hc. apply elem_of_cons in Hc as [->|Hc]; [eauto|].
        left. by apply list_elem_of_In, (proj1 (in_rev _ _)), list_elem_of_In.
  - exists [(node, rev (drop 1 (getChildren n)))].
    split_and!.
    + unfold frames_stack. simpl. rewrite app_nil_r.
      destruct fuel; simpl in Hrun; by injection Hrun as <-.
    + done.
    + simpl. split; [|done]. split; [done|]. exists n. split_and!; try done.
      intros c Hc. rewrite Hdeps in Hc. by apply elem_of_nil in Hc.
Qed.

(** The loop of the old file on a DAG: a node is lowered when its
    dependencies have their entries, and the root is lowered last; what
    every lowering keeps, the loop keeps. *)
Lemma Old_convert_loop_invariant umap_place heap engine rank root
    (P : list (N * Z3_ast) * t → Prop) :
  lawful umap_place →
  dag heap engine rank →
  root ≠ nullptr →
  (∀ x n s s', reached heap engine root x → heap !! x = Some n → P s →
               lower umap_place Old heap x s = Ok s' → P s') →
  ∀ fuel node frames m this m' this',
    P (m, this) →
    symbolicEngine this = engine →
    closed heap engine m →
    frames_ok heap engine root m
      (if decide (node = nullptr) then None else Some node) frames →
    (node ≠ nullptr → reached heap engine root node) →
    match frames with
    | [] => node = root
    | _ => last (map fst frames) = Some root
    end →
    Old.convert_loop umap_place fuel heap node (frames_stack frames) (m, this)
      = Ok (m', this') →
    P (m', this')
    ∧ is_Some (umap_find root m')
    ∧ closed heap engine m'
    ∧ ∀ p, is_Some (umap_find p m') →
           is_Some (umap_find p m) ∨ reached heap engine root p.
Proof.
  intros Hlaw Hdag Hroot Hstep.
  induction fuel as [|fuel IH];
    intros node frames m this m' this' HP Heng Hclosed Hok Hreach Hlast; simpl;
    [done|].
  intros H. apply bind_Ok in H as (ws1 & Hdescend & H). rewrite Heng in Hdescend.
  assert (∃ frames1,
            ws1 = frames_stack frames1
            ∧ frames_ok heap engine root m None frames1
            ∧ last (map fst frames1) = Some root)
    as (frames1 & -> & Hok1 & Hlast1).
  { destruct (decide (node = nullptr)) as [->|Hnull].
    - exists frames. destruct fuel; simpl in Hdescend; injection Hdescend as <-;
        (split_and!; [done|done|]); by destruct frames.
    - destruct (Old_descend_frames _ _ _ root m _ _ _ _ Hdag Hnull (Hreach Hnull) Hdescend)
        as (new & -> & Hnew & Hoknew).
      exists (new ++ frames)%list. split_and!.
      + by rewrite frames_stack_app.
      + by eapply frames_ok_app.
      + rewrite map_app. destruct frames as [|f frames].
        * simpl. rewrite app_nil_r. by rewrite Hlast in Hnew.
        * rewrite last_app. by rewrite Hlast. }
  assert (∀ x n m1 this1 m2 this2,
            reached heap engine root x → heap !! x = Some n →
            (∀ c, c ∈ dependencies engine n → is_Some (umap_find c m1)) →
            closed heap engine m1 →
            P (m1, this1) →
            lower umap_place Old heap x (m1, this1) = Ok (m2, this2) →
            P (m2, this2)
            ∧ symbolicEngine this2 = symbolicEngine this1
            ∧ is_Some (umap_find x m2)
            ∧ (∀ c, is_Some (umap_find c m1) → is_Some (umap_find c m2))
            ∧ closed heap engine m2
            ∧ ∀ p, is_Some (umap_find p m2) →
                   is_Some (umap_find p m1) ∨ reached heap engine root p) as Hlower.
  { intros x n m1 this1 m2 this2 Hx Hn Hdeps Hcl HP1 Hrun.
    destruct (lower_members _ _ _ _ _ _ _ _ Hrun) as (_ & _ & _ & Hsame & _).
    pose proof (lower_domain _ _ _ _ _ _ _ _ Hlaw Hrun) as Hdom.
    split_and!; [by eapply Hstep|done| | | |].
    - apply Hdom. by right.
    - intros c Hc. apply Hdom. by left.
    - intros p np c Hp Hnp Hc. apply Hdom. left.
      apply Hdom in Hp as [Hp| ->]; [by eapply Hcl|].
      rewrite Hn in Hnp. injection Hnp as <-. by apply Hdeps.
    - intros p Hp. apply Hdom in Hp as [?| ->]; eauto. }
  destruct frames1 as [|[x todo] frames2]; [done|].
  simpl in Hok1. destruct Hok1 as [(Hx & n & Hn & _ & Htodo & Hdeps) Hok2].
  unfold frames_stack in H. simpl in H. fold (frames_stack frames2) in H.
  destruct todo as [|top todo]; simpl in H.
  - (* every right child of [x] is done *)
    assert (∀ c, c ∈ dependencies engine n → is_Some (umap_find c m)) as Hdone.
    { intros c Hc. destruct (Hdeps c Hc) as [Hin|[?|?]]; [|done|done].
      by apply elem_of_nil in Hin. }
    destruct frames2 as [|[y ytodo] frames3].
    + unfold frames_stack in H. simpl in H.
      apply bind_Ok in H as ([m1 this1] & Hrun & H). injection H as <- <-.
      simpl in Hlast1. injection Hlast1 as ->.
      destruct (Hlower _ _ _ _ _ _ Hx Hn Hdone Hclosed HP Hrun)
        as (? & _ & ? & _ & ? & ?).
      done.
    + unfold frames_stack in H. simpl in H.
      fold (frames_stack frames3) in H.
      apply bind_Ok in H as (swap & Hswap & H).
      apply NodeHasRightChild_Ok in Hswap as (n' & Hn' & Hb).
      rewrite Hn in Hn'. injection Hn' as <-.
      simpl in Hok2. destruct Hok2 as [(Hy & ny & Hny & Habove & Hok2) Hok3].
      destruct swap.
      * assert (y ∈ drop 1 (getChildren n)) as Hyx by by apply Hb.
        apply right_child_is_child, (children_dependencies engine) in Hyx.
        destruct (dag_dependency _ _ _ _ _ _ Hdag Hn Hyx) as [_ Hlt1].
        destruct (dag_dependency _ _ _ _ _ _ Hdag Hny (Habove x eq_refl)) as [_ Hlt2].
        lia.
      * apply bind_Ok in H as ([m1 this1] & Hrun & H).
        destruct (Hlower _ _ _ _ _ _ Hx Hn Hdone Hclosed HP Hrun)
          as (HP1 & Heng1 & Hxdone & Hmono & Hclosed1 & Hdom).
        change (y :: ytodo ++ frames_stack frames3)
          with (frames_stack ((y, ytodo) :: frames3)) in H.
        apply IH in H.
        -- destruct H as (HP' & Hsome & Hcl & Honly). split_and!; [done|done|done|].
           intros p Hp. destruct (Honly p Hp) as [Hp1|?]; [|by right]. by apply Hdom.
        -- done.
        -- by rewrite Heng1.
        -- done.
        -- rewrite decide_True by done.
           eapply frames_ok_lowered; [exact Hmono|exact Hxdone|].
           simpl. split; [|done]. split; [done|]. by exists ny.
        -- done.
        -- done.
  - (* a right child of [x] is still to do: it goes first *)
    apply bind_Ok in H as (swap & Hswap & H).
    apply NodeHasRightChild_Ok in Hswap as (n' & Hn' & Hb).
    rewrite Hn in Hn'. injection Hn' as <-.
    apply Forall_cons in Htodo as [Htop Htodo].
    rewrite (proj2 Hb Htop) in H.
    change (x :: todo ++ frames_stack frames2)
      with (frames_stack ((x, todo) :: frames2)) in H.
    pose proof (children_dependencies engine _ _ (right_child_is_child _ _ Htop))
      as Htop'.
    destruct (dag_dependency _ _ _ _ _ _ Hdag Hn Htop') as [Htop_null _].
    apply IH in H; try done.
    + rewrite decide_False by done. simpl. split; [|done]. split; [done|].
      exists n. split_and!; try done.
      * by intros a [= <-].
      * intros c Hc. destruct (Hdeps c Hc) as [Hin|[?|?]]; [|done|eauto].
        apply elem_of_cons in Hin as [->|?]; eauto.
    + intros _. by eapply reached_step.
Qed.

(** A run of cases over a sequence of nodes, in either file: no element is
    skipped. *)
Lemma for_each_lower_every_appearance umap_place rev heap visitVector m this m' this' :
  lawful umap_place →
  for_each (lower umap_place rev heap) visitVector (m, this) = Ok (m', this') →
  (∀ node n, heap !! node = Some n →
     lowerings node this'
       = (lowerings node this + solver_calls n * appearances node visitVector)%nat)
  ∧ (∀ node v, umap_find node m = Some v → umap_find node m' = Some v)
  ∧ (∀ node, node ∈ visitVector → is_Some (umap_find node m')).
Proof.
  intros Hlaw. revert m this.
  induction visitVector as [|x visit IH]; intros m this; simpl.
  - intros [= <- <-]. split_and!; [|done|].
    + intros node n _. change (appearances node []) with 0%nat. lia.
    + intros node Hnode. by apply elem_of_nil in Hnode.
  - intros Hrun. apply bind_Ok in Hrun as ([m1 this1] & Hx & Hrun).
    apply (lower_spec _ _ _ _ _ _ _ _ Hlaw) in Hx
      as (nx & _ & Hnx & Hcalls & Hkeep & Hsome).
    destruct (IH _ _ Hrun) as (Hcount & Hkeep' & Hall).
    split_and!.
    + intros node n Hn. rewrite (Hcount node n Hn). unfold lowerings.
      rewrite Hcalls, appearances_app, appearances_replicate, appearances_cons.
      case_decide as Heq; [|lia]. subst x. rewrite Hnx in Hn. injection Hn as ->. lia.
    + intros node v Hv. by apply Hkeep', Hkeep.
    + intros node Hnode. apply elem_of_cons in Hnode as [->|Hnode]; [|by apply Hall].
      destruct Hsome as [v Hv]. exists v. by apply Hkeep'.
Qed.

(** The loop of the old [convert] is its traversal with the case of the
    switch run on every node of the sequence, in order. *)
Lemma Old_convert_loop_visit umap_place fuel heap node workStack m this s' :
  Old.convert_loop umap_place fuel heap node workStack (m, this) = Ok s'
  ↔ ∃ visitVector,
      Old_visit_loop fuel heap (symbolicEngine this) node workStack = Ok visitVector
      ∧ for_each (lower umap_place Old heap) visitVector (m, this) = Ok s'.
Proof.
  revert node workStack m this.
  induction fuel as [|fuel IH]; intros node ws m this; simpl.
  - split; [done|]. by intros (v & ? & _).
  - destruct (Old.descend fuel heap (symbolicEngine this) node ws)
      as [ws1| | |]; simpl; try (split; [done|by intros (v & ? & _)]).
    destruct ws1 as [|x ws1]; [split; [done|by intros (v & ? & _)]|].
    destruct (match ws1 with
              | [] => Ok false
              | top :: _ => Old.NodeHasRightChild heap x top
              end) as [swap| | |]; simpl; try (split; [done|by intros (v & ? & _)]).
    destruct swap.
    + destruct ws1 as [|temp ws1]; [split; [done|by intros (v & ? & _)]|].
      apply IH.
    + destruct ws1 as [|next ws1].
      * split.
        -- intros H. exists [x]. split; [done|]. simpl.
           destruct (lower umap_place Old heap x (m, this)); done.
        -- intros (v & [= <-] & H). simpl in H.
           destruct (lower umap_place Old heap x (m, this)); done.
      * split.
        -- intros H. apply bind_Ok in H as ([m1 this1] & Hx & H).
           destruct (lower_members _ _ _ _ _ _ _ _ Hx) as (_ & _ & _ & Heng & _).
           apply IH in H as (rest & Hrest & Hrun). rewrite Heng in Hrest.
           exists (x :: rest). rewrite Hrest. simpl. split; [done|].
           rewrite Hx. simpl. done.
        -- intros (v & Hv & H).
           apply bind_Ok in Hv as (rest & Hrest & Hv). injection Hv as <-.
           simpl in H. apply bind_Ok in H as ([m1 this1] & Hx & H).
           destruct (lower_members _ _ _ _ _ _ _ _ Hx) as (_ & _ & _ & Heng & _).
           rewrite Hx. simpl. apply IH. exists rest. by rewrite Heng.
Qed.

(** The old file: the same, over the sequence of its traversal. *)
Lemma Old_convert_lowers_every_appearance umap_place fuel heap this root e this' :
  lawful umap_place →
  Old.convert umap_place fuel heap this root = Ok (e, this') →
  ∃ visitVector m,
    Old_visit_loop fuel heap (symbolicEngine this) root [] = Ok visitVector
    ∧ for_each (lower umap_place Old heap) visitVector ([], this) = Ok (m, this')
    ∧ Old.convert_memo umap_place fuel heap this root = Ok m
    ∧ (∀ node n, heap !! node = Some n →
         lowerings node this'
           = (lowerings node this + solver_calls n * appearances node visitVector)%nat)
    ∧ (∀ node, node ∈ visitVector → is_Some (umap_find node m))
    ∧ (∀ visited rest m1 this1,
         visitVector = (visited ++ rest)%list →
         for_each (lower umap_place Old heap) visited ([], this) = Ok (m1, this1) →
         ∀ node v, umap_find node m1 = Some v → umap_find node m = Some v).
Proof.
  intros Hlaw. unfold Old.convert, Old.convert_memo. case_decide as Hnull; [done|].
  intros H. apply bind_Ok in H as ([m this1] & Hloop & H).
  apply bind_Ok in H as (e' & He & H). injection H as <- <-.
  rewrite Hloop. simpl.
  apply Old_convert_loop_visit in Hloop as (visit & Hvisit & Hrun).
  exists visit, m. split_and!; [done|done|done| | |].
  - by apply (for_each_lower_every_appearance _ _ _ _ _ _ _ _ Hlaw Hrun).
  - by apply (for_each_lower_every_appearance _ _ _ _ _ _ _ _ Hlaw Hrun).
  - intros visited rest m1 this0 -> Hvisited node v Hv.
    rewrite for_each_app, Hvisited in Hrun. simpl in Hrun.
    by apply (for_each_lower_every_appearance _ _ _ _ _ _ _ _ Hlaw Hrun).
Qed.




Lemma traversable_dag heap engine rank :
  traversable heap engine rank → dag heap engine rank.
Proof.
  intros Htrav p n Hp. destruct (Htrav p n Hp) as [_ Hdeps]. simpl.
  eapply Forall_impl; [exact Hdeps|]. simpl. intros c (? & _ & ?). done.
Qed.


Lemma umap_at_mono m1 m2 c v :
  (∀ k v, umap_find k m1 = Some v → umap_find k m2 = Some v) →
  umap_at m1 c = Ok v → umap_at m2 c = Ok v.
Proof.
  intros Hsub. unfold umap_at. destruct (umap_find c m1) as [v'|] eqn:Hc; [|done].
  intros [= <-]. by rewrite (Hsub _ _ Hc).
Qed.

Lemma bool_loop_mono mk what node m1 m2 cs cur this1 this2 e this1' :
  (∀ k v, umap_find k m1 = Some v → umap_find k m2 = Some v) →
  for_each (λ c '(currentValue, this),
              nextValue ← umap_at m1 c;
              if negb (isBool nextValue) then Throw (AstTranslations what)
              else Ok (Z3_call node (mk currentValue nextValue) this))
           cs (cur, this1) = Ok (e, this1') →
  ∃ this2',
    for_each (λ c '(currentValue, this),
                nextValue ← umap_at m2 c;
                if negb (isBool nextValue) then Throw (AstTranslations what)
                else Ok (Z3_call node (mk currentValue nextValue) this))
             cs (cur, this2) = Ok (e, this2').
Proof.
  intros Hsub. revert cur this1 this2.
  induction cs as [|c cs IH]; intros cur this1 this2; simpl.
  - intros [= <- <-]. eauto.
  - intros H. apply bind_Ok in H as ([cur' this'] & Hc & H).
    apply bind_Ok in Hc as (v & Hv & Hc).
    rewrite (umap_at_mono _ _ _ _ Hsub Hv). simpl.
    destruct (negb (isBool v)); [done|]. injection Hc as <- <-. simpl.
    by eapply IH.
Qed.

Lemma concat_loop_mono node m1 m2 cs cur this1 this2 e this1' :
  (∀ k v, umap_find k m1 = Some v → umap_find k m2 = Some v) →
  for_each (λ c '(currentValue, this),
              nextValue ← umap_at m1 c;
              Ok (Z3_call node (Z3_mk_concat currentValue nextValue) this))
           cs (cur, this1) = Ok (e, this1') →
  ∃ this2',
    for_each (λ c '(currentValue, this),
                nextValue ← umap_at m2 c;
                Ok (Z3_call node (Z3_mk_concat currentValue nextValue) this))
             cs (cur, this2) = Ok (e, this2').
Proof.
  intros Hsub. revert cur this1 this2.
  induction cs as [|c cs IH]; intros cur this1 this2; simpl.
  - intros [= <- <-]. eauto.
  - intros H. apply bind_Ok in H as ([cur' this'] & Hc & H).
    apply bind_Ok in Hc as (v & Hv & Hc).
    rewrite (umap_at_mono _ _ _ _ Hsub Hv). simpl.
    injection Hc as <- <-. simpl. by eapply IH.
Qed.

(** The expression a case computes depends on the memo only through the
    entries it reads, and on the translator only through its engine, its
    mode and its symbol table. *)
Lemma lower_case_mono rev heap node n m1 m2 this1 this2 e this1' :
  (∀ k v, umap_find k m1 = Some v → umap_find k m2 = Some v) →
  symbolicEngine this1 = symbolicEngine this2 →
  isEval this1 = isEval this2 →
  symbols this1 = symbols this2 →
  lower_case rev heap node n m1 this1 = Ok (e, this1') →
  ∃ this2', lower_case rev heap node n m2 this2 = Ok (e, this2').
Proof.
  intros Hsub Heng Heval Hsym H.
  destruct this1 as [eng1 ev1 sym1 ctx1], this2 as [eng2 ev2 sym2 ctx2].
  simpl in Heng, Heval, Hsym. subst eng2 ev2 sym2.
  pose proof (λ c v, umap_at_mono m1 m2 c v Hsub) as Hat.
  unfold lower_case, fold_bool in *.
  destruct n as [v|s|name id ev|expr|k cs]; [| | | |destruct k, rev];
    simpl getKind in *; cbv iota beta in *;
    inv_lower H; subst; simpl;
    repeat match goal with
           | E : umap_at m1 _ = Ok _ |- _ => apply Hat in E
           end;
    repeat match goal with
           | E : ?l = _ |- context [?l] => rewrite E; simpl
           end;
    try (eexists; reflexivity).
  all: first [ by eapply bool_loop_mono | by eapply concat_loop_mono ].
Qed.

Lemma fillWorkStack_members fuel heap engine root visitVector :
  small_arity heap →
  New.fillWorkStack fuel heap engine root = Ok visitVector →
  ∀ p, p ∈ visitVector ↔ reached heap engine root p.
Proof.
  intros Hsmall Hvisit. unfold New.fillWorkStack in Hvisit.
  assert (postordered heap engine visitVector) as Hpost.
  { apply (fillWorkStack_loop_postordered _ _ _ _ _ _ Hsmall Hvisit).
    - intros l1 q l2 n Heq. by destruct l1.
    - simpl. split; [|done]. intros n _ j c Hj. lia. }
  pose proof (fillWorkStack_loop_last _ _ _ _ _ _ root Hvisit eq_refl) as [l Hl].
  intros p. split.
  - intros Hp.
    apply (fillWorkStack_loop_reached _ _ _ root _ _ _ Hvisit); [| |done].
    + intros q i Hq. apply list_elem_of_singleton in Hq as [= -> ->]. constructor.
    + intros q Hq. by apply elem_of_nil in Hq.
  - induction 1 as [|q n c Hreach IH Hn Hc].
    + rewrite Hl. apply elem_of_app. right. left.
    + apply list_elem_of_split in IH as (l1 & l2 & Heq).
      rewrite Heq. apply elem_of_app. left. by apply (Hpost l1 q l2 n).
Qed.

(** One lowering that is not of a LET keeps the memo justified. *)
Lemma lower_justified umap_place rev heap this0 x m this m' this' :
  lawful umap_place →
  (∀ n, heap !! x = Some n → getKind n ≠ LET_NODE) →
  justified rev heap this0 m →
  symbolicEngine this = symbolicEngine this0 →
  isEval this = isEval this0 →
  symbols this = symbols this0 →
  lower umap_place rev heap x (m, this) = Ok (m', this') →
  justified rev heap this0 m'
  ∧ symbolicEngine this' = symbolicEngine this0
  ∧ isEval this' = isEval this0
  ∧ symbols this' = symbols this0.
Proof.
  intros Hlaw Hlet Hjust Heng Heval Hsym Hrun.
  pose proof (lower_spec _ _ _ _ _ _ _ _ Hlaw Hrun) as (_ & _ & _ & _ & Hkeep & _).
  unfold lower in Hrun.
  apply bind_Ok in Hrun as (n & Hn & Hrun).
  apply bind_Ok in Hrun as ([e this1] & Hcase & Hrun).
  injection Hrun as <- <-. apply deref_Ok in Hn as [_ Hn].
  destruct (lower_case_members _ _ _ _ _ _ _ _ Hcase) as (Heng1 & Heval1 & Hsym1).
  split_and!.
  - intros y v ny Hy Hny. rewrite umap_emplace_find in Hy by done.
    destruct (umap_find y m) as [v'|] eqn:Hym.
    + injection Hy as <-. destruct (Hjust y v' ny Hym Hny) as [t Ht].
      by eapply (lower_case_mono _ _ _ _ m _ this0 this0).
    + case_decide as Hyx; [|done]. injection Hy as <-. subst y.
      rewrite Hn in Hny. injection Hny as <-.
      by eapply (lower_case_mono _ _ _ _ m _ this this0).
  - congruence.
  - congruence.
  - rewrite Hsym1; [done|]. by apply Hlet.
Qed.

Lemma lower_all_justified umap_place heap this0 visitVector m this m' this' :
  lawful umap_place →
  (∀ p n, p ∈ visitVector → heap !! p = Some n → getKind n ≠ LET_NODE) →
  justified New heap this0 m →
  symbolicEngine this = symbolicEngine this0 →
  isEval this = isEval this0 →
  symbols this = symbols this0 →
  New.lower_all umap_place heap visitVector (m, this) = Ok (m', this') →
  justified New heap this0 m'.
Proof.
  intros Hlaw. unfold New.lower_all.
  revert m this. induction visitVector as [|x visit IH]; intros m this; simpl.
  - intros _ Hjust _ _ _ [= <- <-]. done.
  - intros Hlet Hjust Heng Heval Hsym Hrun.
    apply bind_Ok in Hrun as ([m1 this1] & Hx & Hrun).
    destruct (lower_justified umap_place New heap this0 x m this m1 this1 Hlaw)
      as (Hjust1 & Heng1 & Heval1 & Hsym1); try done.
    { intros n. apply Hlet. left. }
    apply (IH m1 this1); try done.
    intros p n Hp. apply Hlet. by right.
Qed.

(** X21. The two files agree: on a DAG with no LET node under the root,
    when the old [convert] and the new [convert] both reach their return,
    whatever the hash tables, their memos hold the same entry for every
    node. *)
Theorem convert_memo_Old_New place1 place2 fuel1 fuel2 heap rank this root mO mN :
  lawful place1 → lawful place2 →
  small_arity heap →
  dag heap (symbolicEngine this) rank →
  (∀ p n, reached heap (symbolicEngine this) root p → heap !! p = Some n →
          getKind n ≠ LET_NODE) →
  Old.convert_memo place1 fuel1 heap this root = Ok mO →
  New.convert_memo place2 fuel2 heap this root = Ok mN →
  ∀ p, umap_find p mO = umap_find p mN.
Proof.
  intros Hlaw1 Hlaw2 Hsmall Hdag Hlet HO HN.
  (* the new file *)
  unfold New.convert_memo in HN. case_decide as Hnull; [done|].
  apply bind_Ok in HN as (visit & Hvisit & HN).
  apply bind_Ok in HN as ([m1 this1] & HNrun & HN). injection HN as <-.
  pose proof (fillWorkStack_members _ _ _ _ _ Hsmall Hvisit) as Hmembers.
  pose proof (lower_all_domain _ _ _ _ _ _ _ Hlaw2 HNrun) as HNdom.
  assert (justified New heap this m1) as HNjust.
  { apply (lower_all_justified place2 heap this visit [] this m1 this1 Hlaw2);
      try done.
    intros p n Hp. apply Hlet. by apply Hmembers. }
  (* the old file *)
  unfold Old.convert_memo in HO. rewrite decide_False in HO by done.
  apply bind_Ok in HO as ([m2 this2] & HOrun & HO). injection HO as ->.
  change (@nil N) with (frames_stack []) in HOrun.
  apply (Old_convert_loop_invariant _ _ _ _ _
           (λ s, symbols s.2 = symbols this ∧ isEval s.2 = isEval this
                 ∧ symbolicEngine s.2 = symbolicEngine this
                 ∧ ∀ x v, umap_find x s.1 = Some v → umap_find x m1 = Some v)
           Hlaw1 Hdag Hnull) in HOrun
    as ((_ & _ & _ & Hsub) & Hroot & Hclosed & Honly).
  - simpl in Hsub. intros p.
    destruct (umap_find p mO) as [v|] eqn:HpO; [symmetry; by apply Hsub|].
    destruct (umap_find p m1) as [v|] eqn:HpN; [|done].
    assert (reached heap (symbolicEngine this) root p) as Hreach.
    { apply Hmembers. destruct (proj1 (HNdom p)) as [[? ?]|?]; [by eexists|done|done]. }
    assert (is_Some (umap_find p mO)) as [v' Hv'].
    { clear HpO HpN. induction Hreach as [|q n c Hreach IH Hn Hc]; [done|].
      by eapply Hclosed. }
    congruence.
  - intros x n [m this_] [m' this_'] Hx Hn (Hsym & Heval & Heng & Hsub) Hrun.
    simpl in *.
    destruct (lower_members _ _ _ _ _ _ _ _ Hrun)
      as (n' & _ & Hn' & Heng' & Hsym' & _).
    rewrite Hn in Hn'. injection Hn' as <-.
    assert (getKind n ≠ LET_NODE) as Hnolet by by eapply Hlet.
    unfold lower in Hrun.
    apply bind_Ok in Hrun as (n' & Hn' & Hrun).
    apply deref_Ok in Hn' as [_ Hn']. rewrite Hn in Hn'. injection Hn' as <-.
    apply bind_Ok in Hrun as ([e this3] & Hcase & Hrun). injection Hrun as <- <-.
    destruct (lower_case_members _ _ _ _ _ _ _ _ Hcase) as (_ & Heval' & _).
    split_and!; [by rewrite Hsym'|congruence|congruence|].
    intros y v Hy. rewrite umap_emplace_find in Hy by done.
    destruct (umap_find y m) as [v'|] eqn:Hym; [injection Hy as <-; by apply Hsub|].
    case_decide as Hyx; [|done]. injection Hy as <-. subst y.
    destruct (lower_case_mono _ _ _ _ m m1 this_ this _ _ Hsub Heng Heval Hsym Hcase)
      as [t HcaseN].
    apply lower_case_Old_New in HcaseN.
    assert (is_Some (umap_find x m1)) as [v Hv].
    { apply HNdom. right. by apply Hmembers. }
    destruct (HNjust x v n Hv Hn) as [t' Ht']. congruence.
  - done.
  - done.
  - intros p n c [v Hv]. done.
  - done.
  - intros _. constructor.
  - done.
Qed.

Lemma heap_refs_no_let p n :
  heap_refs !! p = Some n → getKind n ≠ LET_NODE.
Proof.
  revert p n. change (map_Forall (λ _ n, getKind n ≠ LET_NODE) heap_refs).
  apply (bool_decide_unpack _). vm_compute. exact I.
Qed.

Lemma convert_memo_Old_New_witness :
  ∃ mO mN,
    Old.convert_memo appended 30 heap_refs (ctor engine_refs false) 96 = Ok mO
    ∧ New.convert_memo (chained 13) 30 heap_refs (ctor engine_refs false) 96 = Ok mN
    ∧ mO ≠ mN
    ∧ ∀ p, umap_find p mO = umap_find p mN.
Proof.
  eexists _, _. split_and!; [vm_compute; reflexivity|vm_compute; reflexivity| |].
  - vm_compute. discriminate.
  - apply (convert_memo_Old_New appended (chained 13) 30 30 heap_refs N.to_nat
             (ctor engine_refs false) 96).
    + apply appended_lawful.
    + apply chained_lawful.
    + apply small_arity_heap_refs.
    + apply traversable_dag, traversable_heap_refs.
    + intros p n _. apply heap_refs_no_let.
    + vm_compute. reflexivity.
    + vm_compute. reflexivity.
Defined.

(** *** Sharing, in both files *)

(** C2, amended.  In both files, during a [convert] no element of the
    traversal sequence is skipped (the visit vector of [fillWorkStack] in
    the new file, the nodes that reach the switch in the loop of the old
    file): the case of a node runs, and makes its solver calls, once for
    every appearance of the node in the sequence.  What happens once per
    node is the memo entry: every node of the sequence has one, and an
    entry, once made, is the one the memo has at the end. *)
Theorem convert_lowers_every_appearance umap_place fuel heap this root :
  lawful umap_place →
  (∀ e this',
     New.convert umap_place fuel heap this root = Ok (e, this') →
     ∃ visitVector m,
       New.fillWorkStack fuel heap (symbolicEngine this) root = Ok visitVector
       ∧ New.convert_memo umap_place fuel heap this root = Ok m
       ∧ (∀ node n, heap !! node = Some n →
            lowerings node this'
              = (lowerings node this
                 + solver_calls n * appearances node visitVector)%nat)
       ∧ (∀ node, node ∈ visitVector → is_Some (umap_find node m))
       ∧ (∀ visited rest m1 this1,
            visitVector = (visited ++ rest)%list →
            New.lower_all umap_place heap visited ([], this) = Ok (m1, this1) →
            ∀ node v, umap_find node m1 = Some v → umap_find node m = Some v))
  ∧ (∀ e this',
       Old.convert umap_place fuel heap this root = Ok (e, this') →
       ∃ visitVector m,
         Old_visit_loop fuel heap (symbolicEngine this) root [] = Ok visitVector
         ∧ for_each (lower umap_place Old heap) visitVector ([], this) = Ok (m, this')
         ∧ Old.convert_memo umap_place fuel heap this root = Ok m
         ∧ (∀ node n, heap !! node = Some n →
              lowerings node this'
                = (lowerings node this
                   + solver_calls n * appearances node visitVector)%nat)
         ∧ (∀ node, node ∈ visitVector → is_Some (umap_find node m))
         ∧ (∀ visited rest m1 this1,
              visitVector = (visited ++ rest)%list →
              for_each (lower umap_place Old heap) visited ([], this) = Ok (m1, this1) →
              ∀ node v, umap_find node m1 = Some v → umap_find node m = Some v)).
Proof.
  intros Hlaw. split; intros e this' Hrun.
  - by eapply New_convert_lowers_every_appearance.
  - by eapply Old_convert_lowers_every_appearance.
Qed.

Lemma convert_lowers_every_appearance_witness :
  (∃ e this',
     New.convert (chained 13) 30 heap_refs (ctor engine_refs false) 96 = Ok (e, this')
     ∧ ∃ visitVector,
         New.fillWorkStack 30 heap_refs engine_refs 96 = Ok visitVector
         ∧ appearances 48 visitVector = 2%nat
         ∧ lowerings 48 this' = 2%nat
         ∧ ∀ node n, heap_refs !! node = Some n →
             lowerings node this'
               = (lowerings node (ctor engine_refs false)
                  + solver_calls n * appearances node visitVector)%nat)
  ∧ (∃ e this',
       Old.convert (chained 13) 30 heap_refs (ctor engine_refs false) 96 = Ok (e, this')
       ∧ ∃ visitVector,
           Old_visit_loop 30 heap_refs engine_refs 96 [] = Ok visitVector
           ∧ appearances 48 visitVector = 2%nat
           ∧ lowerings 48 this' = 2%nat
           ∧ ∀ node n, heap_refs !! node = Some n →
               lowerings node this'
                 = (lowerings node (ctor engine_refs false)
                    + solver_calls n * appearances node visitVector)%nat).
Proof.
  destruct (convert_lowers_every_appearance (chained 13) 30 heap_refs
              (ctor engine_refs false) 96 (chained_lawful 13)) as [HN HO].
  split.
  - eexists _, _. split; [vm_compute; reflexivity|].
    edestruct HN as (visit & m & Hvisit & _ & Hcount & _); [vm_compute; reflexivity|].
    exists visit. split_and!; [exact Hvisit| |vm_compute; reflexivity|exact Hcount].
    vm_compute in Hvisit. injection Hvisit as <-. reflexivity.
  - eexists _, _. split; [vm_compute; reflexivity|].
    edestruct HO as (visit & m & Hvisit & _ & _ & Hcount & _); [vm_compute; reflexivity|].
    exists visit. split_and!; [exact Hvisit| |vm_compute; reflexivity|exact Hcount].
    vm_compute in Hvisit. injection Hvisit as <-. reflexivity.
Defined.

End translator_more.
